(** * Conflict analysis of CaDiCaL (analyze.cpp): a shallow embedding

    The development follows [src/analyze.cpp]: the solver object
    [Internal] becomes a record that is passed explicitly, C++ [assert]s
    become failing outcomes, and pointers become indices ([0] or [None] for
    the null pointer).  Declarations that live in headers outside the
    analysed file ([internal.hpp], [queue.hpp], [clause.hpp], ...) are
    reconstructed from the specification and are marked as such. *)

From Stdlib Require Import ZArith QArith.
From stdpp Require Import base tactics option list gmap sorting.

Local Open Scope Z_scope.

(** ** Outcomes of a call

    A call either runs to completion or stops the process: a failed
    [assert], an access outside a container, or an exhausted iteration
    budget of the model. *)

Inductive failure : Type :=
  | AssertionFailed
  | OutOfBounds
  | OutOfFuel.

Inductive outcome (A : Type) : Type :=
  | Done (a : A)
  | Abort (why : failure).

Arguments Done {A} a.
Arguments Abort {A} why.

#[global] Instance outcome_ret : MRet outcome := λ A a, Done a.
#[global] Instance outcome_bind : MBind outcome := λ A B k m,
  match m with
  | Done a => k a
  | Abort why => Abort why
  end.

Definition assert_ (b : bool) : outcome unit :=
  if b then Done tt else Abort AssertionFailed.

(** ** Data model *)

(** The largest [int], which an untouched level record holds as trail
    position. *)
Definition INT_MAX : Z := 2147483647.

Module Var.
(** Modelled from the spec: the [Var] record of a header that is not at
    hand, with the attributes of a variable of section 3: decision
    level, trail height when assigned, and the reason clause ([None]
    for decisions and units). *)
Record t : Type := mk { level : Z; trail : Z; reason : option Z }.
#[global] Instance inhabited : Inhabited t := populate (mk 0 0 None).
End Var.

(** Modelled from the spec: the status of a variable (section 3), of
    which the analysis reads [ACTIVE] and writes [FIXED]. *)
Inductive Status : Type := UNASSIGNED | ACTIVE | FIXED.

#[global] Instance Status_eq_dec : EqDecision Status.
Proof. solve_decision. Defined.

Module Flags.
(** Modelled from the spec: the flags of a variable (section 3), which
    the source reads and writes field by field. *)
Record t : Type := mk {
  seen : bool;
  keep : bool;
  poison : bool;
  removable : bool;
  status : Status
}.
#[global] Instance inhabited : Inhabited t :=
  populate (mk false false false false UNASSIGNED).
Definition active (f : t) : bool := bool_decide (status f = ACTIVE).
Definition set_seen (b : bool) (f : t) : t :=
  mk b (keep f) (poison f) (removable f) (status f).
Definition set_status (st : Status) (f : t) : t :=
  mk (seen f) (keep f) (poison f) (removable f) st.
End Flags.

Module Level.
(** Modelled from the spec: the Decision-Level record of section 3 and
    4.1, missing from the sources at hand.  It counts the analyzed
    literals of the level and keeps the lowest trail position touched;
    [reset] restores the empty state. *)
Record t : Type := mk { seen : Z; trail : Z }.
Definition reset : t := mk 0 INT_MAX.
#[global] Instance inhabited : Inhabited t := populate reset.
End Level.

Module Link.
(** Modelled from the spec: the links of the doubly linked VMTF queue,
    stored as variable indices with [0] for none (section 9). *)
Record t : Type := mk { prev : Z; next : Z }.
#[global] Instance inhabited : Inhabited t := populate (mk 0 0).
End Link.

Module Queue.
(** Modelled from the spec: anchors of the VMTF queue, the cursor to the
    first unassigned variable and the stamp of that variable.  New
    entries are linked at [last], which is the front of the decision
    order. *)
Record t : Type := mk { first : Z; last : Z; unassigned : Z; bumped : Z }.

(** Modelled from the spec: unlink a variable from its position.  The
    neighbours are linked to each other; a missing neighbour means that
    the anchor of that side moves. *)
Definition dequeue (ltab : gmap Z Link.t) (idx : Z) (q : t)
    : gmap Z Link.t * t :=
  let l := ltab !!! idx in
  let ltab1 :=
    if Link.prev l =? 0 then ltab
    else <[Link.prev l :=
             Link.mk (Link.prev (ltab !!! Link.prev l)) (Link.next l)]> ltab in
  let first1 := if Link.prev l =? 0 then Link.next l else first q in
  let ltab2 :=
    if Link.next l =? 0 then ltab1
    else <[Link.next l :=
             Link.mk (Link.prev l) (Link.next (ltab1 !!! Link.next l))]> ltab1 in
  let last1 := if Link.next l =? 0 then Link.prev l else last q in
  (ltab2, mk first1 last1 (unassigned q) (bumped q)).

(** Modelled from the spec: relink a variable at the front, which is the
    [last] anchor. *)
Definition enqueue (ltab : gmap Z Link.t) (idx : Z) (q : t)
    : gmap Z Link.t * t :=
  let ltab1 :=
    if last q =? 0 then ltab
    else <[last q := Link.mk (Link.prev (ltab !!! last q)) idx]> ltab in
  let first1 := if last q =? 0 then idx else first q in
  (<[idx := Link.mk (last q) 0]> ltab1,
   mk first1 idx (unassigned q) (bumped q)).
End Queue.

Module Clause.
(** Modelled from the spec: the clause object of section 3.  The
    [analyzed] stamp is only meaningful when [have_analyzed] holds. *)
Record t : Type := mk {
  redundant : bool;
  hbr : bool;
  used : bool;
  have_analyzed : bool;
  analyzed : Z;
  glue : Z;
  literals : list Z
}.
#[global] Instance inhabited : Inhabited t :=
  populate (mk false false false false 0 0 []).
Definition set_used (b : bool) (c : t) : t :=
  mk (redundant c) (hbr c) b (have_analyzed c) (analyzed c) (glue c)
     (literals c).
Definition set_analyzed (a : Z) (c : t) : t :=
  mk (redundant c) (hbr c) (used c) (have_analyzed c) a (glue c)
     (literals c).
End Clause.

Module Stats.
(** Modelled from the spec: the counters of section 6 that the analysis
    and its collaborators touch.  They are C++ [long] values; their
    range is never approached and they are kept as integers. *)
Record t : Type := mk {
  bumped : Z;
  bumplast : Z;
  trailbumped : Z;
  analyzed : Z;
  learned : Z;
  units : Z;
  binaries : Z;
  fixed : Z;
  propagations : Z;
  decisions : Z
}.
Definition set_bumped (x : Z) (st : t) : t :=
  mk x (bumplast st) (trailbumped st) (analyzed st) (learned st) (units st)
     (binaries st) (fixed st) (propagations st) (decisions st).
Definition set_bumplast (x : Z) (st : t) : t :=
  mk (bumped st) x (trailbumped st) (analyzed st) (learned st) (units st)
     (binaries st) (fixed st) (propagations st) (decisions st).
Definition set_trailbumped (x : Z) (st : t) : t :=
  mk (bumped st) (bumplast st) x (analyzed st) (learned st) (units st)
     (binaries st) (fixed st) (propagations st) (decisions st).
Definition set_analyzed (x : Z) (st : t) : t :=
  mk (bumped st) (bumplast st) (trailbumped st) x (learned st) (units st)
     (binaries st) (fixed st) (propagations st) (decisions st).
Definition set_learned (x : Z) (st : t) : t :=
  mk (bumped st) (bumplast st) (trailbumped st) (analyzed st) x (units st)
     (binaries st) (fixed st) (propagations st) (decisions st).
Definition set_units (x : Z) (st : t) : t :=
  mk (bumped st) (bumplast st) (trailbumped st) (analyzed st) (learned st) x
     (binaries st) (fixed st) (propagations st) (decisions st).
Definition set_binaries (x : Z) (st : t) : t :=
  mk (bumped st) (bumplast st) (trailbumped st) (analyzed st) (learned st)
     (units st) x (fixed st) (propagations st) (decisions st).
Definition set_fixed (x : Z) (st : t) : t :=
  mk (bumped st) (bumplast st) (trailbumped st) (analyzed st) (learned st)
     (units st) (binaries st) x (propagations st) (decisions st).
End Stats.

Module Opts.
(** Modelled from the spec: the options read by the analysis.  The two
    thresholds of section 4.2 are compared with ratios and are kept as
    exact rationals. *)
Record t : Type := mk {
  trailbump : bool;
  trailbumprops : Q;
  trailbumplast : Q;
  minimize : bool
}.
End Opts.

Module Averages.
(** Modelled from the spec: [UPDATE_AVERAGE] is a macro of a header that
    is not at hand.  Each moving average is represented by the samples
    fed into it, oldest first; the smoothing itself is floating point
    arithmetic and is left out. *)
Record t : Type := mk {
  fast_glue_avg : list Z;
  slow_glue_avg : list Z;
  size_avg : list Z;
  jump_avg : list Z
}.
Definition update_fast_glue_avg (y : Z) (a : t) : t :=
  mk (fast_glue_avg a ++ [y]) (slow_glue_avg a) (size_avg a) (jump_avg a).
Definition update_slow_glue_avg (y : Z) (a : t) : t :=
  mk (fast_glue_avg a) (slow_glue_avg a ++ [y]) (size_avg a) (jump_avg a).
Definition update_size_avg (y : Z) (a : t) : t :=
  mk (fast_glue_avg a) (slow_glue_avg a) (size_avg a ++ [y]) (jump_avg a).
Definition update_jump_avg (y : Z) (a : t) : t :=
  mk (fast_glue_avg a) (slow_glue_avg a) (size_avg a) (jump_avg a ++ [y]).
End Averages.

(** Modelled from the spec: what the proof logger of section 6 is
    offered, the empty clause and learned units.  An attached logger is
    represented by the lines traced so far. *)
Inductive ProofLine : Type :=
  | trace_empty_clause
  | trace_unit_clause (lit : Z).

(** Modelled from the spec: the search context that owns all mutable state
    (sections 5 and 9), with the members of [Internal] that [analyze.cpp]
    and its collaborators use.  Tables are indexed by variable, clauses
    by address; references that may be null are options. *)
Record Internal : Type := mkInternal {
  unsat : bool;
  iterating : bool;
  level : Z;
  vals : gmap Z Z;
  vtab : gmap Z Var.t;
  ftab : gmap Z Flags.t;
  btab : gmap Z Z;
  ltab : gmap Z Link.t;
  queue : Queue.t;
  control : gmap Z Level.t;
  trail : list Z;
  clause : list Z;
  analyzed : list Z;
  levels : list Z;
  resolved : list Z;
  conflict : option Z;
  clauses : gmap Z Clause.t;
  proof : option (list ProofLine);
  stats : Stats.t;
  opts : Opts.t;
  averages : Averages.t
}.

Definition set_unsat (x : bool) (s : Internal) : Internal :=
  mkInternal x (iterating s) (level s) (vals s) (vtab s) (ftab s) (btab s) (ltab s) (queue s) (control s) (trail s) (clause s) (analyzed s) (levels s) (resolved s) (conflict s) (clauses s) (proof s) (stats s) (opts s) (averages s).
Definition set_iterating (x : bool) (s : Internal) : Internal :=
  mkInternal (unsat s) x (level s) (vals s) (vtab s) (ftab s) (btab s) (ltab s) (queue s) (control s) (trail s) (clause s) (analyzed s) (levels s) (resolved s) (conflict s) (clauses s) (proof s) (stats s) (opts s) (averages s).
Definition set_level (x : Z) (s : Internal) : Internal :=
  mkInternal (unsat s) (iterating s) x (vals s) (vtab s) (ftab s) (btab s) (ltab s) (queue s) (control s) (trail s) (clause s) (analyzed s) (levels s) (resolved s) (conflict s) (clauses s) (proof s) (stats s) (opts s) (averages s).
Definition set_vals (x : gmap Z Z) (s : Internal) : Internal :=
  mkInternal (unsat s) (iterating s) (level s) x (vtab s) (ftab s) (btab s) (ltab s) (queue s) (control s) (trail s) (clause s) (analyzed s) (levels s) (resolved s) (conflict s) (clauses s) (proof s) (stats s) (opts s) (averages s).
Definition set_vtab (x : gmap Z Var.t) (s : Internal) : Internal :=
  mkInternal (unsat s) (iterating s) (level s) (vals s) x (ftab s) (btab s) (ltab s) (queue s) (control s) (trail s) (clause s) (analyzed s) (levels s) (resolved s) (conflict s) (clauses s) (proof s) (stats s) (opts s) (averages s).
Definition set_ftab (x : gmap Z Flags.t) (s : Internal) : Internal :=
  mkInternal (unsat s) (iterating s) (level s) (vals s) (vtab s) x (btab s) (ltab s) (queue s) (control s) (trail s) (clause s) (analyzed s) (levels s) (resolved s) (conflict s) (clauses s) (proof s) (stats s) (opts s) (averages s).
Definition set_btab (x : gmap Z Z) (s : Internal) : Internal :=
  mkInternal (unsat s) (iterating s) (level s) (vals s) (vtab s) (ftab s) x (ltab s) (queue s) (control s) (trail s) (clause s) (analyzed s) (levels s) (resolved s) (conflict s) (clauses s) (proof s) (stats s) (opts s) (averages s).
Definition set_ltab (x : gmap Z Link.t) (s : Internal) : Internal :=
  mkInternal (unsat s) (iterating s) (level s) (vals s) (vtab s) (ftab s) (btab s) x (queue s) (control s) (trail s) (clause s) (analyzed s) (levels s) (resolved s) (conflict s) (clauses s) (proof s) (stats s) (opts s) (averages s).
Definition set_queue (x : Queue.t) (s : Internal) : Internal :=
  mkInternal (unsat s) (iterating s) (level s) (vals s) (vtab s) (ftab s) (btab s) (ltab s) x (control s) (trail s) (clause s) (analyzed s) (levels s) (resolved s) (conflict s) (clauses s) (proof s) (stats s) (opts s) (averages s).
Definition set_control (x : gmap Z Level.t) (s : Internal) : Internal :=
  mkInternal (unsat s) (iterating s) (level s) (vals s) (vtab s) (ftab s) (btab s) (ltab s) (queue s) x (trail s) (clause s) (analyzed s) (levels s) (resolved s) (conflict s) (clauses s) (proof s) (stats s) (opts s) (averages s).
Definition set_trail (x : list Z) (s : Internal) : Internal :=
  mkInternal (unsat s) (iterating s) (level s) (vals s) (vtab s) (ftab s) (btab s) (ltab s) (queue s) (control s) x (clause s) (analyzed s) (levels s) (resolved s) (conflict s) (clauses s) (proof s) (stats s) (opts s) (averages s).
Definition set_clause (x : list Z) (s : Internal) : Internal :=
  mkInternal (unsat s) (iterating s) (level s) (vals s) (vtab s) (ftab s) (btab s) (ltab s) (queue s) (control s) (trail s) x (analyzed s) (levels s) (resolved s) (conflict s) (clauses s) (proof s) (stats s) (opts s) (averages s).
Definition set_analyzed (x : list Z) (s : Internal) : Internal :=
  mkInternal (unsat s) (iterating s) (level s) (vals s) (vtab s) (ftab s) (btab s) (ltab s) (queue s) (control s) (trail s) (clause s) x (levels s) (resolved s) (conflict s) (clauses s) (proof s) (stats s) (opts s) (averages s).
Definition set_levels (x : list Z) (s : Internal) : Internal :=
  mkInternal (unsat s) (iterating s) (level s) (vals s) (vtab s) (ftab s) (btab s) (ltab s) (queue s) (control s) (trail s) (clause s) (analyzed s) x (resolved s) (conflict s) (clauses s) (proof s) (stats s) (opts s) (averages s).
Definition set_resolved (x : list Z) (s : Internal) : Internal :=
  mkInternal (unsat s) (iterating s) (level s) (vals s) (vtab s) (ftab s) (btab s) (ltab s) (queue s) (control s) (trail s) (clause s) (analyzed s) (levels s) x (conflict s) (clauses s) (proof s) (stats s) (opts s) (averages s).
Definition set_conflict (x : option Z) (s : Internal) : Internal :=
  mkInternal (unsat s) (iterating s) (level s) (vals s) (vtab s) (ftab s) (btab s) (ltab s) (queue s) (control s) (trail s) (clause s) (analyzed s) (levels s) (resolved s) x (clauses s) (proof s) (stats s) (opts s) (averages s).
Definition set_clauses (x : gmap Z Clause.t) (s : Internal) : Internal :=
  mkInternal (unsat s) (iterating s) (level s) (vals s) (vtab s) (ftab s) (btab s) (ltab s) (queue s) (control s) (trail s) (clause s) (analyzed s) (levels s) (resolved s) (conflict s) x (proof s) (stats s) (opts s) (averages s).
Definition set_proof (x : option (list ProofLine)) (s : Internal) : Internal :=
  mkInternal (unsat s) (iterating s) (level s) (vals s) (vtab s) (ftab s) (btab s) (ltab s) (queue s) (control s) (trail s) (clause s) (analyzed s) (levels s) (resolved s) (conflict s) (clauses s) x (stats s) (opts s) (averages s).
Definition set_stats (x : Stats.t) (s : Internal) : Internal :=
  mkInternal (unsat s) (iterating s) (level s) (vals s) (vtab s) (ftab s) (btab s) (ltab s) (queue s) (control s) (trail s) (clause s) (analyzed s) (levels s) (resolved s) (conflict s) (clauses s) (proof s) x (opts s) (averages s).
Definition set_opts (x : Opts.t) (s : Internal) : Internal :=
  mkInternal (unsat s) (iterating s) (level s) (vals s) (vtab s) (ftab s) (btab s) (ltab s) (queue s) (control s) (trail s) (clause s) (analyzed s) (levels s) (resolved s) (conflict s) (clauses s) (proof s) (stats s) x (averages s).
Definition set_averages (x : Averages.t) (s : Internal) : Internal :=
  mkInternal (unsat s) (iterating s) (level s) (vals s) (vtab s) (ftab s) (btab s) (ltab s) (queue s) (control s) (trail s) (clause s) (analyzed s) (levels s) (resolved s) (conflict s) (clauses s) (proof s) (stats s) (opts s) x.

(** ** Accessors

    The inline accessors of [Internal] are declared in a header that is
    not at hand.  Tables are indexed by the variable index of a
    literal. *)

(** Modelled from the spec: the variable index of a literal, which is a
    signed reference to a variable (section 3). *)
Definition vidx (lit : Z) : Z := Z.abs lit.
Arguments vidx : simpl never.

(** Modelled from the spec: the flags of the variable of a literal. *)
Definition flags (s : Internal) (lit : Z) : Flags.t := ftab s !!! vidx lit.

(** Modelled from the spec: the level, trail position and reason of the
    variable of a literal. *)
Definition var (s : Internal) (lit : Z) : Var.t := vtab s !!! vidx lit.

(** Modelled from the spec: the bump stamp of the variable of a
    literal. *)
Definition bumped (s : Internal) (lit : Z) : Z := btab s !!! vidx lit.

(** Modelled from the spec: the value of a literal, positive when true
    and negative when false; it is the value of the variable, negated for
    a negative literal. *)
Definition val (s : Internal) (lit : Z) : Z :=
  let v := vals s !!! vidx lit in if lit <? 0 then - v else v.

(** Writing through the reference that [flags] returns. *)
Definition update_flags (lit : Z) (f : Flags.t → Flags.t) (s : Internal)
    : Internal :=
  set_ftab (<[vidx lit := f (flags s lit)]> (ftab s)) s.

(** [if (proof) proof->trace_... ();] *)
Definition trace (line : ProofLine) (s : Internal) : Internal :=
  match proof s with
  | Some lines => set_proof (Some (lines ++ [line])) s
  | None => s
  end.

(** Modelled from the spec: [relative] of the utility header, the ratio
    of two counters (propagations per decision in section 4.2), taken
    exactly; it is [0] when the denominator is [0]. *)
Definition relative (a b : Z) : Q := (inject_Z a / inject_Z b)%Q.

(** Modelled from the spec: [percent] of the utility header, the
    percentage of one counter in another (the fraction of bumps on the
    last level in section 4.2), taken exactly. *)
Definition percent (a b : Z) : Q := (inject_Z (100 * a) / inject_Z b)%Q.

(** The comparison [x > y] of two ratios. *)
Definition Qgtb (x y : Q) : bool := negb (Qle_bool x y).

(** [std::sort] with a comparison functor, as insertion sort.  Only the
    two guarantees of [std::sort] are used below: the result is a
    permutation of the input and has no inversion for the functor. *)
Fixpoint sort_insert {A} (less : A → A → bool) (x : A) (l : list A) : list A :=
  match l with
  | [] => [x]
  | y :: l' => if less y x then y :: sort_insert less x l' else x :: l
  end.

Definition sort {A} (less : A → A → bool) (l : list A) : list A :=
  foldr (sort_insert less) [] l.

(** No inversion for the functor: [b] may stand behind [a] unless it is
    less than [a]. *)
Definition not_after {A} (less : A → A → bool) (a b : A) : Prop :=
  less b a = false.

(** A loop over a container whose body may fail. *)
Fixpoint for_each {A S} (body : A → S → outcome S) (l : list A) (s : S)
    : outcome S :=
  match l with
  | [] => Done s
  | x :: l' => s1 ← body x s; for_each body l' s1
  end.

(** ** Learning the empty clause and units *)

Definition learn_empty_clause (s : Internal) : outcome Internal :=
  _ ← assert_ (negb (unsat s));
  let s := trace trace_empty_clause s in
  Done (set_unsat true s).

Definition learn_unit_clause (lit : Z) (s : Internal) : outcome Internal :=
  let s := trace (trace_unit_clause lit) s in
  _ ← assert_ (Flags.active (flags s lit));
  let s := update_flags lit (Flags.set_status FIXED) s in
  Done (set_stats (Stats.set_fixed (Stats.fixed (stats s) + 1) (stats s)) s).

(** ** The VMTF queue *)

(** Modelled from the spec: move the cursor to the first unassigned
    variable and remember its stamp. *)
Definition update_queue_unassigned (idx : Z) (s : Internal) : Internal :=
  set_queue (Queue.mk (Queue.first (queue s)) (Queue.last (queue s)) idx
                      (btab s !!! idx)) s.

Definition bump_variable (lit : Z) (s : Internal) : Internal :=
  let idx := vidx lit in
  let l := ltab s !!! idx in
  if Link.next l =? 0 then s else
  let '(lt1, q1) := Queue.dequeue (ltab s) idx (queue s) in
  let '(lt2, q2) := Queue.enqueue lt1 idx q1 in
  let s := set_queue q2 (set_ltab lt2 s) in
  let s := set_stats (Stats.set_bumped (Stats.bumped (stats s) + 1) (stats s)) s in
  let s := set_btab (<[idx := Stats.bumped (stats s)]> (btab s)) s in
  let s :=
    if Var.level (var s idx) =? level s
    then set_stats (Stats.set_bumplast (Stats.bumplast (stats s) + 1) (stats s)) s
    else s in
  if vals s !!! idx =? 0 then update_queue_unassigned idx s else s.

Definition bumped_earlier (s : Internal) (a b : Z) : bool :=
  bumped s a <? bumped s b.

Definition trail_bumped_smaller (s : Internal) (a b : Z) : bool :=
  let c := Var.trail (var s a) in
  let s_ := bumped s a + c in
  let d := Var.trail (var s b) in
  let t := bumped s b + d in
  if s_ <? t then true
  else if t <? s_ then false
  else c <? d.

(** The condition under which the batch is ordered by trail position as
    well. *)
Definition trail_bump_policy (s : Internal) : bool :=
  Opts.trailbump (opts s)
  && Qgtb (relative (Stats.propagations (stats s)) (Stats.decisions (stats s)))
          (Opts.trailbumprops (opts s))
  && Qgtb (percent (Stats.bumplast (stats s)) (Stats.bumped (stats s)))
          (Opts.trailbumplast (opts s)).

Definition bump_variables (s : Internal) : Internal :=
  let s :=
    if trail_bump_policy s
    then
      let s := set_analyzed (sort (trail_bumped_smaller s) (analyzed s)) s in
      set_stats (Stats.set_trailbumped (Stats.trailbumped (stats s) + 1)
                                       (stats s)) s
    else set_analyzed (sort (bumped_earlier s) (analyzed s)) s in
  foldl (λ s lit, bump_variable lit s) s (analyzed s).

(** ** Clause activity *)

(** Modelled from the spec: the functor [analyzed_earlier] of the clause
    header orders clauses by ascending previous time stamp. *)
Definition analyzed_earlier (s : Internal) (a b : Z) : bool :=
  Clause.analyzed (clauses s !!! a) <? Clause.analyzed (clauses s !!! b).

Definition bump_clause (c : Z) (s : Internal) : outcome Internal :=
  _ ← assert_ (Clause.have_analyzed (clauses s !!! c));
  let s := set_stats (Stats.set_analyzed (Stats.analyzed (stats s) + 1)
                                         (stats s)) s in
  Done (set_clauses (<[c := Clause.set_analyzed (Stats.analyzed (stats s))
                                                (clauses s !!! c)]>
                       (clauses s)) s).

Definition bump_resolved_clauses (s : Internal) : outcome Internal :=
  let s := set_resolved (sort (analyzed_earlier s) (resolved s)) s in
  s ← for_each bump_clause (resolved s) s;
  Done (set_resolved [] s).

Definition save_as_resolved_clause (c : Z) (s : Internal) : Internal :=
  if negb (Clause.redundant (clauses s !!! c)) then s else
  let s :=
    if Clause.hbr (clauses s !!! c)
    then set_clauses (<[c := Clause.set_used true (clauses s !!! c)]>
                        (clauses s)) s
    else s in
  if negb (Clause.have_analyzed (clauses s !!! c)) then s else
  set_resolved (resolved s ++ [c]) s.

(** ** Analysis of literals and reasons *)

Definition analyze_literal (lit : Z) (open : Z) (s : Internal)
    : outcome (Internal * Z) :=
  _ ← assert_ (negb (lit =? 0));
  let f := flags s lit in
  if Flags.seen f then Done (s, open) else
  let v := var s lit in
  if Var.level v =? 0 then Done (s, open) else
  _ ← assert_ (val s lit <? 0);
  let s := if Var.level v <? level s
           then set_clause (clause s ++ [lit]) s else s in
  let l := control s !!! Var.level v in
  let s := if Level.seen l =? 0
           then set_levels (levels s ++ [Var.level v]) s else s in
  let l := Level.mk (Level.seen l + 1) (Level.trail l) in
  let l := if Var.trail v <? Level.trail l
           then Level.mk (Level.seen l) (Var.trail v) else l in
  let s := set_control (<[Var.level v := l]> (control s)) s in
  let s := update_flags lit (Flags.set_seen true) s in
  let s := set_analyzed (analyzed s ++ [lit]) s in
  Done (s, if Var.level v =? level s then open + 1 else open).

Definition analyze_reason (lit : Z) (reason : option Z) (open : Z)
    (s : Internal) : outcome (Internal * Z) :=
  match reason with
  | None => Abort AssertionFailed
  | Some c =>
      let s := save_as_resolved_clause c s in
      for_each (λ other '(s, open),
                  if negb (other =? lit) then analyze_literal other open s
                  else Done (s, open))
               (Clause.literals (clauses s !!! c)) (s, open)
  end.

(** ** Cleaning up *)

(** The body of the loop of [clear_seen]. *)
Definition clear_seen_flag (lit : Z) (s : Internal) : outcome Internal :=
  let f := flags s lit in
  _ ← assert_ (Flags.seen f);
  let s := update_flags lit (Flags.set_seen false) s in
  _ ← assert_ (negb (Flags.keep f));
  _ ← assert_ (negb (Flags.poison f));
  _ ← assert_ (negb (Flags.removable f));
  Done s.

Definition clear_seen (s : Internal) : outcome Internal :=
  s ← for_each clear_seen_flag (analyzed s) s;
  Done (set_analyzed [] s).

Definition clear_levels (s : Internal) : Internal :=
  let s := foldl (λ s l, set_control (<[l := Level.reset]> (control s)) s)
                 s (levels s) in
  set_levels [] s.

(** ** Collaborators of the analysis

    The functions of this part are called by [analyze] and are defined in
    files that are not at hand. *)

(** Modelled from the spec: the well-formedness check of the learned
    clause (section 4.4, step 3): every literal is falsified and no
    variable occurs twice, be it with the same or with opposite sign. *)
Definition check_learned_clause (s : Internal) : outcome Internal :=
  _ ← assert_ (forallb (λ lit, val s lit <? 0) (clause s));
  _ ← assert_ (bool_decide (NoDup (vidx <$> clause s)));
  Done s.

(** Modelled from the spec: [minimize_clause] is defined in another file.
    The minimizer of section 6 is an interface: any function from states
    to outcomes can be plugged in. *)
Class Minimizer : Type := minimize_clause : Internal → outcome Internal.

(** Modelled from the spec: what section 6 asks of a minimizer.  It
    returns a possibly reduced literal set and leaves everything else as
    it found it, the seen flags of the analyzed batch in particular. *)
Definition minimizer_contract (M : Minimizer) : Prop :=
  ∀ s, ∃ s', minimize_clause s = Done s'
    ∧ s' = set_clause (clause s') s ∧ clause s' ⊆ clause s.

(** Modelled from the spec: the clause factory of section 6.  The new
    clause is redundant, carries the glue and the literals of the clause
    buffer and lives at an unused address.  Whether a clause gets a time
    stamp slot is decided by a retention policy that is not part of the
    analysis; the clause is created without one. *)
Definition new_learned_redundant_clause (glue : Z) (s : Internal)
    : Z * Internal :=
  let c := fresh (dom (clauses s)) in
  (c, set_clauses (<[c := Clause.mk true false false false 0 glue (clause s)]>
                     (clauses s)) s).

(** Modelled from the spec: the comparison functor [trail_larger], which
    orders literals by descending assignment level, the more recently
    assigned literal first among literals of one level (section 4.4,
    step 9). *)
Definition trail_larger (s : Internal) (a b : Z) : bool :=
  let la := Var.level (var s a) in
  let lb := Var.level (var s b) in
  if lb <? la then true
  else if la <? lb then false
  else Var.trail (var s b) <? Var.trail (var s a).

(** Modelled from the spec: truncating the trail.  Literals are popped
    from the end of the trail and become unassigned as long as their level
    is above the target; the records of the levels above the target are
    destroyed. *)
Fixpoint unassign_above (target : Z) (vtab : gmap Z Var.t)
    (rtrail : list Z) (vals : gmap Z Z) : list Z * gmap Z Z :=
  match rtrail with
  | [] => ([], vals)
  | lit :: rest =>
      if target <? Var.level (vtab !!! vidx lit)
      then unassign_above target vtab rest (<[vidx lit := 0]> vals)
      else (rtrail, vals)
  end.

(** Modelled from the spec: [backtrack] truncates the trail back to the
    target level, which becomes the current level (section 4.4, step
    9). *)
Definition backtrack (target : Z) (s : Internal) : Internal :=
  let '(rtrail, vals1) :=
    unassign_above target (vtab s) (reverse (trail s)) (vals s) in
  let s := set_vals vals1 (set_trail (reverse rtrail) s) in
  let s := set_control (filter (λ kv, kv.1 ≤ target) (control s)) s in
  set_level target s.

(** Modelled from the spec: assigning a literal at the current level,
    with a reason or without one. *)
Definition assign (lit : Z) (reason : option Z) (s : Internal) : Internal :=
  let v := Var.mk (level s) (Z.of_nat (length (trail s))) reason in
  let s := set_vtab (<[vidx lit := v]> (vtab s)) s in
  let s := set_vals (<[vidx lit := if lit <? 0 then -1 else 1]> (vals s)) s in
  set_trail (trail s ++ [lit]) s.

(** Modelled from the spec: the flipped literal is assigned with the
    learned clause as its reason. *)
Definition assign_driving (lit : Z) (c : Z) (s : Internal) : Internal :=
  assign lit (Some c) s.

(** Modelled from the spec: a learned unit is recorded as a fixed
    top-level unit, through [learn_unit_clause], and assigned without
    reason. *)
Definition assign_unit (lit : Z) (s : Internal) : outcome Internal :=
  s ← learn_unit_clause lit s;
  Done (assign lit None s).

(** ** The analysis *)

(** [while (!flags (uip = *--i).seen);] with [i] the number of trail
    entries before the iterator.  Stepping below the begin of the trail
    leaves the container. *)
Fixpoint previous_seen (s : Internal) (i : nat) : outcome (Z * nat) :=
  match i with
  | O => Abort OutOfBounds
  | S j =>
      match trail s !! j with
      | None => Abort OutOfBounds
      | Some uip =>
          if Flags.seen (flags s uip) then Done (uip, j)
          else previous_seen s j
      end
  end.

(** The resolution loop.  Each round consumes at least one trail entry,
    so that a budget above the trail height is never used up. *)
Fixpoint analyze_loop (fuel : nat) (reason : option Z) (uip open : Z)
    (i : nat) (s : Internal) : outcome (Internal * Z) :=
  match fuel with
  | O => Abort OutOfFuel
  | S fuel =>
      let other := 0 in
      '(s, open) ← (if reason is Some _
                    then analyze_reason uip reason open s
                    else analyze_literal other open s);
      '(uip, i) ← previous_seen s i;
      let open := open - 1 in
      if open =? 0 then Done (s, uip)
      else analyze_loop fuel (Var.reason (var s uip)) uip open i s
  end.

(** First part of [analyze]: derive the first UIP clause and check it. *)
Definition analyze_derive (s : Internal) : outcome (Internal * Z) :=
  '(s, uip) ← analyze_loop (S (length (trail s))) (conflict s) 0 0
                           (length (trail s)) s;
  let s := set_clause (clause s ++ [- uip]) s in
  s ← check_learned_clause s;
  Done (s, uip).

Section Analyze.
Context {M : Minimizer}.

(** Second part, entered once the resolved clauses are bumped: update
    glue and size statistics, minimize, and bump the analyzed variables.
    The result carries the glue and the final size of the clause. *)
Definition analyze_update (s : Internal) : outcome (Internal * Z * Z) :=
  let glue := Z.of_nat (length (levels s)) in
  let s := set_averages (Averages.update_fast_glue_avg glue (averages s)) s in
  let s := set_averages (Averages.update_slow_glue_avg glue (averages s)) s in
  let size := Z.of_nat (length (clause s)) in
  let s := set_stats (Stats.set_learned (Stats.learned (stats s) + size)
                                        (stats s)) s in
  '(s, size) ←
    (if 1 <? size then
       s ← (if Opts.minimize (opts s) then minimize_clause s else Done s);
       Done (s, Z.of_nat (length (clause s)))
     else Done (s, size));
  let s := set_stats (Stats.set_units
             (Stats.units (stats s) + (if size =? 1 then 1 else 0))
             (stats s)) s in
  let s := set_stats (Stats.set_binaries
             (Stats.binaries (stats s) + (if size =? 2 then 1 else 0))
             (stats s)) s in
  let s := set_averages (Averages.update_size_avg size (averages s)) s in
  let s := bump_variables s in
  Done (s, glue, size).

(** Third part: determine the jump level, backtrack and assign the
    flipped literal. *)
Definition analyze_backjump (uip glue size : Z) (s : Internal)
    : outcome Internal :=
  if 1 <? size then
    let s := set_clause (sort (trail_larger s) (clause s)) s in
    let '(driving_clause, s) := new_learned_redundant_clause glue s in
    match clause s !! 1%nat with
    | None => Abort OutOfBounds
    | Some second =>
        let jump := Var.level (var s second) in
        let s := set_averages (Averages.update_jump_avg jump (averages s)) s in
        let s := backtrack jump s in
        Done (assign_driving (- uip) driving_clause s)
    end
  else
    let s := set_iterating true s in
    let s := set_averages (Averages.update_jump_avg 0 (averages s)) s in
    let s := backtrack 0 s in
    assign_unit (- uip) s.

(** Last part: clean up. *)
Definition analyze_cleanup (s : Internal) : outcome Internal :=
  s ← clear_seen s;
  let s := set_clause [] s in
  let s := clear_levels s in
  Done (set_conflict None s).

Definition analyze (s : Internal) : outcome Internal :=
  _ ← assert_ (bool_decide (is_Some (conflict s)));
  if level s =? 0 then learn_empty_clause s else
  '(s, uip) ← analyze_derive s;
  s ← bump_resolved_clauses s;
  '(s, glue, size) ← analyze_update s;
  s ← analyze_backjump uip glue size s;
  analyze_cleanup s.
End Analyze.

(** ** The order represented by the queue

    The links of the queue represent a list of variables: [linked lt p l n]
    holds when the entries of [l] are chained in [lt], the first one
    pointing back to [p] and the last one pointing on to [n]. *)

Definition first_or_null (l : list Z) : Z := default 0 (head l).
Definition last_or_null (l : list Z) : Z := default 0 (last l).

Fixpoint linked (lt : gmap Z Link.t) (p : Z) (l : list Z) (n : Z) : Prop :=
  match l with
  | [] => True
  | x :: l' =>
      x ≠ 0 ∧ lt !!! x = Link.mk p (default n (head l')) ∧ linked lt x l' n
  end.

(** [queue_order s l]: the queue of [s] holds exactly the variables of
    [l], each once, from the [first] anchor to the [last] one. *)
Definition queue_order (s : Internal) (l : list Z) : Prop :=
  NoDup l
  ∧ linked (ltab s) 0 l 0
  ∧ Queue.first (queue s) = first_or_null l
  ∧ Queue.last (queue s) = last_or_null l.

(** The variable at the front carries the latest stamp: variables enter
    the queue at the front with a fresh stamp, and so does every bump. *)
Definition front_stamped (s : Internal) (l : list Z) : Prop :=
  ∀ x, last l = Some x → btab s !!! x = Stats.bumped (stats s).

(** The effects of a bump on the stamps, the counters and the cursor to
    the first unassigned variable. *)
Definition bump_effects (lit : Z) (s s' : Internal) : Prop :=
  Stats.bumped (stats s') = Stats.bumped (stats s) + 1
  ∧ btab s' !!! vidx lit = Stats.bumped (stats s')
  ∧ Stats.bumplast (stats s') =
      Stats.bumplast (stats s)
      + (if Var.level (var s lit) =? level s then 1 else 0)
  ∧ (vals s !!! vidx lit = 0 →
       Queue.unassigned (queue s') = vidx lit
       ∧ Queue.bumped (queue s') = Stats.bumped (stats s')).

(** ** A conflict on the second level

    Three variables: [1] is decided on level one, [2] on level two, and
    [3] is implied on level two by clause [10], which is [-1 -2 3].  The
    clause [11], which is [-2 -3], is falsified. *)
Module Scenario.
Definition active_flags : Flags.t := Flags.mk false false false false ACTIVE.

Definition identity_minimizer : Minimizer := λ s, Done s.

Definition conflict_on_level_two : Internal := {|
  unsat := false; iterating := false; level := 2;
  vals := list_to_map [(1, 1); (2, 1); (3, 1)];
  vtab := list_to_map [(1, Var.mk 1 0 None); (2, Var.mk 2 1 None);
                       (3, Var.mk 2 2 (Some 10))];
  ftab := list_to_map [(1, active_flags); (2, active_flags);
                       (3, active_flags)];
  btab := list_to_map [(1, 1); (2, 2); (3, 3)];
  ltab := list_to_map [(1, Link.mk 0 2); (2, Link.mk 1 3); (3, Link.mk 2 0)];
  queue := Queue.mk 1 3 3 3;
  control := ∅;
  trail := [1; 2; 3];
  clause := []; analyzed := []; levels := []; resolved := [];
  conflict := Some 11;
  clauses := list_to_map
    [(10, Clause.mk true false false true 5 2 [-1; -2; 3]);
     (11, Clause.mk false false false false 0 0 [-2; -3])];
  proof := Some [];
  stats := Stats.mk 3 0 0 7 0 0 0 0 10 2;
  opts := Opts.mk true (inject_Z 200) (inject_Z 40) true;
  averages := Averages.mk [] [] [] []
|}.

(** The same clause falsified before any decision. *)
Definition conflict_without_decision : Internal :=
  set_level 0 conflict_on_level_two.

(** A conflict that yields a unit: [3] is fixed, [1] is decided on level
    one and implies [2] by clause [10], which is [-1 2]; the clause
    [11], which is [-1 -2], is falsified. *)
Definition unit_conflict : Internal := {|
  unsat := false; iterating := false; level := 1;
  vals := list_to_map [(1, 1); (2, 1); (3, 1)];
  vtab := list_to_map [(3, Var.mk 0 0 None); (1, Var.mk 1 1 None);
                       (2, Var.mk 1 2 (Some 10))];
  ftab := list_to_map [(1, active_flags); (2, active_flags);
                       (3, Flags.mk false false false false FIXED)];
  btab := list_to_map [(1, 1); (2, 2); (3, 3)];
  ltab := list_to_map [(1, Link.mk 0 2); (2, Link.mk 1 3); (3, Link.mk 2 0)];
  queue := Queue.mk 1 3 3 3;
  control := ∅;
  trail := [3; 1; 2];
  clause := []; analyzed := []; levels := []; resolved := [];
  conflict := Some 11;
  clauses := list_to_map
    [(10, Clause.mk false false false false 0 0 [-1; 2]);
     (11, Clause.mk false false false false 0 0 [-1; -2])];
  proof := Some [];
  stats := Stats.mk 3 0 0 7 0 0 0 1 10 1;
  opts := Opts.mk true (inject_Z 200) (inject_Z 40) true;
  averages := Averages.mk [] [] [] []
|}.

(** An irredundant clause that took part in hyper binary resolution,
    in an otherwise empty clause store. *)
Definition irredundant_hbr_clause : Internal :=
  set_clauses {[ 12 := Clause.mk false true false true 0 1 [1; 2] ]}
              conflict_on_level_two.
End Scenario.

(** The key of the trail-weighted order: prior stamp plus trail
    position. *)
Definition trail_bump_key (s : Internal) (lit : Z) : Z :=
  bumped s lit + Var.trail (var s lit).

(** ** Well-formed conflicts

    What the search loop guarantees when it hands a conflict to the
    analysis, in terms of the state on entry. *)

Definition lvl (s : Internal) (lit : Z) : Z := Var.level (var s lit).

(** The parts of the state that the resolution walk never writes. *)
Definition untouched_by_walk (s : Internal) :=
  (unsat s, iterating s, level s, vals s, vtab s, btab s, ltab s, queue s,
   trail s, conflict s, proof s, stats s, opts s, averages s).

Record well_formed (s : Internal) : Prop := {
  (* a decision is active *)
  wf_level : 0 < level s;
  (* the trail holds each variable at most once; its entries are true,
     know their position, and their levels lie between 0 and the current
     level and never decrease along the trail *)
  wf_trail_nodup : NoDup (vidx <$> trail s);
  wf_trail_entry : ∀ (i : nat) (lit : Z), trail s !! i = Some lit →
    lit ≠ 0 ∧ val s lit = 1
    ∧ Var.trail (var s lit) = Z.of_nat i
    ∧ 0 ≤ lvl s lit ≤ level s;
  wf_trail_levels : ∀ (i j : nat) (a b : Z), (i ≤ j)%nat →
    trail s !! i = Some a → trail s !! j = Some b → lvl s a ≤ lvl s b;
  (* the conflicting clause is falsified by the trail, which holds the
     negation of each of its literals, and has a literal of the current
     level *)
  wf_conflict : ∃ c, conflict s = Some c
    ∧ Forall (λ lit, lit ≠ 0 ∧ - lit ∈ trail s)
             (Clause.literals (clauses s !!! c))
    ∧ Exists (λ lit, lvl s lit = level s) (Clause.literals (clauses s !!! c));
  (* an implied literal of the current level has a reason whose other
     literals are falsified by earlier trail entries; a decision is the
     first literal of its level *)
  wf_reasons : ∀ (i : nat) (lit : Z), trail s !! i = Some lit →
    lvl s lit = level s →
    match Var.reason (var s lit) with
    | Some r =>
        Forall (λ other, other ≠ lit →
                  other ≠ 0
                  ∧ ∃ p : nat, (p < i)%nat ∧ trail s !! p = Some (- other))
               (Clause.literals (clauses s !!! r))
    | None =>
        ∀ (j : nat) (other : Z), (j < i)%nat → trail s !! j = Some other →
          lvl s other < level s
    end;
  (* a clause is the reason of at most one literal, and the conflicting
     clause of none *)
  wf_reason_inj : ∀ (i j : nat) (a b : Z) (r : Z),
    trail s !! i = Some a → trail s !! j = Some b →
    Var.reason (var s a) = Some r → Var.reason (var s b) = Some r → i = j;
  wf_conflict_no_reason : ∀ (i : nat) (a : Z), trail s !! i = Some a →
    Var.reason (var s a) ≠ conflict s;
  (* assigned variables above level 0 are active *)
  wf_active : ∀ (i : nat) (lit : Z), trail s !! i = Some lit →
    0 < lvl s lit → Flags.status (flags s lit) = ACTIVE
}.

(** The scratch state between two conflicts: no flag of the analysis is
    set, the level records are reset and the buffers are empty. *)
Record scratch_clean (s : Internal) : Prop := {
  clean_flags : ∀ x, Flags.seen (ftab s !!! x) = false
    ∧ Flags.keep (ftab s !!! x) = false
    ∧ Flags.poison (ftab s !!! x) = false
    ∧ Flags.removable (ftab s !!! x) = false;
  clean_control : ∀ l, control s !!! l = Level.reset;
  clean_clause : clause s = [];
  clean_analyzed : analyzed s = [];
  clean_levels : levels s = [];
  clean_resolved : resolved s = []
}.

(** The seen literals of the current level among the first [i] trail
    entries: those that are still to be resolved. *)
Definition pending (s : Internal) (i : nat) : list Z :=
  filter (λ lit, Flags.seen (flags s lit) = true ∧ lvl s lit = level s)
         (take i (trail s)).

(** The state in which [analyze_literal] leaves a literal that it has not
    seen before and that is not fixed. *)
Definition mark_analyzed (lit : Z) (s : Internal) : Internal :=
  let v := var s lit in
  let l := control s !!! Var.level v in
  set_analyzed (analyzed s ++ [lit])
    (set_ftab (<[vidx lit := Flags.set_seen true (flags s lit)]> (ftab s))
       (set_control
          (<[Var.level v :=
               Level.mk (Level.seen l + 1)
                        (if Var.trail v <? Level.trail l
                         then Var.trail v else Level.trail l)]> (control s))
          (set_levels (if Level.seen l =? 0
                       then levels s ++ [Var.level v] else levels s)
             (set_clause (if Var.level v <? level s
                          then clause s ++ [lit] else clause s) s)))).

(** What the walk maintains, relative to the well-formed state [s0] it
    started from, with [i] trail entries still ahead of the cursor. *)
Record walk_invariant (s0 s : Internal) (i : nat) : Prop := {
  inv_core : untouched_by_walk s = untouched_by_walk s0;
  inv_clauses : ∀ c,
    Clause.set_used false (clauses s !!! c)
    = Clause.set_used false (clauses s0 !!! c);
  inv_cursor : (i ≤ length (trail s0))%nat;
  inv_analyzed : ∀ lit, lit ∈ analyzed s →
    lit ≠ 0 ∧ val s0 lit < 0 ∧ 0 < lvl s0 lit ∧ - lit ∈ trail s0;
  inv_nodup : NoDup (vidx <$> analyzed s);
  inv_seen : ∀ x,
    Flags.seen (ftab s !!! x) = true ↔ x ∈ vidx <$> analyzed s;
  inv_flags : ∀ x,
    Flags.set_seen false (ftab s !!! x) = Flags.set_seen false (ftab s0 !!! x);
  inv_clause :
    clause s = filter (λ lit, lvl s0 lit < level s0) (analyzed s);
  inv_levels : ∀ l,
    0 ≤ Level.seen (control s !!! l)
    ∧ (0 < Level.seen (control s !!! l) ↔ l ∈ levels s)
    ∧ (l ∉ levels s → control s !!! l = Level.reset);
  inv_resolved_ok : ∀ c, c ∈ resolved s →
    Clause.have_analyzed (clauses s0 !!! c) = true
    ∧ Clause.redundant (clauses s0 !!! c) = true
}.

(** The clauses consulted by the walk so far: the conflicting clause and
    the reasons of trail entries at or behind position [i]. *)
Definition consulted (s0 : Internal) (i : nat) (c : Z) : Prop :=
  conflict s0 = Some c
  ∨ ∃ (k : nat) (a : Z), (i ≤ k)%nat ∧ trail s0 !! k = Some a
      ∧ Var.reason (var s0 a) = Some c.

(** The parts of the state that are written neither by the statistics
    updates, nor by the minimizer, nor by the bumps of variables. *)
Definition untouched_by_update (s : Internal) :=
  (unsat s, iterating s, level s, vals s, vtab s, ftab s, control s, trail s,
   levels s, resolved s, conflict s, clauses s, proof s, opts s,
   Stats.analyzed (stats s), Stats.fixed (stats s),
   Averages.jump_avg (averages s)).

(** The parts of the state that the clean up leaves alone. *)
Definition untouched_by_cleanup (s : Internal) :=
  (unsat s, iterating s, level s, vals s, vtab s, btab s, ltab s, queue s,
   trail s, resolved s, clauses s, proof s, stats s, opts s, averages s).

(** What the clean up relies on: the seen flags are exactly those of the
    analyzed batch, which holds no variable twice, no other flag of the
    analysis is set, and the level records outside the list of levels
    are reset. *)
Record cleanup_ready (s : Internal) : Prop := {
  ready_nodup : NoDup (vidx <$> analyzed s);
  ready_seen : ∀ x,
    Flags.seen (ftab s !!! x) = true ↔ x ∈ vidx <$> analyzed s;
  ready_flags : ∀ x,
    Flags.keep (ftab s !!! x) = false
    ∧ Flags.poison (ftab s !!! x) = false
    ∧ Flags.removable (ftab s !!! x) = false;
  ready_control : ∀ l, l ∉ levels s → control s !!! l = Level.reset
}.

(** What [clear_seen] asserts of a member of the analyzed batch. *)
Definition flags_as_asserted (s : Internal) (lit : Z) : Prop :=
  Flags.seen (flags s lit) = true
  ∧ Flags.keep (flags s lit) = false
  ∧ Flags.poison (flags s lit) = false
  ∧ Flags.removable (flags s lit) = false.

(** The learned clause after minimization, with the first UIP and the
    glue, as [analyze] computes them before it determines the jump
    level. *)
Definition learned_clause {M : Minimizer} (s : Internal)
    : option (list Z * Z * Z) :=
  match
    '(s1, uip) ← analyze_derive s;
    s2 ← bump_resolved_clauses s1;
    '(s3, glue, _) ← analyze_update s2;
    Done (clause s3, uip, glue)
  with
  | Done r => Some r
  | Abort _ => None
  end.

(** The parts of the state that are as on entry when [analyze] comes to
    determine the jump level. *)
Definition untouched_before_backjump (s : Internal) :=
  (unsat s, iterating s, level s, vals s, vtab s, trail s, conflict s,
   proof s, opts s, Stats.fixed (stats s), Averages.jump_avg (averages s)).

(** The reading of the specification under which a clause that took
    part in hyper binary resolution is marked as used whatever else holds
    of it. *)
Definition used_whenever_hbr (c : Z) (s : Internal) : Prop :=
  Clause.hbr (clauses s !!! c) = true →
  Clause.used (clauses (save_as_resolved_clause c s) !!! c) = true.

(** ** Further notions used by the properties of the code *)

(** What [std::sort] asks of a comparison functor: a strict weak
    ordering.  The functor is irreflexive and transitive, and so is the
    relation of two elements neither of which is less than the other. *)
Record strict_weak_order {A} (less : A → A → bool) : Prop := {
  swo_irreflexive : ∀ a, less a a = false;
  swo_transitive : ∀ a b c,
    less a b = true → less b c = true → less a c = true;
  swo_equivalent : ∀ a b c,
    less a b = false → less b a = false →
    less b c = false → less c b = false →
    less a c = false ∧ less c a = false
}.

(** The functor of the sort in [bump_variables], and the key that
    separates the literals of a batch under it: the trail position when
    the trail is taken into account, the stamp otherwise. *)
Definition batch_functor (s : Internal) : Z → Z → bool :=
  if trail_bump_policy s then trail_bumped_smaller s else bumped_earlier s.

Definition batch_key (s : Internal) (lit : Z) : Z :=
  if trail_bump_policy s then Var.trail (var s lit) else bumped s lit.

(** A batch of literals of one shape, for the examples. *)
Definition analyzed_batch : Internal :=
  set_analyzed [3; -1; 2] Scenario.conflict_on_level_two.

(** The queue is ordered by stamp: stamps grow strictly from the [first]
    anchor to the [last] one, and none is ahead of the bump counter. *)
Definition stamps_sorted (s : Internal) (l : list Z) : Prop :=
  StronglySorted (λ a b, btab s !!! a < btab s !!! b) l
  ∧ Forall (λ x, btab s !!! x ≤ Stats.bumped (stats s)) l.

(** The cursor to the first unassigned variable stands in the queue, and
    every variable between it and the front is assigned: the search for
    the next decision may start at the cursor. *)
Definition cursor_ok (s : Internal) (l : list Z) : Prop :=
  ∃ l1 l2, l = l1 ++ Queue.unassigned (queue s) :: l2
    ∧ Forall (λ x, vals s !!! x ≠ 0) l2.

(** A batch of two literals on the conflict of the scenario. *)
Definition two_analyzed : Internal :=
  set_analyzed [2; -1] Scenario.conflict_on_level_two.

(** Two clauses with a time stamp slot in the batch of resolved clauses,
    the one stamped later first. *)
Definition two_resolved : Internal :=
  set_resolved [13; 10]
    (set_clauses (<[13 := Clause.mk true false false true 6 3 [1; 2; 3]]>
                    (clauses Scenario.conflict_on_level_two))
                 Scenario.conflict_on_level_two).

(** What the derivation of the first UIP clause leaves of a state [s] in
    a later state [s']: everything but the scratch data of the analysis
    (clause buffer, analyzed batch, level records and list of levels,
    batch of resolved clauses), the seen flags, which are only ever set,
    and the used marks of clauses, which are only ever set as well. *)
Definition walk_frame (s s' : Internal) : Prop :=
  untouched_by_walk s' = untouched_by_walk s
  ∧ (∀ c, Clause.set_used false (clauses s' !!! c)
          = Clause.set_used false (clauses s !!! c))
  ∧ (∀ c, Clause.used (clauses s !!! c) = true →
          Clause.used (clauses s' !!! c) = true)
  ∧ (∀ x, Flags.set_seen false (ftab s' !!! x)
          = Flags.set_seen false (ftab s !!! x))
  ∧ (∀ x, Flags.seen (ftab s !!! x) = true →
          Flags.seen (ftab s' !!! x) = true).

(** The level records reflect the batch of analyzed literals: the record
    of a level counts the analyzed literals of that level and holds the
    lowest trail position among them, and the list of levels holds each
    level that has an analyzed literal, once. *)
Definition level_records (s : Internal) : Prop :=
  NoDup (levels s)
  ∧ ∀ l,
      Level.seen (control s !!! l)
      = Z.of_nat (length (filter (λ a, lvl s a = l) (analyzed s)))
      ∧ Level.trail (control s !!! l)
        = foldr Z.min INT_MAX
            ((λ a, Var.trail (var s a))
               <$> filter (λ a, lvl s a = l) (analyzed s))
      ∧ (l ∈ levels s ↔ filter (λ a, lvl s a = l) (analyzed s) ≠ []).

(** A minimizer that always fails. *)
Definition failing_minimizer : Minimizer := λ _, Abort AssertionFailed.

(** The counters and averages that speak of the learned clause. *)
Definition learned_statistics (s : Internal) :=
  (Stats.learned (stats s), Stats.units (stats s), Stats.binaries (stats s),
   Averages.fast_glue_avg (averages s), Averages.slow_glue_avg (averages s),
   Averages.size_avg (averages s)).

(** The clauses from which the first UIP clause is derived, seen from the
    state [s] in which the walk has arrived at position [j] of the trail
    of [s0]: the conflicting clause and the reasons of the literals that
    were resolved away, which are the seen literals above position
    [j]. *)
Definition antecedent (s0 s : Internal) (j : nat) (c : Z) : Prop :=
  conflict s0 = Some c
  ∨ ∃ (k : nat) (a : Z), (j < k)%nat ∧ trail s0 !! k = Some a
      ∧ Flags.seen (flags s a) = true ∧ Var.reason (var s0 a) = Some c.

(** [processed s0 s P]: of the clauses as they were in [s0], the redundant
    ones in [P] with a slot for the stamp make up the batch of resolved
    clauses of [s], and the used mark has been set on the redundant ones
    in [P] that took part in hyper binary resolution, and on no other
    clause. *)
Definition processed (s0 s : Internal) (P : Z → Prop) : Prop :=
  (∀ c, c ∈ resolved s ↔
        P c ∧ Clause.redundant (clauses s0 !!! c) = true
        ∧ Clause.have_analyzed (clauses s0 !!! c) = true)
  ∧ (∀ c, Clause.used (clauses s !!! c) = true ↔
          Clause.used (clauses s0 !!! c) = true
          ∨ P c ∧ Clause.redundant (clauses s0 !!! c) = true
            ∧ Clause.hbr (clauses s0 !!! c) = true).

(** The clauses with which the walk has resolved before it turns to the
    reason [r] at position [i]: the conflicting clause and the reasons
    of the seen literals from position [i] on, [r] excepted. *)
Definition resolved_so_far (s0 s : Internal) (i : nat) (r c : Z) : Prop :=
  c ≠ r
  ∧ (conflict s0 = Some c
     ∨ ∃ (k : nat) (a : Z), (i ≤ k)%nat ∧ trail s0 !! k = Some a
         ∧ Flags.seen (flags s a) = true ∧ Var.reason (var s0 a) = Some c).

(** ** Truth under an assignment

    An assignment gives every variable a truth value.  A literal is true
    under it according to its sign, and a clause is true when one of its
    literals is. *)
Definition sat_lit (σ : Z → bool) (lit : Z) : bool :=
  if lit <? 0 then negb (σ (vidx lit)) else σ (vidx lit).

Definition sat_clause (σ : Z → bool) (lits : list Z) : Prop :=
  ∃ lit, lit ∈ lits ∧ lit ≠ 0 ∧ sat_lit σ lit = true.

(** An assignment respects the state when it makes the conflicting
    clause true, and every clause that is the reason of a trail entry,
    and every trail entry of level 0. *)
Definition respects (σ : Z → bool) (s : Internal) : Prop :=
  (∀ c, conflict s = Some c → sat_clause σ (Clause.literals (clauses s !!! c)))
  ∧ (∀ (k : nat) (a c : Z), trail s !! k = Some a →
       Var.reason (var s a) = Some c →
       sat_clause σ (Clause.literals (clauses s !!! c)))
  ∧ (∀ (k : nat) (a : Z), trail s !! k = Some a → lvl s a = 0 →
       sat_lit σ a = true).

(** The resolvent that the walk has arrived at with [i] trail entries
    ahead: the literals of the clause buffer and the negations of the
    literals that are still to be resolved. *)
Definition resolvent_true (σ : Z → bool) (s : Internal) (i : nat) : Prop :=
  sat_clause σ (clause s)
  ∨ ∃ b, b ∈ pending s i ∧ sat_lit σ (- b) = true.

(** An assignment that undoes the second decision of the scenario. *)
Definition first_only : Z → bool := λ x, bool_decide (x = 1).

(** ** The literals that the resolution reaches

    [reached s i lit]: the literal [lit] is met when the conflicting
    clause of [s] is resolved with the reasons of the trail entries at
    positions [i] and above, as far as they are met themselves.  These
    are the literals of the conflicting clause and, for every literal
    that is met and whose negation stands on the trail at a position from
    [i] on, the other literals of the reason of that trail entry.
    Literals of level 0 are not counted. *)
Inductive reached (s : Internal) (i : nat) : Z → Prop :=
  | reached_conflict (c lit : Z) :
      conflict s = Some c →
      lit ∈ Clause.literals (clauses s !!! c) →
      lvl s lit ≠ 0 →
      reached s i lit
  | reached_reason (b : Z) (k : nat) (r lit : Z) :
      reached s i b →
      (i ≤ k)%nat → trail s !! k = Some (- b) →
      Var.reason (var s (- b)) = Some r →
      lit ∈ Clause.literals (clauses s !!! r) → lit ≠ - b →
      lvl s lit ≠ 0 →
      reached s i lit.

(** * Properties *)

(** ** Outcomes *)

Lemma bind_Done {A B} (m : outcome A) (k : A → outcome B) (b : B) :
  m ≫= k = Done b → ∃ a, m = Done a ∧ k a = Done b.
Proof. destruct m as [a|]; [eauto | discriminate]. Qed.

Lemma assert_Done (b : bool) (u : unit) : assert_ b = Done u → b = true.
Proof. by destruct b. Qed.

Lemma assert_true (b : bool) : b = true → assert_ b = Done tt.
Proof. by intros ->. Qed.

(** ** Conflicts without decision *)

(** C2: a conflict found while no decision is active makes [analyze]
    record the empty clause in the proof trace, if one is attached, set
    the [unsat] flag and return; no other part of the solver state is
    touched, so neither the resolution walk nor bumping nor backtracking
    has run.  The flag is not yet set on entry, as [learn_empty_clause]
    asserts. *)
Theorem analyze_without_decision (M : Minimizer) (s : Internal) :
  is_Some (conflict s) → level s = 0 → unsat s = false →
  ∃ s', analyze s = Done s'
    ∧ unsat s' = true
    ∧ proof s' = (λ lines, lines ++ [trace_empty_clause]) <$> proof s
    ∧ s' = set_unsat true (set_proof (proof s') s).
Proof.
  intros Hc Hl Hu. unfold analyze, learn_empty_clause.
  rewrite (assert_true _ (bool_decide_eq_true_2 _ Hc)). cbn.
  rewrite Hl, Hu. cbn. eexists. split; [reflexivity|].
  unfold trace. destruct s as [? ? ? ? ? ? ? ? ? ? ? ? ? ? ? ? ? pr ? ? ?].
  cbn in *. by destruct pr.
Qed.

(** ** The queue as a list *)

Section Linked.
Implicit Types (lt : gmap Z Link.t) (l : list Z).

Lemma linked_app lt p l1 l2 n :
  linked lt p (l1 ++ l2) n ↔
  linked lt p l1 (default n (head l2)) ∧ linked lt (default p (last l1)) l2 n.
Proof.
  revert p. induction l1 as [|x l1 IH]; intros p; cbn.
  - tauto.
  - rewrite IH. destruct l1 as [|y l1]; cbn.
    + tauto.
    + assert (default x (last (y :: l1)) = default p (last (y :: l1))) as ->.
      { destruct (last (y :: l1)) eqn:E; [done|]. by apply last_None in E. }
      tauto.
Qed.

Lemma linked_frame lt p l n x v :
  x ∉ l → linked (<[x := v]> lt) p l n ↔ linked lt p l n.
Proof.
  revert p. induction l as [|y l IH]; intros p Hx; cbn; [done|].
  apply not_elem_of_cons in Hx as [Hxy Hx].
  rewrite lookup_total_insert_ne, IH by done. done.
Qed.

Lemma linked_not_null lt p l n : linked lt p l n → 0 ∉ l.
Proof.
  revert p. induction l as [|y l IH]; intros p; cbn.
  - intros _. apply not_elem_of_nil.
  - intros (? & _ & H). apply not_elem_of_cons. split; [done | eauto].
Qed.

(** Redirecting the forward link of the last entry. *)
Lemma linked_set_next lt p l x n n' :
  NoDup (l ++ [x]) → linked lt p (l ++ [x]) n →
  linked (<[x := Link.mk (Link.prev (lt !!! x)) n']> lt) p (l ++ [x]) n'.
Proof.
  intros Hnd. apply NoDup_app in Hnd as (_ & Hx & _).
  rewrite !linked_app. cbn. intros [H1 (Hx0 & Hlx & _)]. split.
  - apply linked_frame; [|done]. intros ?. by eapply Hx, list_elem_of_here.
  - rewrite lookup_total_insert_eq, Hlx. done.
Qed.

(** Redirecting the backward link of the first entry. *)
Lemma linked_set_prev lt p l x n p' :
  NoDup (x :: l) → linked lt p (x :: l) n →
  linked (<[x := Link.mk p' (Link.next (lt !!! x))]> lt) p' (x :: l) n.
Proof.
  intros Hnd. apply NoDup_cons in Hnd as [Hx _].
  cbn. intros (Hx0 & Hlx & H). split_and!; [done| |].
  - rewrite lookup_total_insert_eq, Hlx. done.
  - by apply linked_frame.
Qed.
End Linked.

Section LinkedUpdates.
Implicit Types (lt : gmap Z Link.t) (l : list Z).

(** The conditional form in which [dequeue] and [enqueue] redirect the
    forward link of a possibly missing last entry. *)
Lemma linked_redirect_last lt p l n n' :
  NoDup l → linked lt p l n →
  linked (if last_or_null l =? 0 then lt
          else <[last_or_null l :=
                   Link.mk (Link.prev (lt !!! last_or_null l)) n']> lt)
         p l n'.
Proof.
  intros Hnd Hl. unfold last_or_null.
  destruct (last l) as [x|] eqn:E; cbn.
  - apply last_Some in E as [l' ->].
    assert (x ≠ 0) as Hx.
    { intros ->. apply (linked_not_null lt p (l' ++ [0]) n Hl).
      apply elem_of_app. right. apply list_elem_of_here. }
    apply Z.eqb_neq in Hx as ->. by apply (linked_set_next lt p l' x n n').
  - apply last_None in E as ->. done.
Qed.

Lemma last_or_null_elem_of l :
  last_or_null l ≠ 0 → last_or_null l ∈ l.
Proof.
  unfold last_or_null. destruct (last l) as [x|] eqn:E; cbn; [|done].
  intros _. by apply last_Some_elem_of.
Qed.

Lemma last_or_null_not_null lt p l n x :
  linked lt p l n → last l = Some x → x ≠ 0.
Proof.
  intros Hl E ->. apply (linked_not_null lt p l n Hl).
  by apply last_Some_elem_of.
Qed.
End LinkedUpdates.

(** Moving a variable that has a successor: the order changes from
    [l1 ++ x :: y :: l2] to [l1 ++ y :: l2 ++ [x]]. *)
Lemma move_to_front_linked (lt : gmap Z Link.t) (q : Queue.t) (x y : Z)
    (l1 l2 : list Z) :
  NoDup (l1 ++ x :: y :: l2) →
  linked lt 0 (l1 ++ x :: y :: l2) 0 →
  Queue.first q = first_or_null (l1 ++ x :: y :: l2) →
  Queue.last q = last_or_null (l1 ++ x :: y :: l2) →
  let '(lt1, q1) := Queue.dequeue lt x q in
  let '(lt2, q2) := Queue.enqueue lt1 x q1 in
  linked lt2 0 (l1 ++ y :: l2 ++ [x]) 0
  ∧ Queue.first q2 = first_or_null (l1 ++ y :: l2 ++ [x])
  ∧ Queue.last q2 = x
  ∧ Queue.unassigned q2 = Queue.unassigned q
  ∧ Queue.bumped q2 = Queue.bumped q.
Proof.
  intros Hnd Hl Hf Hla.
  pose proof Hl as Hl0.
  apply linked_app in Hl as [Hl1 Hl2]. cbn in Hl1, Hl2.
  destruct Hl2 as (Hx0 & Hx & Hy0 & Hy & Hl2).
  apply NoDup_app in Hnd as (Hnd1 & Hd1 & Hnd2).
  apply NoDup_cons in Hnd2 as [Hx2 Hnd2].
  assert (last_or_null (l1 ++ x :: y :: l2) = last_or_null (y :: l2)) as Hlast.
  { unfold last_or_null. by rewrite last_app_cons, last_cons_cons. }
  assert (last_or_null (y :: l2) ≠ 0) as Hlast0.
  { unfold last_or_null.
    destruct (last (y :: l2)) as [z|] eqn:E; [|by apply last_None in E].
    cbn. eapply (last_or_null_not_null lt x (y :: l2) 0); [|done].
    cbn. done. }
  assert (last_or_null (y :: l2) ≠ x) as Hlastx.
  { unfold last_or_null.
    destruct (last (y :: l2)) as [z|] eqn:E; [|by apply last_None in E].
    cbn. intros ->. by apply Hx2, last_Some_elem_of. }
  unfold Queue.dequeue, Queue.enqueue. rewrite Hx. cbn.
  apply Z.eqb_neq in Hy0 as Hy0b. rewrite Hy0b.
  rewrite Hla, Hlast. rewrite (proj2 (Z.eqb_neq _ _) Hlast0).
  set (lt1 := if default 0 (last l1) =? 0 then lt else _).
  set (lt2 := <[y := _]> lt1).
  set (lt3 := <[last_or_null (y :: l2) := _]> lt2).
  (* after unlinking *)
  assert (linked lt1 0 l1 y) as Hl1'.
  { by apply (linked_redirect_last lt 0 l1 x y). }
  assert (linked lt1 x (y :: l2) 0) as Hl2'.
  { subst lt1. fold (last_or_null l1).
    destruct (last_or_null l1 =? 0) eqn:E; [by cbn|].
    apply Z.eqb_neq, last_or_null_elem_of in E.
    apply linked_frame; [|by cbn].
    intros Hz. apply (Hd1 _ E). by apply list_elem_of_further. }
  assert (linked lt2 0 (l1 ++ y :: l2) 0) as Hl12.
  { apply linked_app. cbn [head default]. split.
    - apply linked_frame; [|done]. intros Hyl.
      apply (Hd1 y Hyl). apply list_elem_of_further, list_elem_of_here.
    - pose proof (linked_set_prev lt1 x l2 y 0 (default 0 (last l1)) Hnd2 Hl2')
        as H.
      subst lt2. exact H. }
  (* after relinking *)
  assert (NoDup (l1 ++ y :: l2)) as Hnd12.
  { apply NoDup_app. split_and!; [done| |done].
    intros z Hz1 Hz2. apply (Hd1 z Hz1). by apply list_elem_of_further. }
  assert (last_or_null (l1 ++ y :: l2) = last_or_null (y :: l2)) as Hlast'.
  { unfold last_or_null. by rewrite last_app_cons. }
  assert (linked lt3 0 (l1 ++ y :: l2) x) as Hl3.
  { pose proof (linked_redirect_last lt2 0 (l1 ++ y :: l2) 0 x Hnd12 Hl12) as H.
    rewrite Hlast' in H. by rewrite (proj2 (Z.eqb_neq _ _) Hlast0) in H. }
  split_and!; try done.
  - replace (l1 ++ y :: l2 ++ [x]) with ((l1 ++ y :: l2) ++ [x])
      by (by rewrite <- app_assoc).
    apply linked_app. cbn [head default]. split.
    + apply linked_frame; [|done]. intros Hx'.
      apply elem_of_app in Hx' as [Hx'|Hx'].
      * apply (Hd1 x Hx'), list_elem_of_here.
      * done.
    + cbn. split_and!; [done| |done].
      rewrite lookup_total_insert_eq. f_equal.
      symmetry. exact Hlast'.
  - rewrite Hf. unfold first_or_null.
    destruct l1 as [|z l1]; cbn; [done|].
    destruct (last (z :: l1)) as [w|] eqn:E; [|by apply last_None in E].
    cbn. by rewrite (proj2 (Z.eqb_neq _ _)
                       (last_or_null_not_null lt 0 (z :: l1) x w Hl1 E)).
Qed.

(** ** Bumping a variable *)

Lemma bump_variable_front (s : Internal) (lit : Z) (l : list Z) :
  queue_order s (l ++ [vidx lit]) → bump_variable lit s = s.
Proof.
  intros (_ & Hl & _). apply linked_app in Hl as [_ Hl]. cbn in Hl.
  destruct Hl as (_ & Hx & _). unfold bump_variable. by rewrite Hx.
Qed.

Lemma bump_variable_moves (s : Internal) (lit y : Z) (l1 l2 : list Z) :
  queue_order s (l1 ++ vidx lit :: y :: l2) →
  queue_order (bump_variable lit s) (l1 ++ y :: l2 ++ [vidx lit])
  ∧ bump_effects lit s (bump_variable lit s).
Proof.
  intros (Hnd & Hl & Hf & Hla).
  pose proof (move_to_front_linked _ _ _ _ _ _ Hnd Hl Hf Hla) as Hm.
  pose proof Hl as Hl'. apply linked_app in Hl' as [_ Hl']. cbn in Hl'.
  destruct Hl' as (_ & Hx & Hy0 & _).
  unfold bump_variable. rewrite Hx. cbn [Link.next].
  rewrite (proj2 (Z.eqb_neq _ _) Hy0).
  destruct (Queue.dequeue (ltab s) (vidx lit) (queue s)) as [lt1 q1].
  destruct (Queue.enqueue lt1 (vidx lit) q1) as [lt2 q2].
  destruct Hm as (Hl2 & Hf2 & Hla2 & Hu2 & Hb2).
  assert (NoDup (l1 ++ y :: l2 ++ [vidx lit])) as Hnd'.
  { assert (l1 ++ vidx lit :: y :: l2 ≡ₚ l1 ++ y :: l2 ++ [vidx lit]) as Hp.
    { apply Permutation_app_head.
      change (y :: l2 ++ [vidx lit]) with ((y :: l2) ++ [vidx lit]).
      apply Permutation_cons_append. }
    by rewrite <- Hp. }
  assert (last_or_null (l1 ++ y :: l2 ++ [vidx lit]) = vidx lit) as Hlast.
  { unfold last_or_null.
    replace (l1 ++ y :: l2 ++ [vidx lit])
      with ((l1 ++ y :: l2) ++ [vidx lit]) by (by rewrite <- app_assoc).
    by rewrite last_snoc. }
  assert (vidx (vidx lit) = vidx lit) as Hvv by (unfold vidx; lia).
  unfold bump_effects, queue_order, update_queue_unassigned.
  match goal with
  | |- context [Var.level ?v =? ?l] => destruct (Var.level v =? l) eqn:Hlv
  end;
  match goal with
  | |- context [?a !!! ?i =? 0] => destruct (a !!! i =? 0) eqn:Hv
  end;
  unfold var in *; cbn in *; rewrite ?Hvv in *;
  rewrite ?lookup_total_insert_eq, ?Hlast, ?Hlv;
  split_and!; try done; try lia;
  try (intros Hv0; by rewrite Hv0 in Hv).
Qed.

(** C7, as stated, fails for the variable at the front of the queue: in
    the scenario variable [3] has no successor, the bump returns at once
    and no fresh stamp is given. *)
Lemma bump_variable_skips_front :
  queue_order Scenario.conflict_on_level_two [1; 2; 3]
  ∧ ¬ bump_effects 3 Scenario.conflict_on_level_two
        (bump_variable 3 Scenario.conflict_on_level_two).
Proof.
  split.
  - repeat split; try done. apply (bool_decide_unpack _). by vm_compute.
  - intros [H _]. vm_compute in H. discriminate.
Qed.

(** C7, amended: a bump of a variable that is not at the front of the
    queue unlinks it and relinks it at the front, gives it the freshly
    incremented bump counter as stamp, counts it as bumped on the last
    level when its level is the current one, and moves the cursor to the
    first unassigned variable onto it when it is unassigned.  A variable
    without successor is at the front already, and the bump leaves the
    whole state as it is. *)
Theorem bump_variable_spec (s : Internal) (lit : Z) (l1 l2 : list Z) :
  queue_order s (l1 ++ vidx lit :: l2) →
  (Link.next (ltab s !!! vidx lit) = 0 ↔ l2 = [])
  ∧ (l2 = [] → bump_variable lit s = s)
  ∧ (l2 ≠ [] →
       queue_order (bump_variable lit s) (l1 ++ l2 ++ [vidx lit])
       ∧ bump_effects lit s (bump_variable lit s)).
Proof.
  intros Hq. split_and!.
  - destruct Hq as (_ & Hl & _). apply linked_app in Hl as [_ Hl].
    cbn in Hl. destruct Hl as (_ & -> & Hl). cbn.
    destruct l2 as [|y l2]; cbn; [done|].
    destruct Hl as [Hy _]. split; [done | discriminate].
  - intros ->. by eapply bump_variable_front.
  - intros Hl2. destruct l2 as [|y l2]; [done|].
    by apply bump_variable_moves.
Qed.

Lemma bump_variable_spec_witness :
  (Link.next (ltab Scenario.conflict_on_level_two !!! vidx 1) = 0 ↔ [2; 3] = [])
  ∧ ([2; 3] = [] →
       bump_variable 1 Scenario.conflict_on_level_two
       = Scenario.conflict_on_level_two)
  ∧ ([2; 3] ≠ [] →
       queue_order (bump_variable 1 Scenario.conflict_on_level_two)
                   ([] ++ [2; 3] ++ [vidx 1])
       ∧ bump_effects 1 Scenario.conflict_on_level_two
           (bump_variable 1 Scenario.conflict_on_level_two)).
Proof.
  apply (bump_variable_spec Scenario.conflict_on_level_two 1 [] [2; 3]).
  repeat split; try done. apply (bool_decide_unpack _). by vm_compute.
Defined.

(** C10: two bumps of one variable in a row keep the queue free of
    duplicates (its order stays a permutation of the former one), leave
    the variable at the front, and its stamp is the value of the bump
    counter. *)
Theorem bump_variable_twice (s : Internal) (lit : Z) (l : list Z) :
  queue_order s l → front_stamped s l → vidx lit ∈ l →
  ∃ l', queue_order (bump_variable lit (bump_variable lit s)) l'
    ∧ NoDup l' ∧ l' ≡ₚ l
    ∧ last l' = Some (vidx lit)
    ∧ btab (bump_variable lit (bump_variable lit s)) !!! vidx lit
      = Stats.bumped (stats (bump_variable lit (bump_variable lit s))).
Proof.
  intros Hq Hst Hin.
  apply list_elem_of_split in Hin as (l1 & l2 & ->).
  destruct l2 as [|y l2].
  - rewrite !(bump_variable_front s lit l1) by done.
    exists (l1 ++ [vidx lit]). split_and!; try done.
    + by destruct Hq.
    + apply last_snoc.
    + apply Hst, last_snoc.
  - destruct (bump_variable_moves s lit y l1 l2 Hq) as [Hq' He].
    replace (l1 ++ y :: l2 ++ [vidx lit])
      with ((l1 ++ y :: l2) ++ [vidx lit]) in Hq'
      by (by rewrite <- app_assoc).
    rewrite (bump_variable_front _ lit (l1 ++ y :: l2)) by done.
    exists ((l1 ++ y :: l2) ++ [vidx lit]). split_and!; try done.
    + by destruct Hq'.
    + rewrite <- app_assoc. apply Permutation_app_head.
      change (y :: l2 ++ [vidx lit]) with ((y :: l2) ++ [vidx lit]).
      symmetry. apply Permutation_cons_append.
    + apply last_snoc.
    + by destruct He as (_ & ? & _).
Qed.

Lemma bump_variable_twice_witness :
  ∃ l', queue_order (bump_variable 2 (bump_variable 2
                       Scenario.conflict_on_level_two)) l'
    ∧ NoDup l' ∧ l' ≡ₚ [1; 2; 3]
    ∧ last l' = Some (vidx 2)
    ∧ btab (bump_variable 2 (bump_variable 2
              Scenario.conflict_on_level_two)) !!! vidx 2
      = Stats.bumped (stats (bump_variable 2 (bump_variable 2
                               Scenario.conflict_on_level_two))).
Proof.
  apply (bump_variable_twice Scenario.conflict_on_level_two 2 [1; 2; 3]).
  - repeat split; try done. apply (bool_decide_unpack _). by vm_compute.
  - intros x [= <-]. reflexivity.
  - apply (bool_decide_unpack _). by vm_compute.
Defined.

(** ** Sorting *)

Section Sort.
Context {A : Type} (less : A → A → bool).

Lemma sort_insert_Permutation (x : A) (l : list A) :
  sort_insert less x l ≡ₚ x :: l.
Proof.
  induction l as [|y l IH]; cbn; [done|].
  destruct (less y x); [|done]. rewrite IH. apply Permutation_swap.
Qed.

Lemma sort_Permutation (l : list A) : sort less l ≡ₚ l.
Proof.
  induction l as [|x l IH]; cbn; [done|].
  fold (sort less l). by rewrite sort_insert_Permutation, IH.
Qed.

Hypothesis less_asym : ∀ a b, less a b = true → less b a = false.
Hypothesis not_after_trans : ∀ a b c,
  not_after less a b → not_after less b c → not_after less a c.

Lemma sort_insert_sorted (x : A) (l : list A) :
  StronglySorted (not_after less) l →
  StronglySorted (not_after less) (sort_insert less x l).
Proof.
  induction l as [|y l IH]; cbn; intros Hs.
  - by repeat constructor.
  - apply StronglySorted_inv in Hs as [Hs Hy].
    destruct (less y x) eqn:E.
    + constructor; [by apply IH|].
      rewrite sort_insert_Permutation. constructor; [|done].
      by apply less_asym.
    + constructor; [by constructor|].
      constructor; [done|].
      eapply Forall_impl; [exact Hy|].
      intros z Hz. by eapply not_after_trans.
Qed.

Lemma sort_sorted (l : list A) :
  StronglySorted (not_after less) (sort less l).
Proof.
  induction l as [|x l IH]; cbn; [constructor|].
  by apply sort_insert_sorted.
Qed.
End Sort.

Lemma StronglySorted_impl {A} (R1 R2 : relation A) (l : list A) :
  (∀ a b, R1 a b → R2 a b) → StronglySorted R1 l → StronglySorted R2 l.
Proof.
  intros HR. induction 1 as [|x l _ IH Hx]; constructor; [done|].
  eapply Forall_impl; [exact Hx | auto].
Qed.

Lemma sort_bumped_earlier (s : Internal) (l : list Z) :
  StronglySorted (λ a b, bumped s a ≤ bumped s b) (sort (bumped_earlier s) l).
Proof.
  eapply StronglySorted_impl; [|apply sort_sorted].
  - unfold not_after, bumped_earlier. intros a b. lia.
  - unfold bumped_earlier. intros a b. lia.
  - unfold not_after, bumped_earlier. intros a b c. lia.
Qed.

Lemma trail_bumped_smaller_false (s : Internal) (a b : Z) :
  trail_bumped_smaller s b a = false ↔
  trail_bump_key s a < trail_bump_key s b
  ∨ trail_bump_key s a = trail_bump_key s b
    ∧ Var.trail (var s a) ≤ Var.trail (var s b).
Proof.
  unfold trail_bumped_smaller, trail_bump_key.
  repeat case_match; lia.
Qed.

Lemma sort_trail_bumped_smaller (s : Internal) (l : list Z) :
  StronglySorted
    (λ a b, trail_bump_key s a < trail_bump_key s b
            ∨ trail_bump_key s a = trail_bump_key s b
              ∧ Var.trail (var s a) ≤ Var.trail (var s b))
    (sort (trail_bumped_smaller s) l).
Proof.
  eapply StronglySorted_impl; [|apply sort_sorted].
  - intros a b. apply trail_bumped_smaller_false.
  - intros a b H. apply trail_bumped_smaller_false.
    unfold trail_bumped_smaller, trail_bump_key in *.
    repeat case_match; lia.
  - unfold not_after. intros a b c.
    rewrite !trail_bumped_smaller_false. lia.
Qed.

(** ** Bumping the analyzed batch *)

Lemma bump_variable_analyzed (lit : Z) (s : Internal) :
  analyzed (bump_variable lit s) = analyzed s.
Proof.
  unfold bump_variable, update_queue_unassigned.
  repeat case_match; reflexivity.
Qed.

Lemma foldl_bump_variable_analyzed (l : list Z) (s : Internal) :
  analyzed (foldl (λ s lit, bump_variable lit s) s l) = analyzed s.
Proof.
  revert s. induction l as [|x l IH]; intros s; cbn; [done|].
  by rewrite IH, bump_variable_analyzed.
Qed.

Lemma Qgtb_true (x y : Q) : Qgtb x y = true ↔ (y < x)%Q.
Proof.
  unfold Qgtb. rewrite negb_true_iff, <- not_true_iff_false, Qle_bool_iff.
  split; [apply Qnot_le_lt | apply Qlt_not_le].
Qed.

Lemma bump_variables_analyzed (s : Internal) :
  analyzed (bump_variables s) ≡ₚ analyzed s.
Proof.
  unfold bump_variables. rewrite foldl_bump_variable_analyzed.
  destruct (trail_bump_policy s); cbn; apply sort_Permutation.
Qed.

(** C5: the batch of analyzed variables is first sorted and then bumped
    from its first to its last entry.  The order is by ascending stamp as
    it was before the bumps; when the trail-bump option is on and both the
    propagations per decision and the percentage of bumps on the last
    level are above their thresholds, it is by ascending sum of stamp and
    trail position, the smaller trail position first among equal sums. *)
Theorem bump_variables_order (s : Internal) :
  let batch := analyzed (bump_variables s) in
  batch ≡ₚ analyzed s
  ∧ (trail_bump_policy s = true ↔
       Opts.trailbump (opts s) = true
       ∧ (Opts.trailbumprops (opts s)
          < relative (Stats.propagations (stats s))
                     (Stats.decisions (stats s)))%Q
       ∧ (Opts.trailbumplast (opts s)
          < percent (Stats.bumplast (stats s)) (Stats.bumped (stats s)))%Q)
  ∧ (if trail_bump_policy s
     then StronglySorted
            (λ a b, trail_bump_key s a < trail_bump_key s b
                    ∨ trail_bump_key s a = trail_bump_key s b
                      ∧ Var.trail (var s a) ≤ Var.trail (var s b)) batch
     else StronglySorted (λ a b, bumped s a ≤ bumped s b) batch)
  ∧ bump_variables s =
      foldl (λ s lit, bump_variable lit s)
            (if trail_bump_policy s
             then set_stats (Stats.set_trailbumped
                               (Stats.trailbumped (stats s) + 1) (stats s))
                            (set_analyzed batch s)
             else set_analyzed batch s)
            batch.
Proof.
  cbn zeta. unfold bump_variables.
  rewrite foldl_bump_variable_analyzed.
  split_and!.
  - destruct (trail_bump_policy s); cbn; apply sort_Permutation.
  - unfold trail_bump_policy. rewrite !andb_true_iff, !Qgtb_true. tauto.
  - destruct (trail_bump_policy s); cbn.
    + apply sort_trail_bumped_smaller.
    + apply sort_bumped_earlier.
  - destruct (trail_bump_policy s); reflexivity.
Qed.

(** ** The resolution walk *)

Lemma vidx_opp (lit : Z) : vidx (- lit) = vidx lit.
Proof. unfold vidx. lia. Qed.

Lemma walk_core (s s0 : Internal) :
  untouched_by_walk s = untouched_by_walk s0 →
  level s = level s0 ∧ vals s = vals s0 ∧ vtab s = vtab s0
  ∧ trail s = trail s0 ∧ conflict s = conflict s0.
Proof. unfold untouched_by_walk. intros [= ]. done. Qed.

Lemma walk_core_var (s s0 : Internal) (lit : Z) :
  untouched_by_walk s = untouched_by_walk s0 →
  var s lit = var s0 lit ∧ val s lit = val s0 lit ∧ lvl s lit = lvl s0 lit.
Proof.
  intros H. apply walk_core in H as (_ & Hv & Ht & _).
  unfold lvl, var, val. by rewrite Hv, Ht.
Qed.

Lemma val_opp (s : Internal) (lit : Z) :
  lit ≠ 0 → val s (- lit) = - val s lit.
Proof.
  intros Hl. unfold val. rewrite vidx_opp.
  destruct (Z.ltb_spec lit 0), (Z.ltb_spec (- lit) 0); lia.
Qed.

Lemma analyze_literal_cases (lit open : Z) (s : Internal) :
  lit ≠ 0 →
  analyze_literal lit open s =
    if Flags.seen (flags s lit) then Done (s, open)
    else if Var.level (var s lit) =? 0 then Done (s, open)
    else if val s lit <? 0
         then Done (mark_analyzed lit s,
                    if Var.level (var s lit) =? level s then open + 1 else open)
         else Abort AssertionFailed.
Proof.
  intros Hl. unfold analyze_literal, mark_analyzed, update_flags.
  rewrite (proj2 (Z.eqb_neq _ _) Hl). cbn.
  destruct (Flags.seen (flags s lit)); [done|].
  destruct (Var.level (var s lit) =? 0); [done|].
  destruct (val s lit <? 0); [|done]. cbn.
  destruct (Var.level (var s lit) <? level s); cbn;
    destruct (Level.seen (control s !!! Var.level (var s lit)) =? 0); cbn;
    destruct (Var.trail (var s lit)
               <? Level.trail (control s !!! Var.level (var s lit)));
    reflexivity.
Qed.

(** Counting the entries that satisfy a predicate, when one variable
    starts to satisfy it. *)
Lemma filter_length_mark (P P' : Z → Prop)
    `{!∀ x, Decision (P x), !∀ x, Decision (P' x)} (l : list Z) (u : Z) :
  NoDup (vidx <$> l) → u ∈ l → ¬ P u → P' u →
  (∀ a, a ∈ l → vidx a ≠ vidx u → (P' a ↔ P a)) →
  length (filter P' l) = S (length (filter P l)).
Proof.
  induction l as [|a l IH]; intros Hnd Hu HP HP' Hag.
  - by apply elem_of_nil in Hu.
  - rewrite fmap_cons in Hnd. apply NoDup_cons in Hnd as [Ha Hnd].
    apply elem_of_cons in Hu as [->|Hu].
    + rewrite filter_cons_True, filter_cons_False by done. cbn. f_equal.
      f_equal. clear IH. induction l as [|b l IH]; [done|].
      rewrite fmap_cons in Ha, Hnd.
      apply not_elem_of_cons in Ha as [Hab Ha].
      apply NoDup_cons in Hnd as [_ Hnd].
      assert (P' b ↔ P b) as Hb.
      { apply Hag; [apply list_elem_of_further, list_elem_of_here | done]. }
      rewrite !(filter_cons _ b).
      destruct (decide (P' b)), (decide (P b)); try tauto.
      * f_equal. apply IH; [done..|].
        intros c Hc. apply elem_of_cons in Hc as [->|Hc]; apply Hag.
        -- apply list_elem_of_here.
        -- by do 2 apply list_elem_of_further.
      * apply IH; [done..|].
        intros c Hc. apply elem_of_cons in Hc as [->|Hc]; apply Hag.
        -- apply list_elem_of_here.
        -- by do 2 apply list_elem_of_further.
    + assert (vidx a ≠ vidx u) as Hau.
      { intros E. apply Ha. rewrite E. by apply list_elem_of_fmap_2. }
      assert (P' a ↔ P a) as Hb by (apply Hag; [apply list_elem_of_here|done]).
      rewrite !(filter_cons _ a).
      assert (length (filter P' l) = S (length (filter P l))) as IH'.
      { apply IH; [done..|]. intros c Hc. apply Hag.
        by apply list_elem_of_further. }
      destruct (decide (P' a)), (decide (P a)); try tauto; cbn; lia.
Qed.

Lemma mark_analyzed_invariant (s0 s : Internal) (i : nat) (lit : Z) :
  walk_invariant s0 s i → lit ≠ 0 → val s0 lit < 0 → 0 < lvl s0 lit →
  - lit ∈ trail s0 → Flags.seen (flags s lit) = false →
  walk_invariant s0 (mark_analyzed lit s) i.
Proof.
  intros [Hcore Hcl Hcur Han Hnd Hseen Hfl Hclause Hlev Hres] Hl Hv Hlv Htr Hns.
  destruct (walk_core_var s s0 lit Hcore) as (Hvar & _ & Hlvl).
  destruct (walk_core s s0 Hcore) as (Hlevel & _).
  assert (vidx lit ∉ vidx <$> analyzed s) as Hfresh.
  { intros Hin. apply Hseen in Hin. unfold flags in Hns. congruence. }
  split; unfold mark_analyzed; cbn.
  - exact Hcore.
  - exact Hcl.
  - exact Hcur.
  - intros a Ha. apply elem_of_app in Ha as [Ha|Ha]; [by apply Han|].
    apply list_elem_of_singleton in Ha as ->. done.
  - rewrite fmap_app. apply NoDup_app. split_and!; [done| |].
    + intros x Hx Hx'. apply list_elem_of_singleton in Hx' as ->. done.
    + apply NoDup_singleton.
  - intros x. rewrite fmap_app, elem_of_app. cbn.
    rewrite list_elem_of_singleton.
    destruct (decide (vidx lit = x)) as [->|Hne].
    + rewrite lookup_total_insert_eq. cbn. tauto.
    + rewrite lookup_total_insert_ne by done. rewrite Hseen.
      split; [tauto|]. intros [?|?]; [done|congruence].
  - intros x. destruct (decide (vidx lit = x)) as [<-|Hne].
    + rewrite lookup_total_insert_eq. rewrite <- Hfl. done.
    + by rewrite lookup_total_insert_ne.
  - rewrite filter_app, <- Hclause. rewrite Hvar, Hlevel.
    fold (lvl s0 lit).
    destruct (Z.ltb_spec (lvl s0 lit) (level s0)).
    + by rewrite filter_cons_True.
    + rewrite filter_cons_False by lia. by rewrite filter_nil, app_nil_r.
  - intros l. destruct (Hlev l) as (H0 & Hiff & Hreset).
    destruct (Hlev (Var.level (var s lit))) as (H0' & Hiff' & _).
    destruct (decide (Var.level (var s lit) = l)) as [<-|Hne].
    + rewrite lookup_total_insert_eq. cbn.
      assert (Var.level (var s lit)
              ∈ (if Level.seen (control s !!! Var.level (var s lit)) =? 0
                 then levels s ++ [Var.level (var s lit)] else levels s)).
      { destruct (Z.eqb_spec
                    (Level.seen (control s !!! Var.level (var s lit))) 0).
        - apply elem_of_app. right. apply list_elem_of_here.
        - apply Hiff. lia. }
      split_and!; [lia | split; [done | lia] | done].
    + rewrite lookup_total_insert_ne by done.
      assert (l ∈ (if Level.seen (control s !!! Var.level (var s lit)) =? 0
                   then levels s ++ [Var.level (var s lit)] else levels s)
              ↔ l ∈ levels s) as Hl'.
      { destruct (_ =? 0); [|done]. rewrite elem_of_app.
        rewrite list_elem_of_singleton. split; [|tauto].
        intros [?|?]; [done|congruence]. }
      rewrite Hl'. done.
  - exact Hres.
Qed.

Lemma flags_mark_analyzed (lit a : Z) (s : Internal) :
  flags (mark_analyzed lit s) a =
  if decide (vidx lit = vidx a) then Flags.set_seen true (flags s lit)
  else flags s a.
Proof.
  unfold mark_analyzed, flags. cbn. case_decide as E.
  - rewrite E. apply lookup_total_insert_eq.
  - by apply lookup_total_insert_ne.
Qed.

Lemma pending_mark_analyzed (s0 s : Internal) (i p : nat) (lit : Z) :
  well_formed s0 → walk_invariant s0 s i → lit ≠ 0 →
  Flags.seen (flags s lit) = false →
  trail s0 !! p = Some (- lit) → (p < i)%nat →
  Z.of_nat (length (pending (mark_analyzed lit s) i)) =
  Z.of_nat (length (pending s i))
  + (if Var.level (var s lit) =? level s then 1 else 0).
Proof.
  intros Hwf Hinv Hl Hns Hp Hpi.
  destruct (walk_core s s0 (inv_core _ _ _ Hinv)) as (Hlevel & _ & _ & Htr & _).
  unfold pending.
  assert (trail (mark_analyzed lit s) = trail s) as -> by reflexivity.
  assert (level (mark_analyzed lit s) = level s) as -> by reflexivity.
  assert (∀ a, lvl (mark_analyzed lit s) a = lvl s a) as Hlv by reflexivity.
  assert (∀ a b, vidx a = vidx b → lvl s a = lvl s b) as Hlvv.
  { intros a b E. unfold lvl, var. by rewrite E. }
  destruct (Z.eqb_spec (Var.level (var s lit)) (level s)) as [HL|HL].
  - rewrite Z.add_1_r, <- Nat2Z.inj_succ. f_equal.
    apply (filter_length_mark _ _ _ (- lit)).
    + rewrite Htr, fmap_take.
      eapply sublist_NoDup; [apply (wf_trail_nodup _ Hwf) | apply sublist_take].
    + rewrite Htr. apply list_elem_of_lookup. exists p.
      rewrite lookup_take_lt by done. done.
    + intros [Hs _]. unfold flags in *. rewrite vidx_opp in Hs. congruence.
    + split.
      * rewrite flags_mark_analyzed, vidx_opp, decide_True by done. done.
      * rewrite Hlv. rewrite (Hlvv (- lit) lit) by apply vidx_opp. done.
    + intros a _ Ha. rewrite vidx_opp in Ha.
      rewrite flags_mark_analyzed, decide_False by done. by rewrite Hlv.
  - rewrite Z.add_0_r. f_equal. f_equal. apply list_filter_iff.
    intros a. rewrite flags_mark_analyzed, Hlv. case_decide as E; [|done].
    rewrite <- (Hlvv lit a E). unfold lvl. tauto.
Qed.

Lemma trail_falsifies (s0 : Internal) (lit : Z) (p : nat) :
  well_formed s0 → lit ≠ 0 → trail s0 !! p = Some (- lit) →
  val s0 lit < 0
  ∧ Var.trail (var s0 lit) = Z.of_nat p
  ∧ 0 ≤ lvl s0 lit ≤ level s0.
Proof.
  intros Hwf Hl Hp.
  destruct (wf_trail_entry _ Hwf p _ Hp) as (_ & Hv & Ht & Hlv).
  rewrite val_opp in Hv by done.
  unfold lvl, var in *. rewrite vidx_opp in Ht, Hlv.
  split_and!; [lia | done | lia | lia].
Qed.

Lemma walk_invariant_cursor (s0 s : Internal) (i j : nat) :
  walk_invariant s0 s i → (j ≤ length (trail s0))%nat → walk_invariant s0 s j.
Proof. intros [] Hj. by split. Qed.

Lemma analyze_literal_step (s0 s : Internal) (i p : nat) (open lit : Z) :
  well_formed s0 → walk_invariant s0 s i →
  open = Z.of_nat (length (pending s i)) →
  lit ≠ 0 → (p < i)%nat → trail s0 !! p = Some (- lit) →
  ∃ s' open', analyze_literal lit open s = Done (s', open')
    ∧ walk_invariant s0 s' i
    ∧ open' = Z.of_nat (length (pending s' i))
    ∧ resolved s' = resolved s ∧ clauses s' = clauses s
    ∧ (0 < lvl s0 lit → Flags.seen (flags s' lit) = true)
    ∧ (∀ a, Flags.seen (flags s a) = true → Flags.seen (flags s' a) = true).
Proof.
  intros Hwf Hinv Hopen Hl Hpos Hp.
  destruct (trail_falsifies s0 lit p Hwf Hl Hp) as (Hv & Hpp & Hlv).
  destruct (walk_core_var s s0 lit (inv_core _ _ _ Hinv)) as (Hvar & Hval & Hlvl).
  rewrite analyze_literal_cases by done.
  destruct (Flags.seen (flags s lit)) eqn:Hseen.
  { exists s, open. split_and!; done. }
  destruct (Z.eqb_spec (Var.level (var s lit)) 0) as [H0|H0].
  { exists s, open. split_and!; try done.
    intros ?. unfold lvl in *. rewrite Hvar in H0. lia. }
  rewrite Hval. rewrite (proj2 (Z.ltb_lt _ _) Hv).
  eexists _, _. split; [reflexivity|].
  assert (0 < lvl s0 lit) as Hpos'.
  { unfold lvl in *. rewrite Hvar in H0. lia. }
  split_and!; try done.
  - apply mark_analyzed_invariant; try done.
    by eapply list_elem_of_lookup_2.
  - rewrite (pending_mark_analyzed s0 s i p lit) by (done || lia).
    rewrite Hopen. destruct (_ =? _); lia.
  - intros _. rewrite flags_mark_analyzed, decide_True by done. done.
  - intros a Ha. rewrite flags_mark_analyzed. by case_decide.
Qed.

(** The loop over the literals of a reason. *)
Lemma analyze_literals_step (s0 : Internal) (i : nat) (uip : Z) (l : list Z) :
  well_formed s0 →
  ∀ (s : Internal) (open : Z),
  walk_invariant s0 s i →
  open = Z.of_nat (length (pending s i)) →
  Forall (λ other, other ≠ uip →
            other ≠ 0
            ∧ ∃ p : nat, (p < i)%nat ∧ trail s0 !! p = Some (- other)) l →
  ∃ s' open',
    for_each (λ other '(s, open),
                if negb (other =? uip) then analyze_literal other open s
                else Done (s, open)) l (s, open) = Done (s', open')
    ∧ walk_invariant s0 s' i
    ∧ open' = Z.of_nat (length (pending s' i))
    ∧ resolved s' = resolved s ∧ clauses s' = clauses s
    ∧ (∀ other, other ∈ l → other ≠ uip → 0 < lvl s0 other →
         Flags.seen (flags s' other) = true)
    ∧ (∀ a, Flags.seen (flags s a) = true → Flags.seen (flags s' a) = true).
Proof.
  intros Hwf. induction l as [|other l IH]; intros s open Hinv Hopen Hall.
  - exists s, open. split_and!; try done.
    intros other Hin. by apply elem_of_nil in Hin.
  - apply Forall_cons in Hall as [Ho Hall]. cbn.
    destruct (Z.eqb_spec other uip) as [->|Hne]; cbn.
    + destruct (IH s open Hinv Hopen Hall)
        as (s' & open' & Hrun & Hinv' & Hopen' & Hres & Hcl & Hseen & Hmono).
      exists s', open'. split_and!; try done.
      intros a Ha Hau. apply elem_of_cons in Ha as [->|Ha]; [done|].
      by apply Hseen.
    + destruct (Ho Hne) as (Ho0 & p & Hpi & Hp).
      destruct (analyze_literal_step s0 s i p open other Hwf Hinv Hopen Ho0
                  Hpi Hp)
        as (s1 & open1 & Hrun1 & Hinv1 & Hopen1 & Hres1 & Hcl1 & Hseen1 & Hmono1).
      rewrite Hrun1. cbn.
      destruct (IH s1 open1 Hinv1 Hopen1 Hall)
        as (s' & open' & Hrun & Hinv' & Hopen' & Hres & Hcl & Hseen & Hmono).
      exists s', open'. split_and!; try done; try congruence.
      * intros a Ha Hau Hlv. apply elem_of_cons in Ha as [->|Ha].
        -- by apply Hmono, Hseen1.
        -- by apply Hseen.
      * intros a Ha. by apply Hmono, Hmono1.
Qed.

Lemma clause_fields_but_used (C C' : Clause.t) :
  Clause.set_used false C = Clause.set_used false C' →
  Clause.redundant C = Clause.redundant C'
  ∧ Clause.hbr C = Clause.hbr C'
  ∧ Clause.have_analyzed C = Clause.have_analyzed C'
  ∧ Clause.analyzed C = Clause.analyzed C'
  ∧ Clause.glue C = Clause.glue C'
  ∧ Clause.literals C = Clause.literals C'.
Proof. destruct C, C'. unfold Clause.set_used. cbn. intros [= ]. done. Qed.

Lemma save_as_resolved_clause_invariant (s0 s : Internal) (i : nat) (c : Z) :
  walk_invariant s0 s i →
  walk_invariant s0 (save_as_resolved_clause c s) i
  ∧ pending (save_as_resolved_clause c s) i = pending s i
  ∧ (resolved (save_as_resolved_clause c s) = resolved s
     ∨ resolved (save_as_resolved_clause c s) = resolved s ++ [c])
  ∧ Clause.literals (clauses (save_as_resolved_clause c s) !!! c)
    = Clause.literals (clauses s0 !!! c).
Proof.
  intros Hinv.
  destruct (clause_fields_but_used _ _ (inv_clauses _ _ _ Hinv c))
    as (Hred & _ & Hha & _ & _ & Hlits).
  assert (∀ c', Clause.set_used false
                  (<[c := Clause.set_used true (clauses s !!! c)]> (clauses s)
                   !!! c')
                = Clause.set_used false (clauses s0 !!! c')) as Hupd.
  { intros c'. destruct (decide (c = c')) as [<-|Hne].
    - rewrite lookup_total_insert_eq. by rewrite <- (inv_clauses _ _ _ Hinv c).
    - rewrite lookup_total_insert_ne by done. apply (inv_clauses _ _ _ Hinv). }
  unfold save_as_resolved_clause.
  destruct (Clause.redundant (clauses s !!! c)) eqn:Er; cbn [negb];
    [|by split_and!; [| |left|]].
  destruct (Clause.hbr (clauses s !!! c)) eqn:Eh; cbn [clauses set_clauses].
  - rewrite lookup_total_insert_eq. cbn [Clause.have_analyzed Clause.set_used].
    destruct (Clause.have_analyzed (clauses s !!! c)) eqn:Ea; cbn [negb].
    + split_and!; [|reflexivity|by right|by cbn; rewrite lookup_total_insert_eq].
      destruct Hinv. split; cbn; try done.
      intros c' Hc'. apply elem_of_app in Hc' as [Hc'|Hc']; [by auto|].
      apply list_elem_of_singleton in Hc' as ->. by rewrite <- Hha, <- Hred.
    + split_and!; [|reflexivity|by left|by cbn; rewrite lookup_total_insert_eq].
      destruct Hinv. split; cbn; done.
  - destruct (Clause.have_analyzed (clauses s !!! c)) eqn:Ea; cbn [negb].
    + split_and!; [|reflexivity|by right|done].
      destruct Hinv. split; cbn; try done.
      intros c' Hc'. apply elem_of_app in Hc' as [Hc'|Hc']; [by auto|].
      apply list_elem_of_singleton in Hc' as ->. by rewrite <- Hha, <- Hred.
    + by split_and!; [| |left|].
Qed.

Lemma analyze_reason_step (s0 s : Internal) (i : nat) (uip open r : Z) :
  well_formed s0 → walk_invariant s0 s i →
  open = Z.of_nat (length (pending s i)) →
  Forall (λ other, other ≠ uip →
            other ≠ 0
            ∧ ∃ p : nat, (p < i)%nat ∧ trail s0 !! p = Some (- other))
         (Clause.literals (clauses s0 !!! r)) →
  ∃ s' open', analyze_reason uip (Some r) open s = Done (s', open')
    ∧ walk_invariant s0 s' i
    ∧ open' = Z.of_nat (length (pending s' i))
    ∧ (resolved s' = resolved s ∨ resolved s' = resolved s ++ [r])
    ∧ (∀ other, other ∈ Clause.literals (clauses s0 !!! r) → other ≠ uip →
         0 < lvl s0 other → Flags.seen (flags s' other) = true)
    ∧ (∀ a, Flags.seen (flags s a) = true → Flags.seen (flags s' a) = true).
Proof.
  intros Hwf Hinv Hopen Hall. unfold analyze_reason.
  destruct (save_as_resolved_clause_invariant s0 s i r Hinv)
    as (Hinv1 & Hpend & Hres & Hlits).
  rewrite Hlits.
  destruct (analyze_literals_step s0 i uip
              (Clause.literals (clauses s0 !!! r)) Hwf
              (save_as_resolved_clause r s) open Hinv1)
    as (s' & open' & Hrun & Hinv' & Hopen' & Hres' & _ & Hseen & Hmono);
    [by rewrite Hpend | done |].
  exists s', open'. split_and!; try done.
  - by rewrite Hres'.
  - intros a Ha. apply Hmono.
    unfold save_as_resolved_clause, flags in *. by repeat case_match.
Qed.

Lemma pending_elem_of (s0 s : Internal) (i : nat) (b : Z) :
  walk_invariant s0 s i →
  b ∈ pending s i ↔
  Flags.seen (flags s b) = true ∧ lvl s0 b = level s0
  ∧ ∃ p : nat, (p < i)%nat ∧ trail s0 !! p = Some b.
Proof.
  intros Hinv.
  destruct (walk_core s s0 (inv_core _ _ _ Hinv)) as (Hlevel & _ & _ & Htr & _).
  destruct (walk_core_var s s0 b (inv_core _ _ _ Hinv)) as (_ & _ & Hlvl).
  unfold pending. rewrite list_elem_of_filter, Hlevel, Hlvl, Htr.
  rewrite list_elem_of_lookup.
  split.
  - intros ([? ?] & p & Hp). apply lookup_take_Some in Hp as [? ?]. eauto.
  - intros (? & ? & p & ? & ?). split; [done|]. exists p.
    by rewrite lookup_take_lt.
Qed.

Lemma previous_seen_spec (s0 s : Internal) :
  well_formed s0 →
  ∀ i : nat, walk_invariant s0 s i → pending s i ≠ [] →
  ∃ (uip : Z) (j : nat), previous_seen s i = Done (uip, j)
    ∧ (j < i)%nat ∧ trail s0 !! j = Some uip
    ∧ Flags.seen (flags s uip) = true ∧ lvl s0 uip = level s0
    ∧ length (pending s i) = S (length (pending s j)).
Proof.
  intros Hwf. induction i as [|k IH]; intros Hinv Hne.
  { by destruct Hne. }
  destruct (walk_core s s0 (inv_core _ _ _ Hinv)) as (Hlevel & _ & _ & Htr & _).
  pose proof (inv_cursor _ _ _ Hinv) as Hcur.
  destruct (lookup_lt_is_Some_2 (trail s0) k) as [a Ha]; [lia|].
  assert (walk_invariant s0 s k) as Hinvk.
  { eapply walk_invariant_cursor; [done | lia]. }
  assert (pending s (S k)
          = pending s k
            ++ filter (λ lit, Flags.seen (flags s lit) = true
                              ∧ lvl s lit = level s) [a]) as Hsplit.
  { unfold pending. rewrite Htr, (take_S_r _ _ a) by done.
    by rewrite filter_app. }
  cbn. rewrite Htr, Ha.
  destruct (Flags.seen (flags s a)) eqn:Hseen.
  - assert (lvl s0 a = level s0) as Hla.
    { destruct (pending s (S k)) as [|b t] eqn:E; [done|].
      assert (b ∈ pending s (S k)) as Hb by (rewrite E; apply list_elem_of_here).
      apply (pending_elem_of s0) in Hb as (_ & Hlb & p & Hp & Hpb); [|done].
      pose proof (wf_trail_levels _ Hwf p k b a ltac:(lia) Hpb Ha).
      destruct (wf_trail_entry _ Hwf k a Ha) as (_ & _ & _ & ?). lia. }
    exists a, k. split_and!; try done; [lia|].
    rewrite Hsplit, filter_cons_True, filter_nil, length_app; [cbn; lia|].
    destruct (walk_core_var s s0 a (inv_core _ _ _ Hinv)) as (_ & _ & ->).
    by rewrite Hlevel.
  - rewrite filter_cons_False, filter_nil, app_nil_r in Hsplit
      by (intros [? _]; congruence).
    rewrite Hsplit in Hne |- *.
    destruct (IH Hinvk Hne) as (uip & j & Hrun & Hj & Hu & Hs & Hl & Hlen).
    exists uip, j. split_and!; try done. lia.
Qed.

Lemma consulted_mono (s0 : Internal) (i j : nat) (c : Z) :
  (j ≤ i)%nat → consulted s0 i c → consulted s0 j c.
Proof.
  intros Hji [H|(k & a & Hk & Ha & Hr)]; [by left|].
  right. exists k, a. split_and!; [lia|done..].
Qed.

Lemma analyze_loop_spec (s0 : Internal) :
  well_formed s0 →
  ∀ (fuel : nat) (r uip open : Z) (i : nat) (s : Internal),
  (i < fuel)%nat →
  walk_invariant s0 s i →
  open = Z.of_nat (length (pending s i)) →
  NoDup (resolved s) → r ∉ resolved s →
  (∀ c, c ∈ resolved s → consulted s0 i c) →
  consulted s0 i r →
  Forall (λ other, other ≠ uip →
            other ≠ 0
            ∧ ∃ p : nat, (p < i)%nat ∧ trail s0 !! p = Some (- other))
         (Clause.literals (clauses s0 !!! r)) →
  pending s i ≠ []
  ∨ Exists (λ other, other ≠ uip ∧ lvl s0 other = level s0)
           (Clause.literals (clauses s0 !!! r)) →
  ∃ (s' : Internal) (uip' : Z) (j : nat),
    analyze_loop fuel (Some r) uip open i s = Done (s', uip')
    ∧ walk_invariant s0 s' j
    ∧ trail s0 !! j = Some uip'
    ∧ lvl s0 uip' = level s0
    ∧ Flags.seen (flags s' uip') = true
    ∧ pending s' j = []
    ∧ NoDup (resolved s').
Proof.
  intros Hwf.
  induction fuel as [|fuel IH];
    intros r uip open i s Hfuel Hinv Hopen Hnd Hr Hcons Hconsr Hall Hne;
    [lia|].
  cbn [analyze_loop].
  destruct (analyze_reason_step s0 s i uip open r Hwf Hinv Hopen Hall)
    as (s1 & open1 & Hrun & Hinv1 & Hopen1 & Hres1 & Hseen1 & Hmono1).
  rewrite Hrun. cbn.
  assert (NoDup (resolved s1)) as Hnd1.
  { destruct Hres1 as [->| ->]; [done|]. apply NoDup_app. split_and!; [done| |].
    - intros c Hc Hc'. apply list_elem_of_singleton in Hc' as ->. done.
    - apply NoDup_singleton. }
  assert (∀ c, c ∈ resolved s1 → consulted s0 i c) as Hcons1.
  { intros c Hc. destruct Hres1 as [E|E]; rewrite E in Hc; [by auto|].
    apply elem_of_app in Hc as [Hc|Hc]; [by auto|].
    by apply list_elem_of_singleton in Hc as ->. }
  assert (pending s1 i ≠ []) as Hne1.
  { destruct Hne as [Hne|Hex].
    - destruct (pending s i) as [|b t] eqn:E; [done|].
      assert (b ∈ pending s i) as Hb by (rewrite E; apply list_elem_of_here).
      apply (pending_elem_of s0) in Hb as (Hsb & Hlb & Hp); [|done].
      assert (b ∈ pending s1 i) as Hb1.
      { apply (pending_elem_of s0); [done|]. split_and!; auto. }
      intros E1. rewrite E1 in Hb1. by apply elem_of_nil in Hb1.
    - apply Exists_exists in Hex as (other & Hin & Hou & Hlo).
      rewrite Forall_forall in Hall.
      destruct (Hall other Hin Hou) as (Ho0 & p & Hpi & Hp).
      pose proof (wf_level _ Hwf) as HL.
      assert (- other ∈ pending s1 i) as Hb1.
      { apply (pending_elem_of s0); [done|]. split_and!.
        - unfold flags. rewrite vidx_opp. apply (Hseen1 other Hin Hou). lia.
        - unfold lvl, var. rewrite vidx_opp. exact Hlo.
        - exists p. split; [done|done]. }
      intros E1. rewrite E1 in Hb1. by apply elem_of_nil in Hb1. }
  destruct (previous_seen_spec s0 s1 Hwf i Hinv1 Hne1)
    as (uip' & j & Hscan & Hji & Hju & Hsu & Hlu & Hlen).
  rewrite Hscan. cbn.
  assert (walk_invariant s0 s1 j) as Hinvj.
  { eapply walk_invariant_cursor; [done|].
    pose proof (inv_cursor _ _ _ Hinv1). lia. }
  destruct (Z.eqb_spec (open1 - 1) 0) as [Hz|Hnz].
  { exists s1, uip', j. split_and!; try done.
    apply length_zero_iff_nil. lia. }
  destruct (walk_core_var s1 s0 uip' (inv_core _ _ _ Hinv1)) as (-> & _ & _).
  pose proof (wf_reasons _ Hwf j uip' Hju Hlu) as Hreason.
  assert (pending s1 j ≠ []) as Hnej.
  { intros E. rewrite E in Hlen. cbn in Hlen. lia. }
  destruct (Var.reason (var s0 uip')) as [r'|] eqn:Er'.
  - apply (IH r' uip' (open1 - 1) j s1); try done; try lia.
    + intros Hin. destruct (Hcons1 r' Hin) as [Hc|(k & a & Hk & Ha & Hra)].
      * by apply (wf_conflict_no_reason _ Hwf j uip' Hju); rewrite Er'.
      * pose proof (wf_reason_inj _ Hwf j k uip' a r' Hju Ha Er' Hra). lia.
    + intros c Hc. eapply consulted_mono; [|by apply Hcons1]. lia.
    + right. exists j, uip'. done.
    + by left.
  - exfalso. destruct (pending s1 j) as [|b t] eqn:E; [done|].
    assert (b ∈ pending s1 j) as Hb by (rewrite E; apply list_elem_of_here).
    apply (pending_elem_of s0) in Hb as (_ & Hlb & p & Hp & Hpb); [|done].
    pose proof (Hreason p b Hp Hpb). lia.
Qed.

(** ** The iteration budget

    The budget of the resolution loop is a device of the model.  It is
    never the reason for a failure: every round moves the cursor towards
    the begin of the trail. *)

Lemma for_each_not_out_of_fuel {A S} (body : A → S → outcome S) (l : list A) :
  (∀ x s, body x s ≠ Abort OutOfFuel) →
  ∀ s, for_each body l s ≠ Abort OutOfFuel.
Proof.
  intros Hbody. induction l as [|x l IH]; intros s; cbn; [done|].
  destruct (body x s) as [s1|w] eqn:E; cbn; [apply IH|].
  intros [= ->]. by apply (Hbody x s).
Qed.

Lemma analyze_literal_not_out_of_fuel (lit open : Z) (s : Internal) :
  analyze_literal lit open s ≠ Abort OutOfFuel.
Proof.
  unfold analyze_literal, assert_.
  destruct (lit =? 0); cbn; [done|].
  destruct (Flags.seen (flags s lit)); [done|].
  destruct (Var.level (var s lit) =? 0); [done|].
  destruct (val s lit <? 0); cbn; done.
Qed.

Lemma analyze_reason_not_out_of_fuel (lit : Z) (reason : option Z) (open : Z)
    (s : Internal) :
  analyze_reason lit reason open s ≠ Abort OutOfFuel.
Proof.
  unfold analyze_reason. destruct reason as [c|]; [|done].
  apply for_each_not_out_of_fuel. intros other [s1 open1].
  destruct (negb (other =? lit)); [|done].
  apply analyze_literal_not_out_of_fuel.
Qed.

Lemma previous_seen_before (s : Internal) (i j : nat) (uip : Z) :
  previous_seen s i = Done (uip, j) → (j < i)%nat.
Proof.
  induction i as [|k IH]; cbn; [done|].
  destruct (trail s !! k) as [a|]; [|done].
  destruct (Flags.seen (flags s a)).
  - intros [= _ <-]. lia.
  - intros H. apply IH in H. lia.
Qed.

Lemma previous_seen_not_out_of_fuel (s : Internal) (i : nat) :
  previous_seen s i ≠ Abort OutOfFuel.
Proof.
  induction i as [|k IH]; cbn; [done|].
  destruct (trail s !! k) as [a|]; [|done].
  by destruct (Flags.seen (flags s a)).
Qed.

Lemma analyze_loop_not_out_of_fuel (fuel : nat) :
  ∀ (reason : option Z) (uip open : Z) (i : nat) (s : Internal),
  (i < fuel)%nat →
  analyze_loop fuel reason uip open i s ≠ Abort OutOfFuel.
Proof.
  induction fuel as [|fuel IH]; intros reason uip open i s Hi; [lia|].
  cbn [analyze_loop].
  assert ((if reason is Some _ then analyze_reason uip reason open s
           else analyze_literal 0 open s) ≠ Abort OutOfFuel) as Hstep.
  { destruct reason.
    - apply analyze_reason_not_out_of_fuel.
    - apply analyze_literal_not_out_of_fuel. }
  destruct (if reason is Some _ then analyze_reason uip reason open s
            else analyze_literal 0 open s) as [[s1 open1]|w];
    cbn [mbind outcome_bind]; [|congruence].
  pose proof (previous_seen_not_out_of_fuel s1 i) as Hscan.
  destruct (previous_seen s1 i) as [[uip' j]|w] eqn:E;
    cbn [mbind outcome_bind]; [|congruence].
  apply previous_seen_before in E.
  destruct (open1 - 1 =? 0); [done|]. apply IH. lia.
Qed.

Lemma analyze_derive_not_out_of_fuel (s : Internal) :
  analyze_derive s ≠ Abort OutOfFuel.
Proof.
  unfold analyze_derive.
  pose proof (analyze_loop_not_out_of_fuel (S (length (trail s))) (conflict s)
                0 0 (length (trail s)) s ltac:(lia)) as Hloop.
  destruct (analyze_loop _ _ _ _ _ _) as [[s1 uip]|w];
    cbn [mbind outcome_bind]; [|congruence].
  unfold check_learned_clause, assert_.
  destruct (forallb _ _); cbn; [|done].
  by destruct (bool_decide _).
Qed.

Lemma walk_invariant_initial (s0 : Internal) :
  scratch_clean s0 → walk_invariant s0 s0 (length (trail s0)).
Proof.
  intros [Hfl Hctl Hcl Han Hlev Hres]. split; try done.
  - rewrite Han. intros lit Hin. by apply elem_of_nil in Hin.
  - rewrite Han. constructor.
  - intros x. rewrite Han. destruct (Hfl x) as (-> & _). split; [done|].
    intros Hin. by apply elem_of_nil in Hin.
  - by rewrite Hcl, Han.
  - intros l. rewrite Hctl, Hlev. cbn. split_and!; [lia| |done].
    split; [lia|]. intros Hin. by apply elem_of_nil in Hin.
  - intros c. rewrite Hres. intros Hin. by apply elem_of_nil in Hin.
Qed.

Lemma NoDup_fmap_eq {A B} (f : A → B) (l : list A) (a b : A) :
  NoDup (f <$> l) → a ∈ l → b ∈ l → f a = f b → a = b.
Proof.
  induction l as [|x l IH]; intros Hnd Ha Hb Hf.
  - by apply elem_of_nil in Ha.
  - rewrite fmap_cons in Hnd. apply NoDup_cons in Hnd as [Hx Hnd].
    apply elem_of_cons in Ha as [->|Ha]; apply elem_of_cons in Hb as [->|Hb].
    + done.
    + destruct Hx. rewrite Hf. by apply list_elem_of_fmap_2.
    + destruct Hx. rewrite <- Hf. by apply list_elem_of_fmap_2.
    + by apply IH.
Qed.

(** The walk on a well-formed conflict: it completes, and the clause
    buffer passes the check of the learned clause. *)
Lemma analyze_derive_spec (s0 : Internal) :
  well_formed s0 → scratch_clean s0 →
  ∃ (s' : Internal) (uip : Z) (j : nat),
    analyze_derive s0 = Done (set_clause (clause s' ++ [- uip]) s', uip)
    ∧ walk_invariant s0 s' j
    ∧ trail s0 !! j = Some uip
    ∧ lvl s0 uip = level s0
    ∧ - uip ∈ analyzed s'
    ∧ pending s' j = []
    ∧ NoDup (resolved s')
    ∧ Forall (λ lit, val s0 lit < 0) (clause s' ++ [- uip])
    ∧ NoDup (vidx <$> clause s' ++ [- uip]).
Proof.
  intros Hwf Hclean.
  pose proof (walk_invariant_initial s0 Hclean) as Hinv0.
  destruct (wf_conflict _ Hwf) as (c & Hc & Hfalse & Hex).
  rewrite Forall_forall in Hfalse.
  assert (pending s0 (length (trail s0)) = []) as Hpend0.
  { destruct (pending s0 (length (trail s0))) as [|b t] eqn:E; [done|].
    assert (b ∈ pending s0 (length (trail s0))) as Hb
      by (rewrite E; apply list_elem_of_here).
    apply (pending_elem_of s0) in Hb as (Hsb & _); [|done].
    unfold flags in Hsb. destruct (clean_flags _ Hclean (vidx b)). congruence. }
  destruct (analyze_loop_spec s0 Hwf (S (length (trail s0))) c 0 0
              (length (trail s0)) s0)
    as (s' & uip & j & Hrun & Hinv & Hju & Hlu & Hsu & Hpend & Hnd);
    try done.
  - lia.
  - by rewrite Hpend0.
  - rewrite (clean_resolved _ Hclean). constructor.
  - rewrite (clean_resolved _ Hclean). apply not_elem_of_nil.
  - rewrite (clean_resolved _ Hclean). intros ? Hin.
    by apply elem_of_nil in Hin.
  - by left.
  - apply Forall_forall. intros other Hin _.
    destruct (Hfalse other Hin) as [Ho0 Hov]. split; [done|].
    apply list_elem_of_lookup in Hov as [p Hp]. exists p. split; [|done].
    by apply lookup_lt_Some in Hp.
  - right. apply Exists_exists in Hex as (other & Hin & Hlo).
    apply Exists_exists. exists other. split; [done|].
    split; [|done]. by destruct (Hfalse other Hin).
  - destruct (wf_trail_entry _ Hwf j uip Hju) as (Hu0 & Huv & _ & _).
    assert (- uip ∈ analyzed s') as Hua.
    { unfold flags in Hsu. apply (inv_seen _ _ _ Hinv) in Hsu.
      apply list_elem_of_fmap in Hsu as (a & Ha & Hin).
      destruct (inv_analyzed _ _ _ Hinv a Hin) as (Ha0 & Hav & _ & _).
      assert (a = - uip) as <-; [|done].
      unfold vidx in Ha. destruct (decide (a = uip)) as [->|]; lia. }
    assert (Forall (λ lit, val s0 lit < 0) (clause s' ++ [- uip])) as Hfalsified.
    { apply Forall_app. split.
      - rewrite (inv_clause _ _ _ Hinv). apply Forall_forall. intros a Ha.
        apply list_elem_of_filter in Ha as [_ Ha].
        by destruct (inv_analyzed _ _ _ Hinv a Ha) as (_ & ? & _ & _).
      - apply Forall_singleton. rewrite val_opp by done. lia. }
    assert (NoDup (vidx <$> clause s' ++ [- uip])) as Hnodup.
    { rewrite fmap_app. apply NoDup_app. split_and!.
      - rewrite (inv_clause _ _ _ Hinv).
        eapply sublist_NoDup; [apply (inv_nodup _ _ _ Hinv)|].
        apply fmap_sublist, sublist_filter.
      - intros x Hx Hx'. cbn in Hx'. apply list_elem_of_singleton in Hx' as ->.
        apply list_elem_of_fmap in Hx as (a & Ha & Hin).
        rewrite (inv_clause _ _ _ Hinv) in Hin.
        apply list_elem_of_filter in Hin as [Hlt _].
        unfold lvl, var in Hlt, Hlu. rewrite <- Ha, vidx_opp in Hlt. lia.
      - apply NoDup_singleton. }
    exists s', uip, j. split_and!; try done.
    unfold analyze_derive. rewrite Hc, Hrun. cbn.
    unfold check_learned_clause. cbn.
    assert (forallb (λ lit, val (set_clause (clause s' ++ [- uip]) s') lit <? 0)
                    (clause s' ++ [- uip]) = true) as Hfb.
    { apply forallb_forall. intros a Ha. apply Z.ltb_lt.
      rewrite Forall_forall in Hfalsified.
      destruct (walk_core_var s' s0 a (inv_core _ _ _ Hinv)) as (_ & Hval & _).
      unfold val in *. cbn. rewrite Hval. apply Hfalsified.
      by apply list_elem_of_In. }
    rewrite (assert_true _ Hfb). cbn.
    rewrite (assert_true _ (bool_decide_eq_true_2 _ Hnodup)). done.
Qed.

(** ** Bumping the resolved clauses *)

Lemma stats_set_analyzed_id (st : Stats.t) :
  Stats.set_analyzed (Stats.analyzed st) st = st.
Proof. by destruct st. Qed.

Lemma bump_clause_Done (c : Z) (s : Internal) :
  Clause.have_analyzed (clauses s !!! c) = true →
  bump_clause c s =
  Done (set_clauses
          (<[c := Clause.set_analyzed (Stats.analyzed (stats s) + 1)
                                      (clauses s !!! c)]> (clauses s))
          (set_stats (Stats.set_analyzed (Stats.analyzed (stats s) + 1)
                                         (stats s)) s)).
Proof. intros H. unfold bump_clause. by rewrite H. Qed.

Lemma for_each_bump_clause (l : list Z) :
  ∀ s : Internal,
  NoDup l →
  (∀ c, c ∈ l → Clause.have_analyzed (clauses s !!! c) = true) →
  ∃ s', for_each bump_clause l s = Done s'
    ∧ Stats.analyzed (stats s')
      = Stats.analyzed (stats s) + Z.of_nat (length l)
    ∧ (∀ (k : nat) (c : Z), l !! k = Some c →
         clauses s' !!! c
         = Clause.set_analyzed (Stats.analyzed (stats s) + Z.of_nat k + 1)
                               (clauses s !!! c))
    ∧ (∀ c, c ∉ l → clauses s' !!! c = clauses s !!! c)
    ∧ (∀ c, c ∈ l ∨ is_Some (clauses s !! c) → is_Some (clauses s' !! c))
    ∧ s' = set_clauses (clauses s')
             (set_stats (Stats.set_analyzed (Stats.analyzed (stats s'))
                                            (stats s)) s).
Proof.
  induction l as [|c l IH]; intros s Hnd Hha.
  - exists s. cbn. split_and!; try done; [lia| |].
    + intros c [Hc|Hc]; [by apply elem_of_nil in Hc|done].
    + rewrite stats_set_analyzed_id. by destruct s.
  - apply NoDup_cons in Hnd as [Hc Hnd]. cbn [for_each].
    rewrite (bump_clause_Done c s (Hha c (list_elem_of_here _ _))).
    cbn [mbind outcome_bind].
    set (s1 := set_clauses _ _).
    destruct (IH s1 Hnd) as (s' & Hrun & Hst & Hstamp & Hother & Hdom & Hframe).
    { intros c' Hc'. subst s1. cbn.
      rewrite lookup_total_insert_ne by (intros ->; done).
      apply Hha. by apply list_elem_of_further. }
    exists s'. split_and!.
    + exact Hrun.
    + rewrite Hst. subst s1. cbn. lia.
    + intros [|k] c' Hk; cbn in Hk.
      * injection Hk as <-. rewrite (Hother c Hc). subst s1. cbn.
        rewrite lookup_total_insert_eq. f_equal. lia.
      * rewrite (Hstamp k c' Hk). subst s1. cbn.
        assert (c ≠ c') as Hne.
        { intros ->. apply Hc. by eapply list_elem_of_lookup_2. }
        rewrite lookup_total_insert_ne by done. f_equal. lia.
    + intros c' Hc'. apply not_elem_of_cons in Hc' as [Hne Hc'].
      rewrite (Hother c' Hc'). subst s1. cbn.
      by rewrite lookup_total_insert_ne.
    + intros c' Hc'. apply Hdom. subst s1. cbn.
      rewrite lookup_insert_is_Some.
      destruct (decide (c = c')) as [->|Hne]; [by right; left|].
      destruct Hc' as [Hc'|Hc'].
      * apply elem_of_cons in Hc' as [?|?]; [congruence|by left].
      * right. by right.
    + etransitivity; [exact Hframe|]. subst s1.
      destruct s as [? ? ? ? ? ? ? ? ? ? ? ? ? ? ? ? ? ? st ? ?].
      by destruct st.
Qed.

Lemma sort_analyzed_earlier (s : Internal) (l : list Z) :
  StronglySorted
    (λ a b, Clause.analyzed (clauses s !!! a) ≤ Clause.analyzed (clauses s !!! b))
    (sort (analyzed_earlier s) l).
Proof.
  eapply StronglySorted_impl; [|apply sort_sorted].
  - unfold not_after, analyzed_earlier. intros a b. lia.
  - unfold analyzed_earlier. intros a b. lia.
  - unfold not_after, analyzed_earlier. intros a b c. lia.
Qed.

Lemma bump_resolved_clauses_spec (s : Internal) :
  NoDup (resolved s) →
  (∀ c, c ∈ resolved s → Clause.have_analyzed (clauses s !!! c) = true) →
  ∃ (s' : Internal) (batch : list Z),
    bump_resolved_clauses s = Done s'
    ∧ batch = sort (analyzed_earlier s) (resolved s)
    ∧ (∀ (k : nat) (c : Z), batch !! k = Some c →
         clauses s' !!! c
         = Clause.set_analyzed (Stats.analyzed (stats s) + Z.of_nat k + 1)
                               (clauses s !!! c))
    ∧ (∀ c, c ∉ resolved s → clauses s' !!! c = clauses s !!! c)
    ∧ (∀ c, c ∈ resolved s → is_Some (clauses s' !! c))
    ∧ Stats.analyzed (stats s')
      = Stats.analyzed (stats s) + Z.of_nat (length (resolved s))
    ∧ s' = set_resolved []
             (set_clauses (clauses s')
                (set_stats (Stats.set_analyzed (Stats.analyzed (stats s'))
                                               (stats s)) s)).
Proof.
  intros Hnd Hha. unfold bump_resolved_clauses.
  pose proof (sort_Permutation (analyzed_earlier s) (resolved s)) as Hperm.
  destruct (for_each_bump_clause (sort (analyzed_earlier s) (resolved s))
              (set_resolved (sort (analyzed_earlier s) (resolved s)) s))
    as (s' & Hrun & Hst & Hstamp & Hother & Hdom & Hframe).
  { by rewrite Hperm. }
  { intros c Hc. rewrite Hperm in Hc. by apply Hha. }
  cbn [resolved set_resolved].
  rewrite Hrun. cbn.
  eexists _, _. split_and!; [reflexivity|reflexivity|..].
  - exact Hstamp.
  - intros c Hc. cbn. apply Hother. by rewrite Hperm.
  - intros c Hc. cbn. apply Hdom. left. by rewrite Hperm.
  - cbn. rewrite Hst. cbn. by rewrite Hperm.
  - rewrite Hframe. destruct s as []. cbn. reflexivity.
Qed.

(** ** Statistics, minimization and bumps *)

Lemma bump_variable_untouched (lit : Z) (s : Internal) :
  untouched_by_update (bump_variable lit s) = untouched_by_update s
  ∧ clause (bump_variable lit s) = clause s
  ∧ analyzed (bump_variable lit s) = analyzed s.
Proof.
  unfold bump_variable, update_queue_unassigned.
  repeat case_match; done.
Qed.

Lemma foldl_bump_variable_untouched (l : list Z) (s : Internal) :
  untouched_by_update (foldl (λ s lit, bump_variable lit s) s l)
  = untouched_by_update s
  ∧ clause (foldl (λ s lit, bump_variable lit s) s l) = clause s.
Proof.
  revert s. induction l as [|x l IH]; intros s; cbn; [done|].
  destruct (IH (bump_variable x s)) as [-> ->].
  by destruct (bump_variable_untouched x s) as (-> & -> & _).
Qed.

Lemma bump_variables_untouched (s : Internal) :
  untouched_by_update (bump_variables s) = untouched_by_update s
  ∧ clause (bump_variables s) = clause s
  ∧ analyzed (bump_variables s) ≡ₚ analyzed s.
Proof.
  split_and!.
  - unfold bump_variables.
    rewrite (proj1 (foldl_bump_variable_untouched _ _)).
    by destruct (trail_bump_policy s).
  - unfold bump_variables.
    rewrite (proj2 (foldl_bump_variable_untouched _ _)).
    by destruct (trail_bump_policy s).
  - apply bump_variables_analyzed.
Qed.

Lemma analyze_update_spec (M : Minimizer) (s : Internal) :
  minimizer_contract M →
  ∃ s', analyze_update s
        = Done (s', Z.of_nat (length (levels s)), Z.of_nat (length (clause s')))
    ∧ untouched_by_update s' = untouched_by_update s
    ∧ analyzed s' ≡ₚ analyzed s
    ∧ clause s' ⊆ clause s.
Proof.
  intros HM. unfold analyze_update. cbn zeta.
  cbn [clause opts levels set_stats set_averages].
  match goal with
  | |- context [minimize_clause ?x] => set (sa := x)
  end.
  assert (untouched_by_update sa = untouched_by_update s
          ∧ analyzed sa = analyzed s ∧ clause sa = clause s)
    as (Hua & Haa & Hca) by done.
  assert (∃ sm, (if 1 <? Z.of_nat (length (clause s))
                 then (if Opts.minimize (opts s) then minimize_clause sa
                       else Done sa)
                      ≫= λ s1, Done (s1, Z.of_nat (length (clause s1)))
                 else Done (sa, Z.of_nat (length (clause s))))
                = Done (sm, Z.of_nat (length (clause sm)))
               ∧ untouched_by_update sm = untouched_by_update s
               ∧ analyzed sm = analyzed s
               ∧ clause sm ⊆ clause s) as (sm & -> & Hum & Ham & Hcm).
  { destruct (1 <? _); [destruct (Opts.minimize _)|];
      try (exists sa; split_and!; [by rewrite ?Hca|done|done|by rewrite Hca]).
    destruct (HM sa) as (sm & -> & Hsm & Hsub).
    exists sm. split_and!; [done| | |by rewrite <- Hca].
    - by rewrite Hsm.
    - by rewrite Hsm. }
  cbn [mbind outcome_bind].
  match goal with
  | |- context [bump_variables ?x] =>
      destruct (bump_variables_untouched x) as (Hu & Hc & Ha)
  end.
  eexists. split; [|split_and!].
  - f_equal. f_equal. f_equal. by rewrite Hc.
  - rewrite Hu, <- Hum. reflexivity.
  - rewrite Ha. cbn. by rewrite Ham.
  - rewrite Hc. exact Hcm.
Qed.

(** ** Cleaning up *)

Lemma flags_update_flags (lit a : Z) (f : Flags.t → Flags.t) (s : Internal) :
  flags (update_flags lit f s) a =
  if decide (vidx lit = vidx a) then f (flags s lit) else flags s a.
Proof.
  unfold update_flags, flags. cbn. case_decide as E.
  - rewrite E. apply lookup_total_insert_eq.
  - by apply lookup_total_insert_ne.
Qed.

Lemma clear_seen_flag_Done (lit : Z) (s s' : Internal) :
  clear_seen_flag lit s = Done s' ↔
  flags_as_asserted s lit ∧ s' = update_flags lit (Flags.set_seen false) s.
Proof.
  unfold clear_seen_flag, flags_as_asserted.
  destruct (Flags.seen (flags s lit)), (Flags.keep (flags s lit)),
    (Flags.poison (flags s lit)), (Flags.removable (flags s lit)); cbn;
    split; try (intros [= <-]; done); try (intros [(? & ? & ? & ?) ?]; done).
  intros [_ ->]. done.
Qed.

Lemma for_each_clear_seen_flag_asserted (l : list Z) :
  ∀ s s', for_each clear_seen_flag l s = Done s' →
  ∀ lit, lit ∈ l → flags_as_asserted s lit.
Proof.
  induction l as [|a l IH]; intros s s' Hrun lit Hin.
  - by apply elem_of_nil in Hin.
  - cbn [for_each] in Hrun. apply bind_Done in Hrun as (s1 & Ha & Hrun).
    apply clear_seen_flag_Done in Ha as [Ha ->].
    apply elem_of_cons in Hin as [->|Hin]; [done|].
    pose proof (IH _ _ Hrun lit Hin) as (H1 & H2 & H3 & H4).
    rewrite flags_update_flags in H1, H2, H3, H4.
    unfold flags_as_asserted. case_decide as E; [done|]. done.
Qed.

Lemma for_each_clear_seen_flag_Done (l : list Z) :
  ∀ s, NoDup (vidx <$> l) →
  (∀ lit, lit ∈ l → flags_as_asserted s lit) →
  ∃ ft, for_each clear_seen_flag l s = Done (set_ftab ft s)
    ∧ ∀ x, ft !!! x =
           if decide (x ∈ vidx <$> l)
           then Flags.set_seen false (ftab s !!! x) else ftab s !!! x.
Proof.
  induction l as [|a l IH]; intros s Hnd Hall.
  - exists (ftab s). split; [by destruct s|]. intros x.
    rewrite decide_False; [done|]. apply not_elem_of_nil.
  - rewrite fmap_cons in Hnd. apply NoDup_cons in Hnd as [Ha Hnd].
    cbn [for_each].
    pose proof (proj2 (clear_seen_flag_Done a s _)
                  (conj (Hall a (list_elem_of_here _ _)) eq_refl)) as ->.
    cbn [mbind outcome_bind].
    destruct (IH (update_flags a (Flags.set_seen false) s) Hnd)
      as (ft & Hrun & Hft).
    { intros lit Hin. unfold flags_as_asserted.
      rewrite flags_update_flags, decide_False.
      - apply Hall. by apply list_elem_of_further.
      - intros E. apply Ha. rewrite E. by apply list_elem_of_fmap_2. }
    exists ft. split; [rewrite Hrun; by destruct s|].
    intros x. rewrite Hft. cbn [ftab update_flags set_ftab].
    rewrite fmap_cons.
    destruct (decide (x = vidx a)) as [->|Hne].
    + rewrite lookup_total_insert_eq, decide_False by done.
      rewrite decide_True by apply list_elem_of_here. done.
    + rewrite lookup_total_insert_ne by done.
      destruct (decide (x ∈ vidx <$> l)) as [Hin|Hin].
      * by rewrite decide_True by (by apply list_elem_of_further).
      * rewrite decide_False; [done|].
        intros Hin'. apply elem_of_cons in Hin' as [?|?]; done.
Qed.


Lemma clear_seen_asserted (s s' : Internal) :
  clear_seen s = Done s' →
  ∀ lit, lit ∈ analyzed s → flags_as_asserted s lit.
Proof.
  unfold clear_seen. intros Hrun.
  apply bind_Done in Hrun as (s1 & Hrun & _).
  by eapply for_each_clear_seen_flag_asserted.
Qed.

Lemma clear_seen_Done (s : Internal) :
  NoDup (vidx <$> analyzed s) →
  (∀ lit, lit ∈ analyzed s → flags_as_asserted s lit) →
  ∃ ft, clear_seen s = Done (set_analyzed [] (set_ftab ft s))
    ∧ ∀ x, ft !!! x =
           if decide (x ∈ vidx <$> analyzed s)
           then Flags.set_seen false (ftab s !!! x) else ftab s !!! x.
Proof.
  intros Hnd Hall. unfold clear_seen.
  destruct (for_each_clear_seen_flag_Done _ s Hnd Hall) as (ft & -> & Hft).
  by exists ft.
Qed.

Lemma clear_levels_spec (s : Internal) :
  clear_levels s = set_levels [] (set_control (control (clear_levels s)) s)
  ∧ ∀ l, control (clear_levels s) !!! l =
         if decide (l ∈ levels s) then Level.reset else control s !!! l.
Proof.
  unfold clear_levels.
  assert (∀ ls s,
    foldl (λ s l, set_control (<[l := Level.reset]> (control s)) s) s ls
    = set_control
        (control (foldl (λ s l, set_control (<[l := Level.reset]> (control s)) s)
                        s ls)) s
    ∧ ∀ l, control (foldl (λ s l, set_control (<[l := Level.reset]> (control s)) s)
                          s ls) !!! l
           = if decide (l ∈ ls) then Level.reset else control s !!! l) as H.
  { induction ls as [|a ls IH]; intros s1; cbn [foldl].
    - split; [by destruct s1|]. intros l.
      rewrite decide_False; [done|]. apply not_elem_of_nil.
    - destruct (IH (set_control (<[a := Level.reset]> (control s1)) s1))
        as [Heq Hl].
      split; [rewrite Heq at 1; by destruct s1|].
      intros l. rewrite Hl. cbn [control set_control].
      destruct (decide (l ∈ ls)) as [Hin|Hin].
      + by rewrite decide_True by (by apply list_elem_of_further).
      + destruct (decide (a = l)) as [->|Hne].
        * rewrite lookup_total_insert_eq.
          by rewrite decide_True by apply list_elem_of_here.
        * rewrite lookup_total_insert_ne by done.
          rewrite decide_False; [done|].
          intros Hin'. apply elem_of_cons in Hin' as [?|?]; done. }
  destruct (H (levels s) s) as [Heq Hl]. split.
  - cbn [control set_levels]. rewrite Heq at 1. by destruct s.
  - intros l. cbn [control set_levels]. apply Hl.
Qed.

Lemma analyze_cleanup_spec (s : Internal) :
  cleanup_ready s →
  ∃ s', analyze_cleanup s = Done s'
    ∧ (∀ x, ftab s' !!! x = Flags.set_seen false (ftab s !!! x))
    ∧ (∀ l, control s' !!! l = Level.reset)
    ∧ clause s' = [] ∧ analyzed s' = [] ∧ levels s' = []
    ∧ conflict s' = None
    ∧ untouched_by_cleanup s' = untouched_by_cleanup s.
Proof.
  intros [Hnd Hseen Hfl Hctl].
  destruct (clear_seen_Done s Hnd) as (ft & Hrun & Hft).
  { intros lit Hin. destruct (Hfl (vidx lit)) as (? & ? & ?).
    split_and!; try done. apply Hseen. by apply list_elem_of_fmap_2. }
  unfold analyze_cleanup. rewrite Hrun. cbn [mbind outcome_bind].
  eexists. split; [reflexivity|].
  set (s1 := set_clause [] _).
  destruct (clear_levels_spec s1) as [Heq Hl].
  cbn [ftab control clause analyzed levels conflict set_conflict].
  rewrite Heq. cbn. split_and!; try done.
  - intros x. rewrite Hft. case_decide as Hin; [done|].
    destruct (Flags.seen (ftab s !!! x)) eqn:E.
    + by apply Hseen in E.
    + by destruct (ftab s !!! x); cbn in *; subst.
  - intros l. rewrite Hl. subst s1. cbn. case_decide; [done|]. by apply Hctl.
Qed.

(** ** Backtracking and assigning *)

Lemma unassign_above_spec (target : Z) (vt : gmap Z Var.t) (rtrail : list Z) :
  ∀ vs : gmap Z Z,
  ∃ (removed kept : list Z) (vs' : gmap Z Z),
    unassign_above target vt rtrail vs = (kept, vs')
    ∧ rtrail = removed ++ kept
    ∧ (∀ lit, lit ∈ removed → target < Var.level (vt !!! vidx lit))
    ∧ (∀ lit, head kept = Some lit → Var.level (vt !!! vidx lit) ≤ target)
    ∧ (∀ x, vs' !!! x =
            if decide (x ∈ vidx <$> removed) then 0 else vs !!! x).
Proof.
  induction rtrail as [|lit rest IH]; intros vs; cbn.
  - exists [], [], vs. split_and!; try done;
      try (intros ? Hin; by apply elem_of_nil in Hin).
  - destruct (Z.ltb_spec target (Var.level (vt !!! vidx lit))) as [Hlt|Hge].
    + destruct (IH (<[vidx lit := 0]> vs))
        as (removed & kept & vs' & -> & -> & Hrem & Hkept & Hvs).
      exists (lit :: removed), kept, vs'. split_and!; try done.
      * intros a Ha. apply elem_of_cons in Ha as [->|Ha]; [done|by apply Hrem].
      * intros x. rewrite Hvs, fmap_cons.
        destruct (decide (x ∈ vidx <$> removed)) as [Hin|Hin].
        -- by rewrite decide_True by (by apply list_elem_of_further).
        -- destruct (decide (x = vidx lit)) as [->|Hne].
           ++ rewrite lookup_total_insert_eq.
              by rewrite decide_True by apply list_elem_of_here.
           ++ rewrite lookup_total_insert_ne by done.
              rewrite decide_False; [done|].
              intros Hin'. apply elem_of_cons in Hin' as [?|?]; done.
    + exists [], (lit :: rest), vs. split_and!; try done;
        try (intros ? Hin; by apply elem_of_nil in Hin).
      cbn. intros a [= <-]. done.
Qed.

Lemma backtrack_spec (target : Z) (s : Internal) :
  ∃ (kept removed : list Z) (vs' : gmap Z Z),
    backtrack target s
    = set_level target
        (set_control (filter (λ kv, kv.1 ≤ target) (control s))
           (set_vals vs' (set_trail kept s)))
    ∧ trail s = kept ++ removed
    ∧ (∀ lit, lit ∈ removed → target < lvl s lit)
    ∧ (∀ lit, last kept = Some lit → lvl s lit ≤ target)
    ∧ (∀ x, vs' !!! x =
            if decide (x ∈ vidx <$> removed) then 0 else vals s !!! x).
Proof.
  unfold backtrack.
  destruct (unassign_above_spec target (vtab s) (reverse (trail s)) (vals s))
    as (removed & kept & vs' & -> & Hrev & Hrem & Hkept & Hvs).
  exists (reverse kept), (reverse removed), vs'. split_and!.
  - reflexivity.
  - rewrite <- reverse_app, <- Hrev. by rewrite reverse_involutive.
  - intros lit Hin. unfold lvl, var. apply Hrem. by apply elem_of_reverse.
  - intros lit Hl. rewrite last_reverse in Hl. unfold lvl, var. by apply Hkept.
  - intros x. rewrite Hvs, fmap_reverse.
    destruct (decide (x ∈ vidx <$> removed)) as [Hin|Hin].
    + rewrite decide_True; [done|]. by apply elem_of_reverse.
    + rewrite decide_False; [done|]. intros Hin'.
      by rewrite elem_of_reverse in Hin'.
Qed.

Lemma control_filter_reset (target l : Z) (ctl : gmap Z Level.t) :
  ctl !!! l = Level.reset →
  filter (λ kv : Z * Level.t, kv.1 ≤ target) ctl !!! l = Level.reset.
Proof.
  unfold lookup_total, map_lookup_total. intros Hl.
  destruct (filter _ ctl !! l) as [x|] eqn:E; [|done].
  apply map_lookup_filter_Some in E as [E _]. by rewrite E in Hl.
Qed.

Lemma sort_length {A} (less : A → A → bool) (l : list A) :
  length (sort less l) = length l.
Proof. apply Permutation_length, sort_Permutation. Qed.

Lemma trace_set_proof (line : ProofLine) (s : Internal) :
  trace line s = set_proof ((λ lines, lines ++ [line]) <$> proof s) s.
Proof.
  unfold trace. destruct s as [? ? ? ? ? ? ? ? ? ? ? ? ? ? ? ? ? pr ? ? ?].
  cbn. by destruct pr.
Qed.

(** The branch of a clause with more than one literal. *)
Lemma analyze_backjump_driving (uip glue size : Z) (s : Internal) :
  1 < size → (1 < length (clause s))%nat →
  ∃ (second : Z) (kept removed : list Z) (vs' : gmap Z Z),
    sort (trail_larger s) (clause s) !! 1%nat = Some second
    ∧ trail s = kept ++ removed
    ∧ (∀ lit, lit ∈ removed → lvl s second < lvl s lit)
    ∧ (∀ lit, last kept = Some lit → lvl s lit ≤ lvl s second)
    ∧ (∀ x, vs' !!! x =
            if decide (x ∈ vidx <$> removed) then 0 else vals s !!! x)
    ∧ analyze_backjump uip glue size s
      = Done
          (set_trail (kept ++ [- uip])
             (set_vals (<[vidx (- uip) := if - uip <? 0 then -1 else 1]> vs')
                (set_vtab
                   (<[vidx (- uip) :=
                        Var.mk (lvl s second) (Z.of_nat (length kept))
                               (Some (fresh (dom (clauses s))))]> (vtab s))
                   (set_level (lvl s second)
                      (set_control
                         (filter (λ kv, kv.1 ≤ lvl s second) (control s))
                         (set_averages
                            (Averages.update_jump_avg (lvl s second)
                                                      (averages s))
                            (set_clauses
                               (<[fresh (dom (clauses s)) :=
                                    Clause.mk true false false false 0 glue
                                      (sort (trail_larger s) (clause s))]>
                                  (clauses s))
                               (set_clause (sort (trail_larger s) (clause s))
                                           s)))))))).
Proof.
  intros Hsize Hlen.
  destruct (lookup_lt_is_Some_2 (sort (trail_larger s) (clause s)) 1)
    as [second Hsecond]; [by rewrite sort_length|].
  unfold analyze_backjump. rewrite (proj2 (Z.ltb_lt _ _) Hsize).
  unfold new_learned_redundant_clause. cbn zeta.
  cbn [clause set_clause set_clauses clauses]. rewrite Hsecond.
  match goal with
  | |- context [backtrack ?t ?x] =>
      destruct (backtrack_spec t x)
        as (kept & removed & vs' & -> & Htr & Hrem & Hkept & Hvs)
  end.
  exists second, kept, removed, vs'. split_and!; try done.
Qed.

(** The branch of a unit. *)
Lemma analyze_backjump_unit (uip glue size : Z) (s : Internal) :
  ¬ 1 < size → Flags.status (flags s (- uip)) = ACTIVE →
  ∃ (kept removed : list Z) (vs' : gmap Z Z),
    trail s = kept ++ removed
    ∧ (∀ lit, lit ∈ removed → 0 < lvl s lit)
    ∧ (∀ lit, last kept = Some lit → lvl s lit ≤ 0)
    ∧ (∀ x, vs' !!! x =
            if decide (x ∈ vidx <$> removed) then 0 else vals s !!! x)
    ∧ analyze_backjump uip glue size s
      = Done
          (set_trail (kept ++ [- uip])
             (set_vals (<[vidx (- uip) := if - uip <? 0 then -1 else 1]> vs')
                (set_vtab
                   (<[vidx (- uip) :=
                        Var.mk 0 (Z.of_nat (length kept)) None]> (vtab s))
                   (set_stats
                      (Stats.set_fixed (Stats.fixed (stats s) + 1) (stats s))
                      (set_ftab
                         (<[vidx (- uip) :=
                              Flags.set_status FIXED (flags s (- uip))]>
                            (ftab s))
                         (set_proof
                            ((λ lines, lines ++ [trace_unit_clause (- uip)])
                               <$> proof s)
                            (set_level 0
                               (set_control
                                  (filter (λ kv, kv.1 ≤ 0) (control s))
                                  (set_averages
                                     (Averages.update_jump_avg 0 (averages s))
                                     (set_iterating true s)))))))))).
Proof.
  intros Hsize Hact.
  unfold analyze_backjump. rewrite (proj2 (Z.ltb_nlt _ _) Hsize).
  cbn zeta.
  match goal with
  | |- context [backtrack ?t ?x] =>
      destruct (backtrack_spec t x)
        as (kept & removed & vs' & -> & Htr & Hrem & Hkept & Hvs)
  end.
  exists kept, removed, vs'. split_and!; try done.
  unfold assign_unit, learn_unit_clause. rewrite trace_set_proof.
  cbn zeta. unfold Flags.active, update_flags, flags in *. cbn.
  rewrite Hact. rewrite bool_decide_eq_true_2 by done. cbn. done.
Qed.

(** ** The analysis as a whole *)

Lemma cleanup_ready_frame (s s' : Internal) :
  cleanup_ready s →
  analyzed s' ≡ₚ analyzed s → levels s' = levels s →
  (∀ x, Flags.set_status UNASSIGNED (ftab s' !!! x)
        = Flags.set_status UNASSIGNED (ftab s !!! x)) →
  (∀ l, control s !!! l = Level.reset → control s' !!! l = Level.reset) →
  cleanup_ready s'.
Proof.
  intros [Hnd Hseen Hfl Hctl] Han Hlev Hft Hc.
  assert (∀ x, Flags.seen (ftab s' !!! x) = Flags.seen (ftab s !!! x)
             ∧ Flags.keep (ftab s' !!! x) = Flags.keep (ftab s !!! x)
             ∧ Flags.poison (ftab s' !!! x) = Flags.poison (ftab s !!! x)
             ∧ Flags.removable (ftab s' !!! x) = Flags.removable (ftab s !!! x))
    as Hsame.
  { intros x. specialize (Hft x).
    destruct (ftab s' !!! x), (ftab s !!! x). cbn in *.
    by injection Hft as -> -> -> ->. }
  split.
  - by rewrite Han.
  - intros x. destruct (Hsame x) as (-> & _). by rewrite Han.
  - intros x. destruct (Hsame x) as (_ & -> & -> & ->). apply Hfl.
  - intros l Hl. rewrite Hlev in Hl. auto.
Qed.

Lemma analyze_pipeline (M : Minimizer) (s : Internal) :
  minimizer_contract M → well_formed s → scratch_clean s →
  ∃ (sw : Internal) (uip : Z) (j : nat) (s2 s3 : Internal),
    walk_invariant s sw j
    ∧ trail s !! j = Some uip
    ∧ lvl s uip = level s
    ∧ - uip ∈ analyzed sw
    ∧ Forall (λ lit, val s lit < 0) (clause sw ++ [- uip])
    ∧ NoDup (vidx <$> clause sw ++ [- uip])
    ∧ analyze_derive s = Done (set_clause (clause sw ++ [- uip]) sw, uip)
    ∧ NoDup (resolved sw)
    ∧ (∀ c, c ∈ resolved sw → Clause.have_analyzed (clauses sw !!! c) = true)
    ∧ bump_resolved_clauses (set_clause (clause sw ++ [- uip]) sw) = Done s2
    ∧ analyze_update s2
      = Done (s3, Z.of_nat (length (levels sw)), Z.of_nat (length (clause s3)))
    ∧ untouched_by_update s3 = untouched_by_update s2
    ∧ untouched_before_backjump s3 = untouched_before_backjump s
    ∧ resolved s3 = []
    ∧ analyzed s3 ≡ₚ analyzed sw
    ∧ clause s3 ⊆ clause sw ++ [- uip]
    ∧ cleanup_ready s3
    ∧ Flags.status (flags s3 (- uip)) = ACTIVE
    ∧ analyze s
      = (s4 ← analyze_backjump uip (Z.of_nat (length (levels sw)))
                               (Z.of_nat (length (clause s3))) s3;
         analyze_cleanup s4).
Proof.
  intros HM Hwf Hclean.
  destruct (analyze_derive_spec s Hwf Hclean)
    as (sw & uip & j & Hderive & Hinv & Hju & Hlu & Hua & _ & Hnd & Hfalse
        & Hnodup).
  set (s1 := set_clause (clause sw ++ [- uip]) sw) in *.
  assert (∀ c, c ∈ resolved sw → Clause.have_analyzed (clauses sw !!! c) = true)
    as Hha.
  { intros c Hc. destruct (inv_resolved_ok _ _ _ Hinv c Hc) as [Hh _].
    destruct (clause_fields_but_used _ _ (inv_clauses _ _ _ Hinv c))
      as (_ & _ & -> & _). done. }
  destruct (bump_resolved_clauses_spec s1 Hnd Hha)
    as (s2 & batch & Hcommit & _ & _ & _ & _ & _ & Hs2).
  destruct (analyze_update_spec M s2 HM) as (s3 & Hupdate & Hu3 & Ha3 & Hc3).
  assert (levels s2 = levels sw ∧ analyzed s2 = analyzed sw
          ∧ clause s2 = clause sw ++ [- uip] ∧ ftab s2 = ftab sw
          ∧ control s2 = control sw) as (Hl2 & Ha2 & Hc2 & Hf2 & Hctl2).
  { rewrite Hs2. done. }
  assert (levels s3 = levels sw ∧ ftab s3 = ftab sw ∧ control s3 = control sw)
    as (Hl3 & Hf3 & Hctl3).
  { unfold untouched_by_update in Hu3. injection Hu3 as. split_and!; congruence. }
  rewrite Hl2 in Hupdate. rewrite Ha2 in Ha3. rewrite Hc2 in Hc3.
  destruct (wf_trail_entry _ Hwf j uip Hju) as (Hu0 & _ & _ & _).
  pose proof (wf_level _ Hwf) as HL.
  assert (∀ x, Flags.set_seen false (ftab sw !!! x) = ftab s !!! x) as Hflags.
  { intros x. rewrite (inv_flags _ _ _ Hinv x).
    destruct (clean_flags _ Hclean x) as (Hs & _).
    destruct (ftab s !!! x). cbn in *. by subst. }
  exists sw, uip, j, s2, s3. split_and!; try done.
  - pose proof (inv_core _ _ _ Hinv) as Hcore.
    unfold untouched_by_walk in Hcore. injection Hcore as.
    unfold untouched_by_update in Hu3. injection Hu3 as.
    assert (untouched_before_backjump s2 = untouched_before_backjump sw)
      as Hs2' by (rewrite Hs2; done).
    unfold untouched_before_backjump in *. injection Hs2' as.
    congruence.
  - unfold untouched_by_update in Hu3. injection Hu3 as.
    assert (resolved s2 = []) as Hr2 by (rewrite Hs2; done). congruence.
  - split.
    + rewrite Ha3. apply (inv_nodup _ _ _ Hinv).
    + intros x. rewrite Hf3, Ha3. apply (inv_seen _ _ _ Hinv).
    + intros x. rewrite Hf3. destruct (clean_flags _ Hclean x) as (_ & ? & ? & ?).
      rewrite <- (Hflags x) in *. by destruct (ftab sw !!! x).
    + intros l. rewrite Hl3, Hctl3. apply (inv_levels _ _ _ Hinv).
  - unfold flags. rewrite Hf3, vidx_opp.
    assert (Flags.status (ftab s !!! vidx uip) = ACTIVE) as Hact.
    { apply (wf_active _ Hwf j uip Hju). lia. }
    rewrite <- (Hflags (vidx uip)) in Hact. by destruct (ftab sw !!! vidx uip).
  - unfold analyze.
    destruct (wf_conflict _ Hwf) as (c & Hc & _). rewrite Hc.
    rewrite assert_true by (apply bool_decide_eq_true_2; eauto).
    cbn [mbind outcome_bind].
    rewrite (proj2 (Z.eqb_neq _ _)) by lia.
    rewrite Hderive. cbn [mbind outcome_bind].
    fold s1. rewrite Hcommit. cbn [mbind outcome_bind].
    rewrite Hupdate. reflexivity.
Qed.

Lemma analyze_backjump_ready (uip glue : Z) (s : Internal) :
  cleanup_ready s → Flags.status (flags s (- uip)) = ACTIVE →
  ∃ s4, analyze_backjump uip glue (Z.of_nat (length (clause s))) s = Done s4
    ∧ cleanup_ready s4
    ∧ analyzed s4 = analyzed s ∧ levels s4 = levels s
    ∧ resolved s4 = resolved s
    ∧ Stats.analyzed (stats s4) = Stats.analyzed (stats s)
    ∧ (∀ c, is_Some (clauses s !! c) → clauses s4 !!! c = clauses s !!! c).
Proof.
  intros Hready Hact.
  destruct (decide (1 < Z.of_nat (length (clause s)))) as [Hsize|Hsize].
  - assert (1 < length (clause s))%nat as Hlen by lia.
    destruct (analyze_backjump_driving uip glue _ s Hsize Hlen)
      as (second & kept & removed & vs' & _ & _ & _ & _ & _ & Hrun).
    rewrite Hrun.
    eexists. split; [reflexivity|]. cbn. split_and!; try done.
    + eapply cleanup_ready_frame; [exact Hready|done..|].
      cbn. intros l. apply control_filter_reset.
    + intros c Hc. rewrite lookup_total_insert_ne; [done|].
      intros <-. apply elem_of_dom in Hc. by apply is_fresh in Hc.
  - destruct (analyze_backjump_unit uip glue _ s Hsize Hact)
      as (kept & removed & vs' & _ & _ & _ & _ & Hrun).
    rewrite Hrun.
    eexists. split; [reflexivity|]. cbn. split_and!; try done.
    eapply cleanup_ready_frame; [exact Hready|done..| |].
    + cbn. intros x. destruct (decide (vidx (- uip) = x)) as [<-|Hne].
      * rewrite lookup_total_insert_eq. unfold flags.
        by destruct (ftab s !!! vidx (- uip)).
      * by rewrite lookup_total_insert_ne.
    + cbn. intros l. apply control_filter_reset.
Qed.

(** On a well-formed conflict with clean scratch state the analysis
    completes. *)
Lemma analyze_completes (M : Minimizer) (s : Internal) :
  minimizer_contract M → well_formed s → scratch_clean s →
  ∃ (s1 : Internal) (uip : Z) (s2 s3 : Internal) (glue : Z) (s4 s' : Internal),
    analyze_derive s = Done (s1, uip)
    ∧ bump_resolved_clauses s1 = Done s2
    ∧ analyze_update s2 = Done (s3, glue, Z.of_nat (length (clause s3)))
    ∧ analyze_backjump uip glue (Z.of_nat (length (clause s3))) s3 = Done s4
    ∧ analyze_cleanup s4 = Done s'
    ∧ analyze s = Done s'
    ∧ untouched_by_update s3 = untouched_by_update s2
    ∧ cleanup_ready s3 ∧ cleanup_ready s4
    ∧ Flags.status (flags s3 (- uip)) = ACTIVE
    ∧ resolved s4 = resolved s3
    ∧ Stats.analyzed (stats s4) = Stats.analyzed (stats s3)
    ∧ (∀ c, is_Some (clauses s3 !! c) → clauses s4 !!! c = clauses s3 !!! c).
Proof.
  intros HM Hwf Hclean.
  destruct (analyze_pipeline M s HM Hwf Hclean)
    as (sw & uip & j & s2 & s3 & _ & _ & _ & _ & _ & _ & Hderive & _ & _
        & Hcommit & Hupdate & Hu3 & _ & _ & _ & _ & Hready & Hact & Hanalyze).
  destruct (analyze_backjump_ready uip (Z.of_nat (length (levels sw))) s3
              Hready Hact)
    as (s4 & Hjump & Hready4 & _ & _ & Hres & Hst & Hcl).
  destruct (analyze_cleanup_spec s4 Hready4) as (s' & Hclean' & _).
  exists (set_clause (clause sw ++ [- uip]) sw), uip, s2, s3,
    (Z.of_nat (length (levels sw))), s4, s'.
  split_and!; try done.
  rewrite Hanalyze, Hjump. exact Hclean'.
Qed.

(** ** The scenarios are well formed *)

Ltac trail_entries :=
  repeat match goal with
  | H : (_ :: _) !! ?i = Some _ |- _ => destruct i as [|i]; cbn in H
  | H : [] !! _ = Some _ |- _ => discriminate H
  | H : Some _ = Some _ |- _ => injection H as <-
  end.

Ltac compute_reason :=
  match goal with
  | |- match ?r with Some _ => _ | None => _ end =>
      let v := eval vm_compute in r in change r with v; cbv iota beta
  end.

Lemma identity_minimizer_contract :
  minimizer_contract Scenario.identity_minimizer.
Proof. intros s. exists s. split_and!; [done | by destruct s | done]. Qed.

Lemma scratch_clean_flags_empty (s : Internal) :
  map_Forall (λ _ f, Flags.seen f = false ∧ Flags.keep f = false
                     ∧ Flags.poison f = false ∧ Flags.removable f = false)
             (ftab s) →
  control s = ∅ → clause s = [] → analyzed s = [] → levels s = [] →
  resolved s = [] → scratch_clean s.
Proof.
  intros Hft Hctl ? ? ? ?. split; try done.
  - intros x. unfold lookup_total, map_lookup_total.
    destruct (ftab s !! x) as [f|] eqn:E; [|done]. exact (Hft x f E).
  - intros l. rewrite Hctl. by rewrite lookup_total_empty.
Qed.

Lemma conflict_on_level_two_clean :
  scratch_clean Scenario.conflict_on_level_two.
Proof.
  apply scratch_clean_flags_empty; try reflexivity.
  apply (bool_decide_unpack _). by vm_compute.
Qed.

Lemma conflict_on_level_two_well_formed :
  well_formed Scenario.conflict_on_level_two.
Proof.
  split.
  - by vm_compute.
  - apply (bool_decide_unpack _). by vm_compute.
  - intros i lit H. cbn in H. trail_entries; by vm_compute.
  - intros i j a b Hij Hi Hj. cbn in Hi, Hj.
    trail_entries; try lia; by vm_compute.
  - exists 11. split_and!; [done| |].
    + apply (bool_decide_unpack _). by vm_compute.
    + apply (bool_decide_unpack _). by vm_compute.
  - intros i lit H Hl. cbn in H.
    trail_entries; try (by vm_compute in Hl); compute_reason.
    + intros j other Hj Ho. cbn in Ho. trail_entries; try lia. by vm_compute.
    + change (Forall
                (λ other, other ≠ 3 →
                   other ≠ 0 ∧ ∃ p : nat, (p < 2)%nat
                     ∧ [1; 2; 3] !! p = Some (- other)) [-1; -2; 3]).
      apply Forall_cons. split; [intros _; split; [done|exists 0%nat; split; [lia|reflexivity]]|].
      apply Forall_cons. split; [intros _; split; [done|exists 1%nat; split; [lia|reflexivity]]|].
      apply Forall_cons. split; [done|]. by apply Forall_nil.
  - intros i j a b r Hi Hj Ha Hb. cbn in Hi, Hj.
    trail_entries; try done; by vm_compute in Ha, Hb.
  - intros i a H. cbn in H. trail_entries; by vm_compute.
  - intros i lit H _. cbn in H. trail_entries; by vm_compute.
Qed.

Lemma unit_conflict_clean : scratch_clean Scenario.unit_conflict.
Proof.
  apply scratch_clean_flags_empty; try reflexivity.
  apply (bool_decide_unpack _). by vm_compute.
Qed.

Lemma unit_conflict_well_formed : well_formed Scenario.unit_conflict.
Proof.
  split.
  - by vm_compute.
  - apply (bool_decide_unpack _). by vm_compute.
  - intros i lit H. cbn in H. trail_entries; by vm_compute.
  - intros i j a b Hij Hi Hj. cbn in Hi, Hj.
    trail_entries; try lia; by vm_compute.
  - exists 11. split_and!; [done| |].
    + apply (bool_decide_unpack _). by vm_compute.
    + apply (bool_decide_unpack _). by vm_compute.
  - intros i lit H Hl. cbn in H.
    trail_entries; try (by vm_compute in Hl); compute_reason.
    + intros j other Hj Ho. cbn in Ho. trail_entries; try lia. by vm_compute.
    + change (Forall
                (λ other, other ≠ 2 →
                   other ≠ 0 ∧ ∃ p : nat, (p < 2)%nat
                     ∧ [3; 1; 2] !! p = Some (- other)) [-1; 2]).
      apply Forall_cons. split; [intros _; split; [done|exists 1%nat; split; [lia|reflexivity]]|].
      apply Forall_cons. split; [done|]. by apply Forall_nil.
  - intros i j a b r Hi Hj Ha Hb. cbn in Hi, Hj.
    trail_entries; try done; by vm_compute in Ha, Hb.
  - intros i a H. cbn in H. trail_entries; by vm_compute.
  - intros i lit H Hl. cbn in H. trail_entries; by vm_compute.
Qed.

(** ** The claims on the learned clause and on clause candidates *)

Lemma analyze_without_decision_witness :
  ∃ s', analyze (M := Scenario.identity_minimizer)
          Scenario.conflict_without_decision = Done s'
    ∧ unsat s' = true
    ∧ proof s' = (λ lines, lines ++ [trace_empty_clause])
                   <$> proof Scenario.conflict_without_decision
    ∧ s' = set_unsat true (set_proof (proof s')
                                     Scenario.conflict_without_decision).
Proof.
  apply (analyze_without_decision Scenario.identity_minimizer
           Scenario.conflict_without_decision).
  - by eexists.
  - reflexivity.
  - reflexivity.
Defined.

(** The walk on the scenario: the clause [-1 -2] with first UIP [2]. *)
Example first_uip_clause_on_level_two :
  (λ r : Internal * Z, (clause r.1, r.2)) <$>
    (match analyze_derive Scenario.conflict_on_level_two with
     | Done r => Some r
     | Abort _ => None
     end) = Some ([-1; -2], 2).
Proof. by vm_compute. Qed.

(** C8, as stated, fails for an irredundant clause that took part in
    hyper binary resolution: the function returns before it looks at that
    flag, and the clause is not marked as used. *)
Lemma save_as_resolved_clause_skips_irredundant :
  ¬ used_whenever_hbr 12 Scenario.irredundant_hbr_clause.
Proof.
  unfold used_whenever_hbr. intros H. vm_compute in H.
  by specialize (H eq_refl).
Qed.

(** C8, amended: a reason clause offered to the tracker joins the
    resolved batch exactly when it is redundant and has a time stamp slot;
    it is marked as used exactly when it is redundant and took part in
    hyper binary resolution, with or without slot and so whether or not
    it joins the batch.  Nothing else changes. *)
Theorem save_as_resolved_clause_spec (c : Z) (s : Internal) :
  resolved (save_as_resolved_clause c s)
  = (if Clause.redundant (clauses s !!! c)
        && Clause.have_analyzed (clauses s !!! c)
     then resolved s ++ [c] else resolved s)
  ∧ clauses (save_as_resolved_clause c s) !!! c
    = (if Clause.redundant (clauses s !!! c) && Clause.hbr (clauses s !!! c)
       then Clause.set_used true (clauses s !!! c) else clauses s !!! c)
  ∧ (∀ c', c' ≠ c →
       clauses (save_as_resolved_clause c s) !!! c' = clauses s !!! c')
  ∧ save_as_resolved_clause c s
    = set_resolved (resolved (save_as_resolved_clause c s))
        (set_clauses (clauses (save_as_resolved_clause c s)) s).
Proof.
  unfold save_as_resolved_clause.
  destruct (Clause.redundant (clauses s !!! c)); cbn [negb andb];
    [|by split_and!; [| | |destruct s]].
  destruct (Clause.hbr (clauses s !!! c)); cbn [clauses set_clauses].
  - rewrite lookup_total_insert_eq. cbn [Clause.have_analyzed Clause.set_used].
    destruct (Clause.have_analyzed (clauses s !!! c)); cbn [negb];
      (split_and!; cbn;
       [ done | by rewrite lookup_total_insert_eq
       | by intros c' Hc'; rewrite lookup_total_insert_ne | by destruct s ]).
  - destruct (Clause.have_analyzed (clauses s !!! c)); cbn [negb];
      (split_and!; cbn; [ done | done | done | by destruct s ]).
Qed.

(** ** The claims on the analysis as a whole *)

(** C9, as stated, fails below the first decision: [analyze] returns
    right after the empty clause is learned and the conflict reference
    stays as it is. *)
Lemma analyze_without_decision_keeps_conflict :
  ∃ s', analyze (M := Scenario.identity_minimizer)
          Scenario.conflict_without_decision = Done s'
    ∧ conflict s' ≠ None.
Proof. eexists. split; [by vm_compute | done]. Qed.

(** C9, amended: an invocation of [analyze] above level 0, on a
    well-formed conflict and with clean scratch state, completes and
    leaves the scratch state clean: no seen flag is set, the analyzed
    batch, the list of levels, the clause buffer and the resolved batch
    are empty, the level records are reset, those of the touched levels
    in particular, and the conflict reference is cleared.  When the clean
    up starts, every member of the analyzed batch has its seen flag set
    and none of keep, poison and removable. *)
Theorem analyze_cleans_up (M : Minimizer) (s : Internal) :
  minimizer_contract M → well_formed s → scratch_clean s →
  ∃ (s1 : Internal) (uip : Z) (s2 s3 : Internal) (glue size : Z)
    (s4 s' : Internal),
    analyze_derive s = Done (s1, uip)
    ∧ bump_resolved_clauses s1 = Done s2
    ∧ analyze_update s2 = Done (s3, glue, size)
    ∧ analyze_backjump uip glue size s3 = Done s4
    ∧ analyze_cleanup s4 = Done s'
    ∧ analyze s = Done s'
    ∧ scratch_clean s'
    ∧ conflict s' = None
    ∧ (∀ lit, lit ∈ analyzed s4 → flags_as_asserted s4 lit)
    ∧ (∀ l, l ∈ levels s4 → control s' !!! l = Level.reset).
Proof.
  intros HM Hwf Hclean.
  destruct (analyze_pipeline M s HM Hwf Hclean)
    as (sw & uip & j & s2 & s3 & _ & _ & _ & _ & _ & _ & Hderive & _ & _
        & Hcommit & Hupdate & _ & _ & Hres3 & _ & _ & Hready & Hact & Hanalyze).
  destruct (analyze_backjump_ready uip (Z.of_nat (length (levels sw))) s3
              Hready Hact)
    as (s4 & Hjump & Hready4 & _ & _ & Hres4 & _ & _).
  destruct (analyze_cleanup_spec s4 Hready4)
    as (s' & Hcleanup & Hft & Hctl & Hcl & Han & Hlev & Hconf & Hun).
  exists (set_clause (clause sw ++ [- uip]) sw), uip, s2, s3,
    (Z.of_nat (length (levels sw))), (Z.of_nat (length (clause s3))), s4, s'.
  split_and!; try done.
  - rewrite Hanalyze, Hjump. exact Hcleanup.
  - split; try done.
    + intros x. rewrite Hft.
      destruct (ready_flags _ Hready4 x) as (? & ? & ?).
      by destruct (ftab s4 !!! x).
    + unfold untouched_by_cleanup in Hun. injection Hun as. congruence.
  - unfold analyze_cleanup in Hcleanup.
    apply bind_Done in Hcleanup as (sc & Hclear & _).
    by eapply clear_seen_asserted.
Qed.

Lemma analyze_cleans_up_witness :
  ∃ (s1 : Internal) (uip : Z) (s2 s3 : Internal) (glue size : Z)
    (s4 s' : Internal),
    analyze_derive Scenario.conflict_on_level_two = Done (s1, uip)
    ∧ bump_resolved_clauses s1 = Done s2
    ∧ analyze_update (M := Scenario.identity_minimizer) s2
      = Done (s3, glue, size)
    ∧ analyze_backjump uip glue size s3 = Done s4
    ∧ analyze_cleanup s4 = Done s'
    ∧ analyze (M := Scenario.identity_minimizer)
        Scenario.conflict_on_level_two = Done s'
    ∧ scratch_clean s'
    ∧ conflict s' = None
    ∧ (∀ lit, lit ∈ analyzed s4 → flags_as_asserted s4 lit)
    ∧ (∀ l, l ∈ levels s4 → control s' !!! l = Level.reset).
Proof.
  apply (analyze_cleans_up Scenario.identity_minimizer
           Scenario.conflict_on_level_two).
  - exact identity_minimizer_contract.
  - exact conflict_on_level_two_well_formed.
  - exact conflict_on_level_two_clean.
Defined.

(** C6: in an analysis above level 0 the batch of resolved clauses is
    committed once, between the resolution walk and the update of the
    statistics that ends with the bumps of the variables.  The batch is
    sorted by ascending time stamp, its clauses get the next values of
    the global counter in that order, and the batch is emptied.  The walk
    has not touched the queue of variables before, and nothing stamps a
    clause of the batch afterwards. *)
Theorem resolved_clauses_committed (M : Minimizer) (s : Internal) :
  minimizer_contract M → well_formed s → scratch_clean s →
  ∃ (s1 : Internal) (uip : Z) (s2 : Internal) (batch : list Z) (s' : Internal),
    analyze_derive s = Done (s1, uip)
    ∧ bump_resolved_clauses s1 = Done s2
    ∧ batch = sort (analyzed_earlier s1) (resolved s1)
    ∧ batch ≡ₚ resolved s1
    ∧ NoDup batch
    ∧ StronglySorted
        (λ a b, Clause.analyzed (clauses s1 !!! a)
                ≤ Clause.analyzed (clauses s1 !!! b)) batch
    ∧ (∀ (k : nat) (c : Z), batch !! k = Some c →
         Clause.analyzed (clauses s2 !!! c)
         = Stats.analyzed (stats s) + Z.of_nat k + 1)
    ∧ Stats.analyzed (stats s2)
      = Stats.analyzed (stats s) + Z.of_nat (length batch)
    ∧ resolved s2 = []
    ∧ (btab s2, ltab s2, queue s2, Stats.bumped (stats s2))
      = (btab s, ltab s, queue s, Stats.bumped (stats s))
    ∧ analyze s
      = ('(s3, glue, size) ← analyze_update s2;
         s4 ← analyze_backjump uip glue size s3;
         analyze_cleanup s4)
    ∧ analyze s = Done s'
    ∧ Stats.analyzed (stats s') = Stats.analyzed (stats s2)
    ∧ (∀ c, c ∈ batch →
         Clause.analyzed (clauses s' !!! c) = Clause.analyzed (clauses s2 !!! c))
    ∧ resolved s' = [].
Proof.
  intros HM Hwf Hclean.
  destruct (analyze_pipeline M s HM Hwf Hclean)
    as (sw & uip & j & s2 & s3 & Hinv & _ & _ & _ & _ & _ & Hderive & Hnd & Hha
        & Hcommit & Hupdate & Hu3 & _ & Hres3 & _ & _ & Hready & Hact
        & Hanalyze).
  set (s1 := set_clause (clause sw ++ [- uip]) sw) in *.
  destruct (bump_resolved_clauses_spec s1 Hnd Hha)
    as (s2' & batch & Hcommit' & Hbatch & Hstamp & _ & Hdom & Hst & Hs2).
  rewrite Hcommit in Hcommit'. injection Hcommit' as <-.
  destruct (analyze_backjump_ready uip (Z.of_nat (length (levels sw))) s3
              Hready Hact)
    as (s4 & Hjump & Hready4 & _ & _ & Hres4 & Hst4 & Hcl4).
  destruct (analyze_cleanup_spec s4 Hready4)
    as (s' & Hcleanup & _ & _ & _ & _ & _ & _ & Hun).
  pose proof (sort_Permutation (analyzed_earlier s1) (resolved s1)) as Hperm.
  pose proof (inv_core _ _ _ Hinv) as Hcore.
  unfold untouched_by_walk in Hcore. injection Hcore as.
  unfold untouched_by_update in Hu3. injection Hu3 as.
  unfold untouched_by_cleanup in Hun. injection Hun as.
  assert (Stats.analyzed (stats s1) = Stats.analyzed (stats s)) as Hst1.
  { subst s1. cbn. congruence. }
  exists s1, uip, s2, batch, s'. split_and!; try done.
  - by rewrite Hbatch.
  - rewrite Hbatch, Hperm. exact Hnd.
  - rewrite Hbatch. apply sort_analyzed_earlier.
  - intros k c Hk. rewrite (Hstamp k c Hk).
    cbn [Clause.analyzed Clause.set_analyzed]. by rewrite Hst1.
  - rewrite Hst, Hst1, Hbatch. by rewrite sort_length.
  - by rewrite Hs2.
  - rewrite Hs2. subst s1. cbn. congruence.
  - unfold analyze.
    destruct (wf_conflict _ Hwf) as (c & Hc & _). rewrite Hc.
    rewrite assert_true by (apply bool_decide_eq_true_2; eauto).
    cbn [mbind outcome_bind].
    rewrite (proj2 (Z.eqb_neq _ _)) by (pose proof (wf_level _ Hwf); lia).
    rewrite Hderive. cbn [mbind outcome_bind]. fold s1.
    by rewrite Hcommit.
  - rewrite Hanalyze, Hjump. exact Hcleanup.
  - congruence.
  - intros c Hc. rewrite Hbatch, Hperm in Hc.
    assert (clauses s' !!! c = clauses s2 !!! c) as ->; [|done].
    assert (clauses s' = clauses s4) as -> by congruence.
    rewrite Hcl4; [congruence|].
    assert (clauses s3 = clauses s2) as -> by congruence. by apply Hdom.
  - congruence.
Qed.

Lemma resolved_clauses_committed_witness :
  ∃ (s1 : Internal) (uip : Z) (s2 : Internal) (batch : list Z) (s' : Internal),
    analyze_derive Scenario.conflict_on_level_two = Done (s1, uip)
    ∧ bump_resolved_clauses s1 = Done s2
    ∧ batch = sort (analyzed_earlier s1) (resolved s1)
    ∧ batch ≡ₚ resolved s1
    ∧ NoDup batch
    ∧ StronglySorted
        (λ a b, Clause.analyzed (clauses s1 !!! a)
                ≤ Clause.analyzed (clauses s1 !!! b)) batch
    ∧ (∀ (k : nat) (c : Z), batch !! k = Some c →
         Clause.analyzed (clauses s2 !!! c)
         = Stats.analyzed (stats Scenario.conflict_on_level_two)
           + Z.of_nat k + 1)
    ∧ Stats.analyzed (stats s2)
      = Stats.analyzed (stats Scenario.conflict_on_level_two)
        + Z.of_nat (length batch)
    ∧ resolved s2 = []
    ∧ (btab s2, ltab s2, queue s2, Stats.bumped (stats s2))
      = (btab Scenario.conflict_on_level_two,
         ltab Scenario.conflict_on_level_two,
         queue Scenario.conflict_on_level_two,
         Stats.bumped (stats Scenario.conflict_on_level_two))
    ∧ analyze (M := Scenario.identity_minimizer) Scenario.conflict_on_level_two
      = ('(s3, glue, size) ← analyze_update (M := Scenario.identity_minimizer) s2;
         s4 ← analyze_backjump uip glue size s3;
         analyze_cleanup s4)
    ∧ analyze (M := Scenario.identity_minimizer) Scenario.conflict_on_level_two
      = Done s'
    ∧ Stats.analyzed (stats s') = Stats.analyzed (stats s2)
    ∧ (∀ c, c ∈ batch →
         Clause.analyzed (clauses s' !!! c) = Clause.analyzed (clauses s2 !!! c))
    ∧ resolved s' = [].
Proof.
  apply (resolved_clauses_committed Scenario.identity_minimizer
           Scenario.conflict_on_level_two).
  - exact identity_minimizer_contract.
  - exact conflict_on_level_two_well_formed.
  - exact conflict_on_level_two_clean.
Defined.

Lemma trail_larger_vtab (s s' : Internal) :
  vtab s = vtab s' → trail_larger s = trail_larger s'.
Proof. intros H. unfold trail_larger, var. by rewrite H. Qed.

Lemma lvl_vtab (s s' : Internal) : vtab s = vtab s' → lvl s = lvl s'.
Proof. intros H. unfold lvl, var. by rewrite H. Qed.

Lemma sort_trail_larger (s : Internal) (l : list Z) :
  StronglySorted
    (λ a b, lvl s b < lvl s a
            ∨ lvl s a = lvl s b ∧ Var.trail (var s b) ≤ Var.trail (var s a))
    (sort (trail_larger s) l).
Proof.
  eapply StronglySorted_impl; [|apply sort_sorted].
  - unfold not_after, trail_larger, lvl. intros a b. repeat case_match; lia.
  - unfold trail_larger. intros a b. repeat case_match; lia.
  - unfold not_after, trail_larger. intros a b c. repeat case_match; lia.
Qed.

Lemma val_assigned (s : Internal) (lit : Z) (vs : gmap Z Z) :
  lit ≠ 0 →
  vals s = <[vidx lit := if lit <? 0 then -1 else 1]> vs → val s lit = 1.
Proof.
  intros Hl Hv. unfold val. rewrite Hv, lookup_total_insert_eq.
  by destruct (lit <? 0).
Qed.

Lemma learned_clause_pipeline (M : Minimizer) (s : Internal)
    (s1 s2 s3 : Internal) (uip glue size : Z) :
  analyze_derive s = Done (s1, uip) →
  bump_resolved_clauses s1 = Done s2 →
  analyze_update s2 = Done (s3, glue, size) →
  learned_clause s = Some (clause s3, uip, glue).
Proof.
  intros H1 H2 H3. unfold learned_clause.
  rewrite H1. cbn [mbind outcome_bind].
  rewrite H2. cbn [mbind outcome_bind].
  by rewrite H3.
Qed.

(** C3: when the learned clause has more than one literal after
    minimization, [analyze] completes and has done the following.  The
    literals were sorted by descending level, the more recently assigned
    first among those of one level; a clause object with these literals
    was created at an unused address, redundant and with the glue; the
    jump level is the level of the second literal of that order; the
    average of jump levels has that level as new sample; the trail was
    cut back to the jump level, losing exactly its entries above that
    level; and the negated first UIP was appended to the trail, assigned
    true on the jump level with the new clause as reason. *)
Theorem analyze_learns_driving_clause (M : Minimizer) (s : Internal)
    (cl : list Z) (uip glue : Z) :
  minimizer_contract M → well_formed s → scratch_clean s →
  learned_clause s = Some (cl, uip, glue) → (1 < length cl)%nat →
  ∃ (s1 s2 s' : Internal) (sorted : list Z) (second c : Z)
    (kept removed : list Z),
    analyze_derive s = Done (s1, uip)
    ∧ bump_resolved_clauses s1 = Done s2
    ∧ analyze s = Done s'
    ∧ sorted = sort (trail_larger s) cl
    ∧ sorted ≡ₚ cl
    ∧ StronglySorted
        (λ a b, lvl s b < lvl s a
                ∨ lvl s a = lvl s b
                  ∧ Var.trail (var s b) ≤ Var.trail (var s a)) sorted
    ∧ (c ∉ dom (clauses s2))
    ∧ clauses s'
      = (<[c := Clause.mk true false false false 0 glue sorted]> (clauses s2))
    ∧ sorted !! 1%nat = Some second
    ∧ level s' = lvl s second
    ∧ Averages.jump_avg (averages s')
      = Averages.jump_avg (averages s) ++ [lvl s second]
    ∧ trail s = kept ++ removed
    ∧ (∀ lit, lit ∈ removed → lvl s second < lvl s lit)
    ∧ (∀ lit, last kept = Some lit → lvl s lit ≤ lvl s second)
    ∧ trail s' = kept ++ [- uip]
    ∧ var s' (- uip)
      = Var.mk (lvl s second) (Z.of_nat (length kept)) (Some c)
    ∧ val s' (- uip) = 1.
Proof.
  intros HM Hwf Hclean Hlearned Hlen.
  destruct (analyze_pipeline M s HM Hwf Hclean)
    as (sw & uip' & j & s2 & s3 & _ & Hju & _ & _ & _ & _ & Hderive & _ & _
        & Hcommit & Hupdate & Hu3 & Hfr & _ & _ & _ & Hready & Hact & Hanalyze).
  rewrite (learned_clause_pipeline M s _ _ _ _ _ _ Hderive Hcommit Hupdate)
    in Hlearned.
  injection Hlearned as <- <- <-.
  destruct (wf_trail_entry _ Hwf j uip' Hju) as (Hu0 & _).
  assert (1 < Z.of_nat (length (clause s3))) as Hsize by lia.
  destruct (analyze_backjump_driving uip' (Z.of_nat (length (levels sw)))
              _ s3 Hsize Hlen)
    as (second & kept & removed & vs' & Hsecond & Htr & Hrem & Hkept & _ & Hjump).
  destruct (analyze_backjump_ready uip' (Z.of_nat (length (levels sw))) s3
              Hready Hact) as (s4 & Hjump' & Hready4 & _).
  rewrite Hjump in Hjump'. injection Hjump' as Hs4.
  destruct (analyze_cleanup_spec s4 Hready4)
    as (s' & Hcleanup & _ & _ & _ & _ & _ & _ & Hun).
  unfold untouched_before_backjump in Hfr. injection Hfr as.
  unfold untouched_by_update in Hu3. injection Hu3 as.
  unfold untouched_by_cleanup in Hun. injection Hun as.
  assert (vtab s3 = vtab s) as Hvtab by done.
  rewrite (trail_larger_vtab s3 s Hvtab) in *.
  rewrite (lvl_vtab s3 s Hvtab) in *.
  assert (clauses s3 = clauses s2) as Hcl32 by done.
  rewrite Hcl32 in *.
  exists (set_clause (clause sw ++ [- uip']) sw), s2, s',
    (sort (trail_larger s) (clause s3)), second, (fresh (dom (clauses s2))),
    kept, removed.
  split_and!; try done.
  - rewrite Hanalyze, Hjump. cbn [mbind outcome_bind]. by rewrite Hs4.
  - apply sort_Permutation.
  - apply sort_trail_larger.
  - apply is_fresh.
  - assert (clauses s' = clauses s4) as -> by done. by rewrite <- Hs4.
  - assert (level s' = level s4) as -> by done. by rewrite <- Hs4.
  - assert (averages s' = averages s4) as -> by done. rewrite <- Hs4. cbn.
    congruence.
  - congruence.
  - assert (trail s' = trail s4) as -> by done. by rewrite <- Hs4.
  - unfold var. assert (vtab s' = vtab s4) as -> by done. rewrite <- Hs4.
    cbn. by rewrite lookup_total_insert_eq.
  - eapply val_assigned; [lia|].
    assert (vals s' = vals s4) as -> by done. rewrite <- Hs4. reflexivity.
Qed.

Lemma analyze_learns_driving_clause_witness :
  ∃ (s1 s2 s' : Internal) (sorted : list Z) (second c : Z)
    (kept removed : list Z),
    analyze_derive Scenario.conflict_on_level_two = Done (s1, 2)
    ∧ bump_resolved_clauses s1 = Done s2
    ∧ analyze (M := Scenario.identity_minimizer)
        Scenario.conflict_on_level_two = Done s'
    ∧ sorted = sort (trail_larger Scenario.conflict_on_level_two) [-1; -2]
    ∧ sorted ≡ₚ [-1; -2]
    ∧ StronglySorted
        (λ a b, lvl Scenario.conflict_on_level_two b
                < lvl Scenario.conflict_on_level_two a
                ∨ lvl Scenario.conflict_on_level_two a
                  = lvl Scenario.conflict_on_level_two b
                  ∧ Var.trail (var Scenario.conflict_on_level_two b)
                    ≤ Var.trail (var Scenario.conflict_on_level_two a)) sorted
    ∧ (c ∉ dom (clauses s2))
    ∧ clauses s'
      = (<[c := Clause.mk true false false false 0 2 sorted]> (clauses s2))
    ∧ sorted !! 1%nat = Some second
    ∧ level s' = lvl Scenario.conflict_on_level_two second
    ∧ Averages.jump_avg (averages s')
      = Averages.jump_avg (averages Scenario.conflict_on_level_two)
        ++ [lvl Scenario.conflict_on_level_two second]
    ∧ trail Scenario.conflict_on_level_two = kept ++ removed
    ∧ (∀ lit, lit ∈ removed →
         lvl Scenario.conflict_on_level_two second
         < lvl Scenario.conflict_on_level_two lit)
    ∧ (∀ lit, last kept = Some lit →
         lvl Scenario.conflict_on_level_two lit
         ≤ lvl Scenario.conflict_on_level_two second)
    ∧ trail s' = kept ++ [- 2]
    ∧ var s' (- 2)
      = Var.mk (lvl Scenario.conflict_on_level_two second)
               (Z.of_nat (length kept)) (Some c)
    ∧ val s' (- 2) = 1.
Proof.
  apply (analyze_learns_driving_clause Scenario.identity_minimizer
           Scenario.conflict_on_level_two [-1; -2] 2 2).
  - exact identity_minimizer_contract.
  - exact conflict_on_level_two_well_formed.
  - exact conflict_on_level_two_clean.
  - by vm_compute.
  - cbn. lia.
Defined.

(** The spec's scenario in full: the clause [-2 -1] is learned, the
    search jumps back to level 1 and implies [-2] there. *)
Example analyze_on_level_two :
  (λ s' : Internal, (trail s', level s', var s' (- 2), val s' (- 2), clauses s' !! 12))
    <$> (match analyze (M := Scenario.identity_minimizer)
                 Scenario.conflict_on_level_two with
         | Done s' => Some s'
         | Abort _ => None
         end)
  = Some ([1; -2], 1, Var.mk 1 1 (Some 12), 1,
          Some (Clause.mk true false false false 0 2 [-2; -1])).
Proof. by vm_compute. Qed.

(** C4: when the learned clause is a unit after minimization, [analyze]
    completes and has done the following.  No clause object was created:
    the clause store is as the bumps of the resolved clauses left it.  The
    iterating flag is set, the average of jump levels has 0 as new sample,
    the trail was cut back to level 0, losing exactly its entries above
    that level, and the negated first UIP was appended to it, assigned
    true on level 0 without reason.  The status of its variable is FIXED,
    the unit was counted and written to the proof trace. *)
Theorem analyze_learns_unit (M : Minimizer) (s : Internal)
    (cl : list Z) (uip glue : Z) :
  minimizer_contract M → well_formed s → scratch_clean s →
  learned_clause s = Some (cl, uip, glue) → length cl = 1%nat →
  ∃ (s1 s2 s' : Internal) (kept removed : list Z),
    analyze_derive s = Done (s1, uip)
    ∧ bump_resolved_clauses s1 = Done s2
    ∧ analyze s = Done s'
    ∧ clauses s' = clauses s2
    ∧ iterating s' = true
    ∧ Averages.jump_avg (averages s') = Averages.jump_avg (averages s) ++ [0]
    ∧ level s' = 0
    ∧ trail s = kept ++ removed
    ∧ (∀ lit, lit ∈ removed → 0 < lvl s lit)
    ∧ (∀ lit, last kept = Some lit → lvl s lit ≤ 0)
    ∧ trail s' = kept ++ [- uip]
    ∧ var s' (- uip) = Var.mk 0 (Z.of_nat (length kept)) None
    ∧ val s' (- uip) = 1
    ∧ Flags.status (flags s' (- uip)) = FIXED
    ∧ Stats.fixed (stats s') = Stats.fixed (stats s) + 1
    ∧ proof s' = (λ lines, lines ++ [trace_unit_clause (- uip)]) <$> proof s.
Proof.
  intros HM Hwf Hclean Hlearned Hlen.
  destruct (analyze_pipeline M s HM Hwf Hclean)
    as (sw & uip' & j & s2 & s3 & _ & Hju & _ & _ & _ & _ & Hderive & _ & _
        & Hcommit & Hupdate & Hu3 & Hfr & _ & _ & _ & Hready & Hact & Hanalyze).
  rewrite (learned_clause_pipeline M s _ _ _ _ _ _ Hderive Hcommit Hupdate)
    in Hlearned.
  injection Hlearned as <- <- <-.
  destruct (wf_trail_entry _ Hwf j uip' Hju) as (Hu0 & _).
  assert (¬ 1 < Z.of_nat (length (clause s3))) as Hsize by lia.
  destruct (analyze_backjump_unit uip' (Z.of_nat (length (levels sw)))
              _ s3 Hsize Hact)
    as (kept & removed & vs' & Htr & Hrem & Hkept & _ & Hjump).
  destruct (analyze_backjump_ready uip' (Z.of_nat (length (levels sw))) s3
              Hready Hact) as (s4 & Hjump' & Hready4 & _).
  rewrite Hjump in Hjump'. injection Hjump' as Hs4.
  destruct (analyze_cleanup_spec s4 Hready4)
    as (s' & Hcleanup & Hft & _ & _ & _ & _ & _ & Hun).
  unfold untouched_before_backjump in Hfr. injection Hfr as.
  unfold untouched_by_update in Hu3. injection Hu3 as.
  unfold untouched_by_cleanup in Hun. injection Hun as.
  assert (vtab s3 = vtab s) as Hvtab by done.
  rewrite (lvl_vtab s3 s Hvtab) in *.
  exists (set_clause (clause sw ++ [- uip']) sw), s2, s', kept, removed.
  split_and!; try done.
  - rewrite Hanalyze, Hjump. cbn [mbind outcome_bind]. by rewrite Hs4.
  - assert (clauses s' = clauses s4) as -> by done. rewrite <- Hs4. cbn.
    congruence.
  - assert (iterating s' = iterating s4) as -> by done. by rewrite <- Hs4.
  - assert (averages s' = averages s4) as -> by done. rewrite <- Hs4. cbn.
    congruence.
  - assert (level s' = level s4) as -> by done. by rewrite <- Hs4.
  - congruence.
  - assert (trail s' = trail s4) as -> by done. by rewrite <- Hs4.
  - unfold var. assert (vtab s' = vtab s4) as -> by done. rewrite <- Hs4.
    cbn. by rewrite lookup_total_insert_eq.
  - eapply val_assigned; [lia|].
    assert (vals s' = vals s4) as -> by done. rewrite <- Hs4. reflexivity.
  - unfold flags. rewrite Hft. rewrite <- Hs4. cbn.
    by rewrite lookup_total_insert_eq.
  - assert (stats s' = stats s4) as -> by done. rewrite <- Hs4. cbn.
    congruence.
  - assert (proof s' = proof s4) as -> by done. rewrite <- Hs4. cbn.
    congruence.
Qed.

Lemma analyze_learns_unit_witness :
  ∃ (s1 s2 s' : Internal) (kept removed : list Z),
    analyze_derive Scenario.unit_conflict = Done (s1, 1)
    ∧ bump_resolved_clauses s1 = Done s2
    ∧ analyze (M := Scenario.identity_minimizer) Scenario.unit_conflict
      = Done s'
    ∧ clauses s' = clauses s2
    ∧ iterating s' = true
    ∧ Averages.jump_avg (averages s')
      = Averages.jump_avg (averages Scenario.unit_conflict) ++ [0]
    ∧ level s' = 0
    ∧ trail Scenario.unit_conflict = kept ++ removed
    ∧ (∀ lit, lit ∈ removed → 0 < lvl Scenario.unit_conflict lit)
    ∧ (∀ lit, last kept = Some lit → lvl Scenario.unit_conflict lit ≤ 0)
    ∧ trail s' = kept ++ [- 1]
    ∧ var s' (- 1) = Var.mk 0 (Z.of_nat (length kept)) None
    ∧ val s' (- 1) = 1
    ∧ Flags.status (flags s' (- 1)) = FIXED
    ∧ Stats.fixed (stats s') = Stats.fixed (stats Scenario.unit_conflict) + 1
    ∧ proof s' = (λ lines, lines ++ [trace_unit_clause (- 1)])
                   <$> proof Scenario.unit_conflict.
Proof.
  apply (analyze_learns_unit Scenario.identity_minimizer
           Scenario.unit_conflict [-1] 1 1).
  - exact identity_minimizer_contract.
  - exact unit_conflict_well_formed.
  - exact unit_conflict_clean.
  - by vm_compute.
  - reflexivity.
Defined.

(** The unit scenario in full. *)
Example analyze_unit_conflict :
  (λ s' : Internal, (trail s', level s', iterating s',
                     Flags.status (flags s' 1), proof s'))
    <$> (match analyze (M := Scenario.identity_minimizer)
                 Scenario.unit_conflict with
         | Done s' => Some s'
         | Abort _ => None
         end)
  = Some ([3; -1], 0, true, FIXED, Some [trace_unit_clause (-1)]).
Proof. by vm_compute. Qed.

(** ** Learned units *)

Lemma flags_trace (line : ProofLine) (s : Internal) (lit : Z) :
  flags (trace line s) lit = flags s lit.
Proof. unfold trace. by destruct (proof s). Qed.

Lemma learn_unit_clause_Done (lit : Z) (s s' : Internal) :
  learn_unit_clause lit s = Done s' →
  Flags.status (flags s lit) = ACTIVE
  ∧ s' = set_stats (Stats.set_fixed (Stats.fixed (stats s) + 1) (stats s))
           (update_flags lit (Flags.set_status FIXED)
              (trace (trace_unit_clause lit) s)).
Proof.
  unfold learn_unit_clause. rewrite flags_trace.
  unfold Flags.active. intros H.
  destruct (decide (Flags.status (flags s lit) = ACTIVE)) as [Ha|Ha].
  - rewrite bool_decide_eq_true_2 in H by done. cbn in H.
    injection H as <-. split; [done|].
    unfold trace. by destruct (proof s).
  - by rewrite bool_decide_eq_false_2 in H by done.
Qed.

(** X1: a unit is learned once.  A successful [learn_unit_clause] found
    the variable active, fixes it, counts it and traces the unit when a
    proof is attached; the flags of the other variables stay as they are,
    and a further [learn_unit_clause] for the same variable, with either
    sign, fails its assertion. *)
Theorem learn_unit_clause_once (lit : Z) (s s' : Internal) :
  learn_unit_clause lit s = Done s' →
  Flags.status (flags s lit) = ACTIVE
  ∧ Flags.status (flags s' lit) = FIXED
  ∧ Stats.fixed (stats s') = Stats.fixed (stats s) + 1
  ∧ proof s' = (λ lines, lines ++ [trace_unit_clause lit]) <$> proof s
  ∧ (∀ other, vidx other ≠ vidx lit → flags s' other = flags s other)
  ∧ (∀ other, vidx other = vidx lit →
       learn_unit_clause other s' = Abort AssertionFailed).
Proof.
  intros H. apply learn_unit_clause_Done in H as [Ha ->].
  assert (∀ other, vidx other = vidx lit →
            Flags.status
              (flags (set_stats
                        (Stats.set_fixed (Stats.fixed (stats s) + 1) (stats s))
                        (update_flags lit (Flags.set_status FIXED)
                           (trace (trace_unit_clause lit) s))) other) = FIXED)
    as Hfixed.
  { intros other Ho. unfold flags, update_flags. cbn.
    rewrite Ho, lookup_total_insert_eq. done. }
  split_and!.
  - done.
  - by apply Hfixed.
  - unfold trace. by destruct (proof s).
  - unfold trace. destruct (proof s) eqn:E; cbn; rewrite ?E; done.
  - intros other Ho. unfold flags, update_flags. cbn.
    rewrite lookup_total_insert_ne by done.
    unfold trace. by destruct (proof s).
  - intros other Ho. unfold learn_unit_clause. rewrite flags_trace.
    unfold Flags.active. rewrite (Hfixed other Ho). done.
Qed.

Lemma learn_unit_clause_once_witness :
  Flags.status (flags Scenario.conflict_on_level_two 3) = ACTIVE
  ∧ ∃ s', learn_unit_clause 3 Scenario.conflict_on_level_two = Done s'
    ∧ learn_unit_clause (-3) s' = Abort AssertionFailed.
Proof.
  destruct (learn_unit_clause 3 Scenario.conflict_on_level_two) as [s'|]
    eqn:E; [|by vm_compute in E].
  destruct (learn_unit_clause_once 3 _ s' E) as (Ha & _ & _ & _ & _ & Hagain).
  split; [exact Ha|]. exists s'. split; [done|]. by apply Hagain.
Defined.

(** ** Conflicts without a decision *)

(** X2: unsatisfiability is final.  When [analyze] completes on a
    conflict found at level 0, a conflict was at hand and the formula was
    not yet known to be unsatisfiable; afterwards it is, the conflict is
    still recorded, and a further [analyze] fails the assertion of
    [learn_empty_clause]. *)
Theorem analyze_without_decision_final (M : Minimizer) (s s' : Internal) :
  level s = 0 → analyze s = Done s' →
  is_Some (conflict s) ∧ unsat s = false
  ∧ unsat s' = true ∧ level s' = 0 ∧ conflict s' = conflict s
  ∧ analyze s' = Abort AssertionFailed.
Proof.
  intros Hl H. unfold analyze in H.
  apply bind_Done in H as ([] & Hc & H). apply assert_Done in Hc.
  rewrite Hl in H. cbn in H. unfold learn_empty_clause in H.
  apply bind_Done in H as ([] & Hu & H). apply assert_Done in Hu.
  injection H as <-. rewrite trace_set_proof.
  apply bool_decide_eq_true_1 in Hc. apply negb_true_iff in Hu.
  split_and!; try done.
  unfold analyze. cbn [conflict set_unsat set_proof level].
  rewrite (assert_true _ (bool_decide_eq_true_2 _ Hc)).
  cbn [mbind outcome_bind]. rewrite Hl. cbn. done.
Qed.

Lemma analyze_without_decision_final_witness :
  ∃ s', analyze (M := Scenario.identity_minimizer)
          Scenario.conflict_without_decision = Done s'
    ∧ analyze (M := Scenario.identity_minimizer) s' = Abort AssertionFailed.
Proof.
  destruct (analyze (M := Scenario.identity_minimizer)
              Scenario.conflict_without_decision) as [s'|] eqn:E;
    [|by vm_compute in E].
  exists s'. split; [done|].
  by apply (analyze_without_decision_final Scenario.identity_minimizer
              Scenario.conflict_without_decision s').
Defined.

(** ** The comparison functors *)

(** X3: the two functors that [bump_variables] hands to [std::sort] are
    strict weak orderings, as [std::sort] requires. *)
Theorem bump_order_strict_weak (s : Internal) :
  strict_weak_order (bumped_earlier s)
  ∧ strict_weak_order (trail_bumped_smaller s).
Proof.
  split; split; unfold bumped_earlier, trail_bumped_smaller.
  - intros a. lia.
  - intros a b c. lia.
  - intros a b c. lia.
  - intros a. repeat case_match; lia.
  - intros a b c. repeat case_match; lia.
  - intros a b c. repeat case_match; lia.
Qed.

(** Two literals are tied for [trail_bumped_smaller] only if they agree
    in stamp and trail position. *)
Lemma trail_bumped_smaller_tie (s : Internal) (a b : Z) :
  trail_bumped_smaller s a b = false → trail_bumped_smaller s b a = false →
  Var.trail (var s a) = Var.trail (var s b) ∧ bumped s a = bumped s b.
Proof. unfold trail_bumped_smaller. repeat case_match; lia. Qed.

(** An order without inversion is unique when the functor decides between
    any two different elements. *)
Lemma sorted_unique `{EqDecision A} (less : A → A → bool) (l1 l2 : list A) :
  (∀ a b, a ∈ l1 → b ∈ l1 → a ≠ b → less a b = true ∨ less b a = true) →
  l1 ≡ₚ l2 →
  StronglySorted (not_after less) l1 → StronglySorted (not_after less) l2 →
  l1 = l2.
Proof.
  revert l2. induction l1 as [|x l1 IH]; intros l2 Htotal Hp Hs1 Hs2.
  - by apply Permutation_nil_l in Hp.
  - destruct l2 as [|y l2]; [by apply Permutation_nil_r in Hp|].
    apply StronglySorted_inv in Hs1 as [Hs1 Hx].
    apply StronglySorted_inv in Hs2 as [Hs2 Hy].
    assert (x = y) as <-.
    { assert (x ∈ y :: l2) as Hin by (rewrite <- Hp; left).
      assert (y ∈ x :: l1) as Hin' by (rewrite Hp; left).
      apply elem_of_cons in Hin as [?|Hin]; [done|].
      apply elem_of_cons in Hin' as [?|Hin']; [done|].
      rewrite Forall_forall in Hx, Hy.
      pose proof (Hx y Hin') as H1. pose proof (Hy x Hin) as H2.
      unfold not_after in H1, H2.
      destruct (decide (x = y)) as [?|Hne]; [done|].
      destruct (Htotal x y) as [H|H]; [left|by right|done|congruence..]. }
    f_equal. apply IH; [|by apply Permutation_cons_inv in Hp|done..].
    intros a b Ha Hb. apply Htotal; by right.
Qed.


Lemma bump_variables_batch (s : Internal) :
  analyzed (bump_variables s) = sort (batch_functor s) (analyzed s).
Proof.
  unfold bump_variables, batch_functor.
  rewrite foldl_bump_variable_analyzed.
  by destruct (trail_bump_policy s).
Qed.

Lemma batch_functor_sorted (s : Internal) (l : list Z) :
  StronglySorted (not_after (batch_functor s)) (sort (batch_functor s) l).
Proof.
  apply sort_sorted; unfold not_after, batch_functor;
    destruct (trail_bump_policy s);
    unfold trail_bumped_smaller, bumped_earlier;
    intros; repeat case_match; lia.
Qed.

(** X4: the order in which [bump_variables] bumps is determined by the
    functor alone.  Variables carry different stamps, and assigned
    variables different trail positions; then every arrangement of the
    batch that has no inversion for the functor, which is all that
    [std::sort] promises, is the one in which the batch is bumped. *)
Theorem bump_variables_batch_determined (s : Internal) (l : list Z) :
  NoDup (batch_key s <$> analyzed s) →
  l ≡ₚ analyzed s →
  StronglySorted (not_after (batch_functor s)) l →
  analyzed (bump_variables s) = l.
Proof.
  intros Hnd Hp Hs. rewrite bump_variables_batch.
  apply (sorted_unique (batch_functor s)).
  - intros a b Ha Hb Hne.
    rewrite sort_Permutation in Ha, Hb.
    assert (batch_key s a ≠ batch_key s b) as Hk.
    { intros Hk. apply Hne. by eapply NoDup_fmap_eq. }
    revert Hk. unfold batch_key, batch_functor.
    destruct (trail_bump_policy s);
      unfold trail_bumped_smaller, bumped_earlier;
      intros; repeat case_match; lia.
  - by rewrite sort_Permutation, Hp.
  - apply batch_functor_sorted.
  - done.
Qed.

Lemma bump_variables_batch_determined_witness :
  analyzed (bump_variables analyzed_batch) = [-1; 2; 3].
Proof.
  assert (trail_bump_policy analyzed_batch = false) as Hpol by (by vm_compute).
  apply (bump_variables_batch_determined analyzed_batch [-1; 2; 3]).
  - unfold batch_key. rewrite Hpol.
    apply (bool_decide_unpack _). by vm_compute.
  - apply (bool_decide_unpack _). by vm_compute.
  - unfold batch_functor. rewrite Hpol.
    repeat first [ apply SSorted_nil | apply SSorted_cons
                 | apply Forall_nil_2 | apply Forall_cons_2 ];
      by vm_compute.
Defined.

(** ** The queue under bumps *)

Lemma filter_all {A} (P : A → Prop) `{!∀ x, Decision (P x)} (l : list A) :
  Forall P l → filter P l = l.
Proof.
  induction 1 as [|x l Hx _ IH]; [done|].
  rewrite filter_cons_True by done. by rewrite IH.
Qed.

Lemma filter_ne_id (x : Z) (l : list Z) :
  x ∉ l → filter (λ y, y ≠ x) l = l.
Proof.
  intros Hx. apply filter_all, Forall_forall. by intros y Hy ->.
Qed.

Lemma filter_ne_split (x : Z) (l1 l2 : list Z) :
  NoDup (l1 ++ x :: l2) →
  filter (λ y, y ≠ x) (l1 ++ x :: l2) = l1 ++ l2.
Proof.
  intros Hnd. apply NoDup_app in Hnd as (_ & H1 & Hnd).
  apply NoDup_cons in Hnd as [H2 _].
  rewrite filter_app, filter_cons_False by (by intros ?).
  rewrite !filter_ne_id; [done..|].
  intros Hx. apply (H1 x Hx). left.
Qed.

(** A bump puts the variable at the front and keeps the order of the
    others. *)
Lemma bump_variable_order (s : Internal) (lit : Z) (l : list Z) :
  queue_order s l → vidx lit ∈ l →
  queue_order (bump_variable lit s)
              (filter (λ y, y ≠ vidx lit) l ++ [vidx lit]).
Proof.
  intros Hq Hin. apply list_elem_of_split in Hin as (l1 & l2 & ->).
  rewrite filter_ne_split by (by destruct Hq).
  destruct l2 as [|y l2].
  - rewrite app_nil_r. by rewrite (bump_variable_front s lit l1).
  - apply bump_variable_moves in Hq as [Hq _].
    by rewrite <- app_assoc.
Qed.

Lemma bump_variable_order_elem_of (lit : Z) (l : list Z) (y : Z) :
  vidx lit ∈ l →
  y ∈ filter (λ y, y ≠ vidx lit) l ++ [vidx lit] ↔ y ∈ l.
Proof.
  intros Hin. rewrite elem_of_app, list_elem_of_filter, list_elem_of_singleton.
  destruct (decide (y = vidx lit)) as [->|Hne]; [by split; [|right]|].
  split; [by intros [[_ ?]|?]|by left].
Qed.

Lemma foldl_bump_variable_order (b : list Z) :
  ∀ (s : Internal) (l : list Z),
  queue_order s l → NoDup (vidx <$> b) →
  (∀ lit, lit ∈ b → vidx lit ∈ l) →
  queue_order (foldl (λ s lit, bump_variable lit s) s b)
              (filter (λ x, x ∉ vidx <$> b) l ++ (vidx <$> b)).
Proof.
  induction b as [|lit b IH]; intros s l Hq Hnd Hin; cbn [foldl].
  - rewrite fmap_nil, app_nil_r.
    rewrite filter_all; [done|].
    apply Forall_forall. intros x _. apply not_elem_of_nil.
  - rewrite fmap_cons in Hnd. apply NoDup_cons in Hnd as [Hx Hnd].
    assert (vidx lit ∈ l) as Hl by (apply Hin; left).
    specialize (IH (bump_variable lit s) _
                  (bump_variable_order s lit l Hq Hl) Hnd).
    rewrite filter_app, list_filter_filter in IH.
    rewrite filter_cons_True, filter_nil in IH by done.
    rewrite fmap_cons.
    rewrite (list_filter_iff _ (λ x, (x ∉ vidx <$> b) ∧ x ≠ vidx lit)).
    + rewrite <- app_assoc in IH. apply IH.
      intros lit' Hlit'. apply bump_variable_order_elem_of; [done|].
      apply Hin. by right.
    + intros x. rewrite not_elem_of_cons. split; intros [? ?]; done.
Qed.

(** X5: [bump_variables] moves the variables of the batch to the front
    of the queue, in the order in which the batch was sorted, and keeps
    the other variables of the queue in their order. *)
Theorem bump_variables_queue (s : Internal) (l : list Z) :
  queue_order s l → NoDup (vidx <$> analyzed s) →
  (∀ lit, lit ∈ analyzed s → vidx lit ∈ l) →
  let batch := vidx <$> analyzed (bump_variables s) in
  queue_order (bump_variables s) (filter (λ x, x ∉ batch) l ++ batch).
Proof.
  intros Hq Hnd Hin batch. subst batch.
  assert (∀ s0 : Internal,
            ltab s0 = ltab s → queue s0 = queue s →
            analyzed s0 ≡ₚ analyzed s →
            queue_order
              (foldl (λ s lit, bump_variable lit s) s0 (analyzed s0))
              (filter (λ x, x ∉ vidx <$> analyzed s0) l
               ++ (vidx <$> analyzed s0))) as Hfold.
  { intros s0 Hlt Hqu Hp. apply foldl_bump_variable_order.
    - unfold queue_order in *. by rewrite Hlt, Hqu.
    - by rewrite Hp.
    - intros lit Hlit. apply Hin. by rewrite <- Hp. }
  rewrite bump_variables_batch.
  unfold bump_variables, batch_functor.
  destruct (trail_bump_policy s).
  - match goal with
    | |- queue_order (foldl _ ?s0 _) _ => specialize (Hfold s0)
    end.
    apply Hfold; [done..|]. apply sort_Permutation.
  - match goal with
    | |- queue_order (foldl _ ?s0 _) _ => specialize (Hfold s0)
    end.
    apply Hfold; [done..|]. apply sort_Permutation.
Qed.


Lemma two_analyzed_queue_order : queue_order two_analyzed [1; 2; 3].
Proof.
  repeat split; try done. apply (bool_decide_unpack _). by vm_compute.
Qed.

Lemma two_analyzed_in_queue (lit : Z) :
  lit ∈ analyzed two_analyzed → vidx lit ∈ [1; 2; 3].
Proof.
  intros Hlit. cbn in Hlit.
  apply elem_of_cons in Hlit as [->|Hlit];
    [apply (bool_decide_unpack _); by vm_compute|].
  apply list_elem_of_singleton in Hlit as ->.
  apply (bool_decide_unpack _). by vm_compute.
Qed.

Lemma bump_variables_queue_witness :
  queue_order (bump_variables two_analyzed) [3; 1; 2].
Proof.
  apply (bump_variables_queue two_analyzed [1; 2; 3]).
  - apply two_analyzed_queue_order.
  - apply (bool_decide_unpack _). by vm_compute.
  - apply two_analyzed_in_queue.
Defined.

(** What a bump leaves alone, and what it writes when it moves the
    variable. *)
Lemma bump_variable_stamps (lit : Z) (s : Internal) :
  vals (bump_variable lit s) = vals s
  ∧ (∀ y, y ≠ vidx lit → btab (bump_variable lit s) !!! y = btab s !!! y)
  ∧ (Link.next (ltab s !!! vidx lit) ≠ 0 →
       Stats.bumped (stats (bump_variable lit s)) = Stats.bumped (stats s) + 1
       ∧ btab (bump_variable lit s) !!! vidx lit = Stats.bumped (stats s) + 1
       ∧ Queue.unassigned (queue (bump_variable lit s))
         = (if vals s !!! vidx lit =? 0 then vidx lit
            else Queue.unassigned (queue s))).
Proof.
  unfold bump_variable.
  destruct (Link.next (ltab s !!! vidx lit) =? 0) eqn:Hn.
  - split_and!; [done..|]. intros H. by apply Z.eqb_eq in Hn.
  - unfold update_queue_unassigned, Queue.dequeue, Queue.enqueue.
    cbn -[Z.add].
    match goal with
    | |- context [Var.level ?v =? ?l] => destruct (Var.level v =? l)
    end; cbn -[Z.add];
    destruct (vals s !!! vidx lit =? 0); cbn -[Z.add];
      (split_and!;
       [ done
       | intros y Hy; by rewrite lookup_total_insert_ne
       | intros _; by rewrite lookup_total_insert_eq ]).
Qed.

Lemma bump_order_Permutation (x : Z) (l : list Z) :
  NoDup l → x ∈ l → filter (λ y, y ≠ x) l ++ [x] ≡ₚ l.
Proof.
  intros Hnd Hin. apply list_elem_of_split in Hin as (l1 & l2 & ->).
  rewrite filter_ne_split by done.
  rewrite <- app_assoc. apply Permutation_app_head.
  symmetry. apply Permutation_cons_append.
Qed.

(** An invariant of the queue that every bump keeps is kept by a row of
    bumps. *)
Lemma foldl_bump_variable_invariant (I : Internal → list Z → Prop) :
  (∀ s lit l, queue_order s l → I s l → vidx lit ∈ l →
     I (bump_variable lit s) (filter (λ y, y ≠ vidx lit) l ++ [vidx lit])) →
  ∀ (b : list Z) (s : Internal) (l : list Z),
  queue_order s l → I s l → (∀ lit, lit ∈ b → vidx lit ∈ l) →
  ∃ l', l' ≡ₚ l
    ∧ queue_order (foldl (λ s lit, bump_variable lit s) s b) l'
    ∧ I (foldl (λ s lit, bump_variable lit s) s b) l'.
Proof.
  intros Hstep b. induction b as [|lit b IH]; intros s l Hq HI Hin; cbn [foldl].
  - by exists l.
  - assert (vidx lit ∈ l) as Hl by (apply Hin; left).
    destruct (IH (bump_variable lit s)
                (filter (λ y, y ≠ vidx lit) l ++ [vidx lit]))
      as (l' & Hp & Hq' & HI').
    + by apply bump_variable_order.
    + by apply Hstep.
    + intros lit' Hlit'. apply bump_variable_order_elem_of; [done|].
      apply Hin. by right.
    + exists l'. split; [|done]. rewrite Hp.
      apply bump_order_Permutation; [by destruct Hq|done].
Qed.

Lemma queue_order_next (s : Internal) (x y : Z) (l1 l2 : list Z) :
  queue_order s (l1 ++ x :: y :: l2) → Link.next (ltab s !!! x) ≠ 0.
Proof.
  intros (_ & Hl & _). apply linked_app in Hl as [_ Hl]. cbn in Hl.
  destruct Hl as (_ & -> & Hy & _). done.
Qed.

Lemma StronglySorted_ext_in {A} (R1 R2 : relation A) (l : list A) :
  (∀ a b, a ∈ l → b ∈ l → R1 a b → R2 a b) →
  StronglySorted R1 l → StronglySorted R2 l.
Proof.
  intros HR Hs. induction Hs as [|x l _ IH Hx]; constructor.
  - apply IH. intros a b Ha Hb. apply HR; by right.
  - rewrite Forall_forall in Hx |- *. intros y Hy.
    apply HR; [left|by right|by apply Hx].
Qed.

Lemma StronglySorted_delete_middle {A} (R : relation A) (l1 l2 : list A)
    (x : A) :
  StronglySorted R (l1 ++ x :: l2) → StronglySorted R (l1 ++ l2).
Proof.
  rewrite !StronglySorted_app. intros (Hc & H1 & H2).
  apply StronglySorted_inv in H2 as [H2 _].
  split_and!; [|done..]. intros a b Ha Hb. apply Hc; [done|by right].
Qed.

Lemma bump_variable_stamps_sorted (s : Internal) (lit : Z) (l : list Z) :
  queue_order s l → stamps_sorted s l → vidx lit ∈ l →
  stamps_sorted (bump_variable lit s)
                (filter (λ y, y ≠ vidx lit) l ++ [vidx lit]).
Proof.
  intros Hq [Hs Hb] Hin. apply list_elem_of_split in Hin as (l1 & l2 & ->).
  pose proof Hq as (Hnd & _).
  rewrite filter_ne_split by done.
  destruct l2 as [|y l2].
  - rewrite app_nil_r. by rewrite (bump_variable_front s lit l1).
  - destruct (bump_variable_stamps lit s) as (_ & Hbt & Hmv).
    destruct (Hmv (queue_order_next _ _ _ _ _ Hq)) as (Hbumped & Hx & _).
    assert (vidx lit ∉ l1 ++ y :: l2) as Hnotin.
    { apply NoDup_app in Hnd as (_ & H1 & Hnd).
      apply NoDup_cons in Hnd as [H2 _].
      intros [H|H]%elem_of_app; [by apply (H1 _ H); left|done]. }
    assert (∀ a, a ∈ l1 ++ y :: l2 →
              btab (bump_variable lit s) !!! a = btab s !!! a
              ∧ btab s !!! a ≤ Stats.bumped (stats s)) as Hold.
    { intros a Ha. split.
      - apply Hbt. by intros ->.
      - rewrite Forall_forall in Hb. apply Hb.
        apply elem_of_app in Ha as [Ha|Ha]; apply elem_of_app;
          [by left|right; by right]. }
    split.
    + apply StronglySorted_app_2.
      * intros a b Ha Hb'. apply list_elem_of_singleton in Hb' as ->.
        destruct (Hold a Ha) as [-> ?]. lia.
      * apply StronglySorted_delete_middle in Hs.
        eapply StronglySorted_ext_in; [|exact Hs].
        intros a b Ha Hb' Hab. cbn beta.
        destruct (Hold a Ha) as [-> _]. by destruct (Hold b Hb') as [-> _].
      * repeat constructor.
    + apply Forall_app. split.
      * apply Forall_forall. intros a Ha. destruct (Hold a Ha) as [-> ?]. lia.
      * apply Forall_singleton. lia.
Qed.

(** X6: the queue stays ordered by stamp.  When the stamps grow strictly
    along the queue and none is ahead of the bump counter, the same holds
    after [bump_variables], whatever the order of the batch: a variable
    that is moved to the front gets a stamp above all others. *)
Theorem bump_variables_stamps_sorted (s : Internal) (l : list Z) :
  queue_order s l → stamps_sorted s l →
  (∀ lit, lit ∈ analyzed s → vidx lit ∈ l) →
  ∃ l', l' ≡ₚ l
    ∧ queue_order (bump_variables s) l'
    ∧ stamps_sorted (bump_variables s) l'.
Proof.
  intros Hq Hs Hin. unfold bump_variables.
  apply (foldl_bump_variable_invariant stamps_sorted).
  - apply bump_variable_stamps_sorted.
  - unfold queue_order in *. by destruct (trail_bump_policy s).
  - unfold stamps_sorted in *. by destruct (trail_bump_policy s).
  - intros lit Hlit. apply Hin.
    destruct (trail_bump_policy s); cbn in Hlit;
      by rewrite sort_Permutation in Hlit.
Qed.

Lemma bump_variable_cursor (s : Internal) (lit : Z) (l : list Z) :
  queue_order s l → cursor_ok s l → vidx lit ∈ l →
  cursor_ok (bump_variable lit s)
            (filter (λ y, y ≠ vidx lit) l ++ [vidx lit]).
Proof.
  intros Hq (c1 & c2 & Hl & Hc2) Hin.
  pose proof Hin as Hin'.
  apply list_elem_of_split in Hin' as (l1 & l2 & El).
  destruct l2 as [|y l2].
  - rewrite El in Hq |- *. rewrite (bump_variable_front s lit l1) by done.
    rewrite filter_ne_split, app_nil_r by (by destruct Hq).
    exists c1, c2. by rewrite <- El.
  - rewrite El in Hq.
    destruct (bump_variable_stamps lit s) as (Hvals & _ & Hmv).
    destruct (Hmv (queue_order_next _ _ _ _ _ Hq)) as (_ & _ & Hu).
    unfold cursor_ok. rewrite Hu, Hvals.
    destruct (vals s !!! vidx lit =? 0) eqn:Hv.
    + eexists _, []. split; [reflexivity|constructor].
    + destruct (decide (Queue.unassigned (queue s) = vidx lit)) as [->|Hne].
      * eexists _, []. split; [reflexivity|constructor].
      * exists (filter (λ y, y ≠ vidx lit) c1),
               (filter (λ y, y ≠ vidx lit) c2 ++ [vidx lit]).
        split.
        -- rewrite Hl, filter_app, filter_cons_True by done.
           by rewrite <- app_assoc.
        -- apply Forall_app. split.
           ++ apply Forall_forall. intros a [_ Ha]%list_elem_of_filter.
              rewrite Forall_forall in Hc2. by apply Hc2.
           ++ apply Forall_singleton. by apply Z.eqb_neq.
Qed.

(** X7: the cursor to the first unassigned variable stays valid.  When
    all variables between the cursor and the front of the queue are
    assigned, the same holds after [bump_variables]: an unassigned
    variable that is moved to the front takes the cursor with it. *)
Theorem bump_variables_cursor (s : Internal) (l : list Z) :
  queue_order s l → cursor_ok s l →
  (∀ lit, lit ∈ analyzed s → vidx lit ∈ l) →
  ∃ l', l' ≡ₚ l
    ∧ queue_order (bump_variables s) l'
    ∧ cursor_ok (bump_variables s) l'.
Proof.
  intros Hq Hs Hin. unfold bump_variables.
  apply (foldl_bump_variable_invariant cursor_ok).
  - apply bump_variable_cursor.
  - unfold queue_order in *. by destruct (trail_bump_policy s).
  - unfold cursor_ok in *. by destruct (trail_bump_policy s).
  - intros lit Hlit. apply Hin.
    destruct (trail_bump_policy s); cbn in Hlit;
      by rewrite sort_Permutation in Hlit.
Qed.

Lemma bump_variables_stamps_sorted_witness :
  ∃ l', l' ≡ₚ [1; 2; 3]
    ∧ queue_order (bump_variables two_analyzed) l'
    ∧ stamps_sorted (bump_variables two_analyzed) l'.
Proof.
  apply (bump_variables_stamps_sorted two_analyzed [1; 2; 3]).
  - apply two_analyzed_queue_order.
  - split; apply (bool_decide_unpack _); by vm_compute.
  - apply two_analyzed_in_queue.
Defined.

Lemma bump_variables_cursor_witness :
  ∃ l', l' ≡ₚ [1; 2; 3]
    ∧ queue_order (bump_variables two_analyzed) l'
    ∧ cursor_ok (bump_variables two_analyzed) l'.
Proof.
  apply (bump_variables_cursor two_analyzed [1; 2; 3]).
  - apply two_analyzed_queue_order.
  - exists [1; 2], []. split; [reflexivity|constructor].
  - apply two_analyzed_in_queue.
Defined.

(** ** The stamps of resolved clauses *)

Lemma for_each_app {A S} (body : A → S → outcome S) (l1 l2 : list A) (s : S) :
  for_each body (l1 ++ l2) s = for_each body l1 s ≫= for_each body l2.
Proof.
  revert s. induction l1 as [|x l1 IH]; intros s; cbn; [done|].
  destruct (body x s) as [s1|w]; cbn; [apply IH|done].
Qed.

Lemma bump_clause_cases (c : Z) (s : Internal) :
  match bump_clause c s with
  | Done s' =>
      Clause.have_analyzed (clauses s !!! c) = true
      ∧ s' = set_clauses
               (<[c := Clause.set_analyzed (Stats.analyzed (stats s) + 1)
                                           (clauses s !!! c)]> (clauses s))
               (set_stats (Stats.set_analyzed (Stats.analyzed (stats s) + 1)
                                              (stats s)) s)
  | Abort why =>
      why = AssertionFailed
      ∧ Clause.have_analyzed (clauses s !!! c) = false
  end.
Proof.
  unfold bump_clause.
  by destruct (Clause.have_analyzed (clauses s !!! c)).
Qed.

Lemma bump_clause_slot (c c' : Z) (s s' : Internal) :
  bump_clause c s = Done s' →
  Clause.set_analyzed 0 (clauses s' !!! c')
  = Clause.set_analyzed 0 (clauses s !!! c').
Proof.
  intros H. pose proof (bump_clause_cases c s) as Hc.
  rewrite H in Hc. destruct Hc as [_ ->]. cbn.
  destruct (decide (c = c')) as [->|Hne].
  - by rewrite lookup_total_insert_eq.
  - by rewrite lookup_total_insert_ne.
Qed.

Lemma set_analyzed_have_analyzed (C C' : Clause.t) :
  Clause.set_analyzed 0 C = Clause.set_analyzed 0 C' →
  Clause.have_analyzed C = Clause.have_analyzed C'.
Proof. destruct C, C'. cbn. by intros [=]. Qed.

(** A row of clause bumps completes exactly when every clause has a slot
    for the stamp. *)
Lemma for_each_bump_clause_cases (l : list Z) :
  ∀ s : Internal,
  match for_each bump_clause l s with
  | Done s' =>
      Forall (λ c, Clause.have_analyzed (clauses s !!! c) = true) l
  | Abort why =>
      why = AssertionFailed
      ∧ Exists (λ c, Clause.have_analyzed (clauses s !!! c) = false) l
  end.
Proof.
  induction l as [|c l IH]; intros s; cbn [for_each]; [done|].
  pose proof (bump_clause_cases c s) as Hc.
  destruct (bump_clause c s) as [s1|w] eqn:E; cbn [mbind outcome_bind].
  - destruct Hc as [Hc _]. specialize (IH s1).
    assert (∀ c', Clause.have_analyzed (clauses s1 !!! c')
                  = Clause.have_analyzed (clauses s !!! c')) as Hslot.
    { intros c'. apply set_analyzed_have_analyzed.
      by eapply bump_clause_slot. }
    destruct (for_each bump_clause l s1) as [s'|w].
    + constructor; [done|].
      eapply Forall_impl; [exact IH|]. intros c'. cbn beta. by rewrite Hslot.
    + destruct IH as [-> IH]. split; [done|]. right.
      eapply Exists_impl; [exact IH|]. intros c'. cbn beta. by rewrite Hslot.
  - destruct Hc as [-> Hc]. split; [done|]. by left.
Qed.

(** The stamps that a row of clause bumps hands out lie above the
    counter it started from. *)
Lemma for_each_bump_clause_range (l : list Z) :
  ∀ s s' : Internal,
  for_each bump_clause l s = Done s' →
  Stats.analyzed (stats s') = Stats.analyzed (stats s) + Z.of_nat (length l)
  ∧ (∀ c, c ∈ l →
       Stats.analyzed (stats s) < Clause.analyzed (clauses s' !!! c)
                                ≤ Stats.analyzed (stats s'))
  ∧ (∀ c, c ∉ l → clauses s' !!! c = clauses s !!! c)
  ∧ (∀ c, Clause.set_analyzed 0 (clauses s' !!! c)
          = Clause.set_analyzed 0 (clauses s !!! c))
  ∧ resolved s' = resolved s.
Proof.
  induction l as [|c l IH]; intros s s' H; cbn [for_each] in H.
  - injection H as <-. split_and!; try done; [cbn; lia|].
    intros c Hc. by apply elem_of_nil in Hc.
  - apply bind_Done in H as (s1 & H1 & H).
    destruct (IH s1 s' H) as (Hst & Hrange & Hother & Hslot & Hres).
    pose proof (bump_clause_cases c s) as Hc. rewrite H1 in Hc.
    destruct Hc as [_ Hs1].
    assert (Stats.analyzed (stats s1) = Stats.analyzed (stats s) + 1) as Hst1
      by (by rewrite Hs1).
    split_and!.
    + rewrite Hst, Hst1. cbn [length]. lia.
    + intros c' Hc'. destruct (decide (c' ∈ l)) as [Hin|Hin].
      * specialize (Hrange c' Hin). lia.
      * apply elem_of_cons in Hc' as [->|?]; [|done].
        rewrite (Hother c Hin), Hs1. cbn.
        rewrite lookup_total_insert_eq. cbn. lia.
    + intros c' Hc'. apply not_elem_of_cons in Hc' as [Hne Hc'].
      rewrite (Hother c' Hc'), Hs1. cbn.
      by rewrite lookup_total_insert_ne.
    + intros c'. rewrite Hslot. by eapply bump_clause_slot.
    + rewrite Hres, Hs1. done.
Qed.

(** X8: [bump_resolved_clauses] completes exactly when every clause of
    the batch has a slot for the stamp; then the batch is empty
    afterwards and the counter of stamps has advanced by the size of the
    batch.  Otherwise the assertion of [bump_clause] fails. *)
Theorem bump_resolved_clauses_asserts (s : Internal) :
  match bump_resolved_clauses s with
  | Done s' =>
      Forall (λ c, Clause.have_analyzed (clauses s !!! c) = true) (resolved s)
      ∧ resolved s' = []
      ∧ Stats.analyzed (stats s')
        = Stats.analyzed (stats s) + Z.of_nat (length (resolved s))
  | Abort why =>
      why = AssertionFailed
      ∧ Exists (λ c, Clause.have_analyzed (clauses s !!! c) = false)
               (resolved s)
  end.
Proof.
  unfold bump_resolved_clauses. cbn [resolved set_resolved].
  pose proof (sort_Permutation (analyzed_earlier s) (resolved s)) as Hperm.
  pose proof (for_each_bump_clause_cases
                (sort (analyzed_earlier s) (resolved s))
                (set_resolved (sort (analyzed_earlier s) (resolved s)) s))
    as Hcases.
  destruct (for_each bump_clause _ _) as [s1|w] eqn:E; cbn.
  - apply for_each_bump_clause_range in E as (Hst & _).
    split_and!; [|done|].
    + by rewrite <- Hperm.
    + rewrite Hst. cbn. by rewrite Hperm.
  - destruct Hcases as [-> Hcases]. split; [done|]. by rewrite <- Hperm.
Qed.

(** X9: the stamps of [bump_resolved_clauses] keep the clauses in their
    relative order.  Every clause of the batch gets a stamp above the
    former counter, the other clauses keep theirs, a clause of the batch
    that was stamped earlier than another one is stamped earlier than it
    again, and nothing but the stamps of clauses is written. *)
Theorem bump_resolved_clauses_keeps_order (s s' : Internal) :
  bump_resolved_clauses s = Done s' →
  (∀ c, c ∈ resolved s →
     Stats.analyzed (stats s) < Clause.analyzed (clauses s' !!! c)
                              ≤ Stats.analyzed (stats s'))
  ∧ (∀ c, c ∉ resolved s → clauses s' !!! c = clauses s !!! c)
  ∧ (∀ a b, a ∈ resolved s → b ∈ resolved s →
       Clause.analyzed (clauses s !!! a) < Clause.analyzed (clauses s !!! b) →
       Clause.analyzed (clauses s' !!! a) < Clause.analyzed (clauses s' !!! b))
  ∧ (∀ c, Clause.set_analyzed 0 (clauses s' !!! c)
          = Clause.set_analyzed 0 (clauses s !!! c)).
Proof.
  unfold bump_resolved_clauses. cbn [resolved set_resolved]. intros H.
  pose proof (sort_Permutation (analyzed_earlier s) (resolved s)) as Hperm.
  pose proof (sort_analyzed_earlier s (resolved s)) as Hsorted.
  set (L := sort (analyzed_earlier s) (resolved s)) in *.
  apply bind_Done in H as (s1 & H & [= <-]).
  pose proof (for_each_bump_clause_range L _ s1 H)
    as (Hst & Hrange & Hother & Hslot & _).
  cbn [clauses stats set_resolved] in *.
  split_and!.
  - intros c Hc. apply Hrange. by rewrite Hperm.
  - intros c Hc. apply Hother. by rewrite Hperm.
  - intros a b Ha Hb Hab. rewrite <- Hperm in Ha, Hb.
    apply list_elem_of_split_r in Ha as (L1 & L2 & EL & Ha).
    assert (b ∈ L2) as Hb2.
    { rewrite EL in Hb, Hsorted.
      apply elem_of_app in Hb as [Hb|Hb].
      - apply StronglySorted_app in Hsorted as (Hc & _).
        specialize (Hc b a Hb (list_elem_of_here _ _)). cbn beta in Hc. lia.
      - apply elem_of_cons in Hb as [->|Hb]; [lia|done]. }
    rewrite EL in H.
    change (L1 ++ a :: L2) with (L1 ++ [a] ++ L2) in H.
    rewrite app_assoc, for_each_app in H.
    apply bind_Done in H as (s2 & H2 & H3).
    apply for_each_bump_clause_range in H2 as (_ & Hr2 & _).
    apply for_each_bump_clause_range in H3 as (_ & Hr3 & Ho3 & _).
    rewrite (Ho3 a Ha).
    specialize (Hr2 a). specialize (Hr3 b Hb2).
    assert (a ∈ L1 ++ [a]) as Hin by (apply elem_of_app; right; left).
    specialize (Hr2 Hin). lia.
  - exact Hslot.
Qed.

Lemma bump_resolved_clauses_keeps_order_witness :
  ∃ s', bump_resolved_clauses two_resolved = Done s'
    ∧ Clause.analyzed (clauses s' !!! 10) < Clause.analyzed (clauses s' !!! 13).
Proof.
  destruct (bump_resolved_clauses two_resolved) as [s'|] eqn:E;
    [|by vm_compute in E].
  exists s'. split; [done|].
  destruct (bump_resolved_clauses_keeps_order two_resolved s' E)
    as (_ & _ & Horder & _).
  apply Horder.
  - apply (bool_decide_unpack _). by vm_compute.
  - apply (bool_decide_unpack _). by vm_compute.
  - by vm_compute.
Defined.

Lemma for_each_bump_clause_frame (l : list Z) :
  ∀ s s' : Internal,
  for_each bump_clause l s = Done s' →
  s' = set_clauses (clauses s')
         (set_stats (Stats.set_analyzed (Stats.analyzed (stats s')) (stats s))
                    s).
Proof.
  induction l as [|c l IH]; intros s s' H; cbn [for_each] in H.
  - injection H as <-. rewrite stats_set_analyzed_id. by destruct s.
  - apply bind_Done in H as (s1 & H1 & H).
    pose proof (bump_clause_cases c s) as Hc. rewrite H1 in Hc.
    destruct Hc as [_ Hs1].
    etransitivity; [exact (IH s1 s' H)|]. rewrite Hs1.
    destruct s as [? ? ? ? ? ? ? ? ? ? ? ? ? ? ? ? ? ? st ? ?].
    by destruct st.
Qed.

Lemma bump_resolved_clauses_frame (s s' : Internal) :
  bump_resolved_clauses s = Done s' →
  s' = set_resolved []
         (set_clauses (clauses s')
            (set_stats (Stats.set_analyzed (Stats.analyzed (stats s'))
                                           (stats s)) s)).
Proof.
  unfold bump_resolved_clauses. intros H.
  apply bind_Done in H as (s1 & H & [= <-]).
  apply for_each_bump_clause_frame in H. rewrite H at 1.
  by destruct s.
Qed.

(** ** What the resolution walk keeps, on any state *)

Lemma analyze_literal_Done (lit open : Z) (s s' : Internal) (open' : Z) :
  analyze_literal lit open s = Done (s', open') →
  lit ≠ 0
  ∧ (s' = s ∧ open' = open
       ∧ (Flags.seen (flags s lit) = true ∨ Var.level (var s lit) = 0)
     ∨ s' = mark_analyzed lit s
       ∧ open' = (if Var.level (var s lit) =? level s then open + 1 else open)
       ∧ Flags.seen (flags s lit) = false
       ∧ Var.level (var s lit) ≠ 0
       ∧ val s lit < 0).
Proof.
  intros H.
  assert (lit ≠ 0) as Hl.
  { intros ->. by vm_compute in H. }
  split; [done|]. rewrite (analyze_literal_cases _ _ _ Hl) in H.
  destruct (Flags.seen (flags s lit)) eqn:Hs.
  { injection H as <- <-. left. auto. }
  destruct (Z.eqb_spec (Var.level (var s lit)) 0) as [Hv|Hv].
  { injection H as <- <-. left. auto. }
  destruct (Z.ltb_spec (val s lit) 0) as [Hf|Hf]; [|done].
  injection H as <- <-. right. auto.
Qed.

Section WalkInvariant.
Variable I : Internal → Prop.
Hypothesis I_mark : ∀ lit s,
  lit ≠ 0 → Flags.seen (flags s lit) = false → Var.level (var s lit) ≠ 0 →
  val s lit < 0 → I s → I (mark_analyzed lit s).
Hypothesis I_save : ∀ c s, I s → I (save_as_resolved_clause c s).

Lemma analyze_literal_invariant (lit open : Z) (s s' : Internal)
    (open' : Z) :
  I s → analyze_literal lit open s = Done (s', open') → I s'.
Proof.
  intros HI H. apply analyze_literal_Done in H as (Hl & [H|H]).
  - by destruct H as (-> & _).
  - destruct H as (-> & _ & ? & ? & ?). by apply I_mark.
Qed.

Lemma analyze_literals_invariant (lit : Z) (lits : list Z) :
  ∀ (s : Internal) (open : Z) (s' : Internal) (open' : Z),
  I s →
  for_each (λ other '(s, open),
              if negb (other =? lit) then analyze_literal other open s
              else Done (s, open)) lits (s, open) = Done (s', open') →
  I s'.
Proof.
  induction lits as [|a lits IH]; intros s open s' open' HI H;
    cbn [for_each] in H.
  - by injection H as <- <-.
  - apply bind_Done in H as ([s1 open1] & H1 & H).
    apply (IH s1 open1 s' open'); [|done].
    destruct (negb (a =? lit)).
    + by eapply analyze_literal_invariant.
    + by injection H1 as <- <-.
Qed.

Lemma analyze_reason_invariant (lit : Z) (reason : option Z) (open : Z)
    (s s' : Internal) (open' : Z) :
  I s → analyze_reason lit reason open s = Done (s', open') → I s'.
Proof.
  intros HI H. unfold analyze_reason in H.
  destruct reason as [c|]; [|done].
  eapply analyze_literals_invariant; [|exact H]. by apply I_save.
Qed.

Lemma analyze_loop_invariant (fuel : nat) :
  ∀ (reason : option Z) (uip open : Z) (i : nat) (s s' : Internal)
    (uip' : Z),
  I s → analyze_loop fuel reason uip open i s = Done (s', uip') → I s'.
Proof.
  induction fuel as [|fuel IH]; intros reason uip open i s s' uip' HI H;
    [done|].
  cbn [analyze_loop] in H.
  apply bind_Done in H as ([s1 open1] & H1 & H).
  assert (I s1) as HI1.
  { destruct reason.
    - by eapply analyze_reason_invariant.
    - by eapply analyze_literal_invariant. }
  apply bind_Done in H as ([u j] & _ & H).
  destruct (open1 - 1 =? 0).
  - by injection H as <- <-.
  - by eapply IH.
Qed.

Hypothesis I_clause : ∀ cl s, I s → I (set_clause cl s).

Lemma analyze_derive_invariant (s s' : Internal) (uip : Z) :
  I s → analyze_derive s = Done (s', uip) → I s'.
Proof.
  intros HI H. unfold analyze_derive in H.
  apply bind_Done in H as ([s1 u] & H1 & H).
  apply bind_Done in H as (s2 & H2 & H). injection H as <- <-.
  unfold check_learned_clause in H2.
  apply bind_Done in H2 as ([] & _ & H2).
  apply bind_Done in H2 as ([] & _ & H2). injection H2 as <-.
  apply I_clause. by eapply analyze_loop_invariant.
Qed.
End WalkInvariant.


Lemma walk_frame_refl (s : Internal) : walk_frame s s.
Proof. by repeat split. Qed.

Lemma walk_frame_trans (s1 s2 s3 : Internal) :
  walk_frame s1 s2 → walk_frame s2 s3 → walk_frame s1 s3.
Proof.
  intros (H1 & H2 & H3 & H4 & H5) (K1 & K2 & K3 & K4 & K5).
  split_and!.
  - by rewrite K1.
  - intros c. by rewrite K2.
  - auto.
  - intros x. by rewrite K4.
  - auto.
Qed.

Lemma walk_frame_mark_analyzed (lit : Z) (s : Internal) :
  walk_frame s (mark_analyzed lit s).
Proof.
  split_and!; try done.
  - intros x. unfold mark_analyzed. cbn.
    destruct (decide (vidx lit = x)) as [<-|Hne].
    + rewrite lookup_total_insert_eq. unfold flags.
      by destruct (ftab s !!! vidx lit).
    + by rewrite lookup_total_insert_ne.
  - intros x Hx. unfold mark_analyzed. cbn.
    destruct (decide (vidx lit = x)) as [<-|Hne].
    + by rewrite lookup_total_insert_eq.
    + by rewrite lookup_total_insert_ne.
Qed.

Lemma walk_frame_save (c : Z) (s : Internal) :
  walk_frame s (save_as_resolved_clause c s).
Proof.
  unfold save_as_resolved_clause.
  destruct (negb (Clause.redundant (clauses s !!! c)));
    [apply walk_frame_refl|].
  destruct (Clause.hbr (clauses s !!! c)); cbn [clauses set_clauses].
  - assert (walk_frame s
              (set_clauses (<[c:=Clause.set_used true (clauses s !!! c)]>
                              (clauses s)) s)) as Hf.
    { split_and!; try done.
      - intros c'. cbn. destruct (decide (c = c')) as [<-|Hne].
        + rewrite lookup_total_insert_eq. by destruct (clauses s !!! c).
        + by rewrite lookup_total_insert_ne.
      - intros c' Hc'. cbn. destruct (decide (c = c')) as [<-|Hne].
        + by rewrite lookup_total_insert_eq.
        + by rewrite lookup_total_insert_ne. }
    match goal with
    | |- context [if negb ?b then _ else _] => destruct (negb b)
    end; [done|].
    eapply walk_frame_trans; [exact Hf|]. by repeat split.
  - destruct (negb (Clause.have_analyzed (clauses s !!! c))).
    + apply walk_frame_refl.
    + by repeat split.
Qed.

(** X10: what the derivation of the first UIP clause never writes.  When
    [analyze] has derived the first UIP clause, on whatever state, the
    assignment, the trail, the variable table, the queue and the stamps,
    the statistics, the proof and the conflict are as before; of a clause
    at most the used mark has changed, and of the flags of a variable at
    most the seen flag; marks and seen flags that were set are still
    set. *)
Theorem analyze_derive_untouched (s s' : Internal) (uip : Z) :
  analyze_derive s = Done (s', uip) → walk_frame s s'.
Proof.
  apply (analyze_derive_invariant (walk_frame s)).
  - intros lit s1 _ _ _ _ H. eapply walk_frame_trans; [exact H|].
    apply walk_frame_mark_analyzed.
  - intros c s1 H. eapply walk_frame_trans; [exact H|].
    apply walk_frame_save.
  - intros cl s1 H. eapply walk_frame_trans; [exact H|]. by repeat split.
  - apply walk_frame_refl.
Qed.

Lemma analyze_derive_untouched_witness :
  ∃ s' uip, analyze_derive Scenario.conflict_on_level_two = Done (s', uip)
    ∧ walk_frame Scenario.conflict_on_level_two s'.
Proof.
  destruct (analyze_derive Scenario.conflict_on_level_two) as [[s' uip]|]
    eqn:E; [|by vm_compute in E].
  exists s', uip. split; [done|].
  by apply (analyze_derive_untouched _ _ uip).
Defined.


(** ** The level records *)

Lemma foldr_min_snoc (m t : Z) (l : list Z) :
  foldr Z.min m (l ++ [t]) = Z.min t (foldr Z.min m l).
Proof. induction l as [|x l IH]; cbn; [done|]. rewrite IH. lia. Qed.

Lemma scratch_clean_level_records (s : Internal) :
  scratch_clean s → level_records s.
Proof.
  intros Hc. split.
  - rewrite (clean_levels _ Hc). constructor.
  - intros l. rewrite (clean_analyzed _ Hc), (clean_levels _ Hc),
      (clean_control _ Hc l). cbn. split_and!; try done.
    split; [by intros ?%elem_of_nil|done].
Qed.

Lemma level_records_mark_analyzed (lit : Z) (s : Internal) :
  level_records s → level_records (mark_analyzed lit s).
Proof.
  intros [Hnd Hrec].
  set (L := Var.level (var s lit)).
  assert (∀ a, lvl (mark_analyzed lit s) a = lvl s a) as Hlvl by done.
  assert (∀ a, var (mark_analyzed lit s) a = var s a) as Hvar by done.
  destruct (Hrec L) as (HsL & HtL & HlL).
  assert (Level.seen (control s !!! L) = 0 ↔ L ∉ levels s) as Hnew.
  { rewrite HlL, HsL. destruct (filter _ (analyzed s)); cbn; [|split].
    - split; [by intros _ ?|done].
    - lia.
    - intros H. by destruct H. }
  split.
  - unfold mark_analyzed. cbn [levels set_analyzed set_ftab set_control
      set_levels set_clause]. fold L.
    destruct (Z.eqb_spec (Level.seen (control s !!! L)) 0) as [H0|H0];
      [|done].
    apply NoDup_app. split_and!; [done| |apply NoDup_singleton].
    intros x Hx ->%list_elem_of_singleton. by apply Hnew in H0.
  - intros l.
    assert (analyzed (mark_analyzed lit s) = analyzed s ++ [lit]) as -> by done.
    assert (control (mark_analyzed lit s)
            = <[L := Level.mk (Level.seen (control s !!! L) + 1)
                       (if Var.trail (var s lit) <? Level.trail (control s !!! L)
                        then Var.trail (var s lit)
                        else Level.trail (control s !!! L))]> (control s))
      as -> by done.
    assert (levels (mark_analyzed lit s)
            = if Level.seen (control s !!! L) =? 0
              then levels s ++ [L] else levels s) as -> by done.
    rewrite filter_app.
    rewrite (list_filter_iff (λ a, lvl (mark_analyzed lit s) a = l)
                             (λ a, lvl s a = l)) by done.
    rewrite (list_filter_iff (λ a, lvl (mark_analyzed lit s) a = l)
                             (λ a, lvl s a = l) [lit]) by done.
    rewrite (list_fmap_ext (λ a, Var.trail (var (mark_analyzed lit s) a))
                           (λ a, Var.trail (var s a))) by done.
    destruct (decide (L = l)) as [<-|Hne].
    + rewrite lookup_total_insert_eq. cbn [Level.seen Level.trail].
      rewrite filter_cons_True, filter_nil by done.
      rewrite length_app, fmap_app.
      change ((λ a, Var.trail (var s a)) <$> [lit])
        with [Var.trail (var s lit)].
      rewrite foldr_min_snoc, <- HtL. cbn [length].
      split_and!.
      * rewrite HsL. lia.
      * destruct (Z.ltb_spec (Var.trail (var s lit))
                             (Level.trail (control s !!! L))); lia.
      * split; [intros _ H; by destruct (filter _ (analyzed s))|].
        intros _. destruct (Z.eqb_spec (Level.seen (control s !!! L)) 0)
          as [H0|H0].
        -- apply elem_of_app. right. left.
        -- apply HlL. intros E. rewrite E in HsL. cbn in HsL. lia.
    + rewrite lookup_total_insert_ne by done.
      rewrite filter_cons_False, filter_nil, app_nil_r by done.
      destruct (Hrec l) as (Hsl & Htl & Hll). split_and!; [done..|].
      rewrite <- Hll.
      destruct (Level.seen (control s !!! L) =? 0); [|done].
      rewrite elem_of_app, list_elem_of_singleton.
      split; [by intros [?|?]|by left].
Qed.

Lemma level_records_frame (s s' : Internal) :
  vtab s' = vtab s → analyzed s' = analyzed s → control s' = control s →
  levels s' = levels s → level_records s → level_records s'.
Proof.
  unfold level_records, lvl, var. by intros -> -> -> ->.
Qed.

Lemma analyze_derive_keeps_level_records (s s' : Internal) (uip : Z) :
  level_records s → analyze_derive s = Done (s', uip) → level_records s'.
Proof.
  apply (analyze_derive_invariant level_records).
  - intros lit s1 _ _ _ _. apply level_records_mark_analyzed.
  - intros c s1. apply level_records_frame;
      unfold save_as_resolved_clause; repeat case_match; done.
  - intros cl s1. by apply level_records_frame.
Qed.

(** X11: the level records follow the analyzed batch.  When the first
    UIP clause has been derived from a clean state, the record of each
    level counts the analyzed literals of that level and holds their
    lowest trail position, and the list of levels names each level with
    an analyzed literal once; the records of the other levels are as
    [reset] leaves them. *)
Theorem analyze_derive_level_records (s s' : Internal) (uip : Z) :
  scratch_clean s → analyze_derive s = Done (s', uip) →
  level_records s'
  ∧ (∀ l, l ∉ levels s' → control s' !!! l = Level.reset).
Proof.
  intros Hclean Hderive.
  pose proof (analyze_derive_keeps_level_records s s' uip
                (scratch_clean_level_records s Hclean) Hderive) as Hrec.
  split; [done|]. intros l Hl. destruct Hrec as [_ Hrec].
  destruct (Hrec l) as (Hs & Ht & Hin).
  destruct (filter (λ a, lvl s' a = l) (analyzed s')) as [|a k] eqn:E.
  - cbn in Hs, Ht. destruct (control s' !!! l). cbn in *. by subst.
  - destruct Hl. by apply Hin.
Qed.

Lemma analyze_derive_level_records_witness :
  ∃ s' uip, analyze_derive Scenario.conflict_on_level_two = Done (s', uip)
    ∧ level_records s'
    ∧ (∀ l, l ∉ levels s' → control s' !!! l = Level.reset).
Proof.
  destruct (analyze_derive Scenario.conflict_on_level_two) as [[s' uip]|]
    eqn:E; [|by vm_compute in E].
  exists s', uip. split; [done|].
  apply (analyze_derive_level_records Scenario.conflict_on_level_two s' uip);
    [|done].
  apply conflict_on_level_two_clean.
Defined.

Lemma analyze_update_glue (M : Minimizer) (s s' : Internal) (glue size : Z) :
  analyze_update s = Done (s', glue, size) →
  glue = Z.of_nat (length (levels s)).
Proof.
  unfold analyze_update. intros H.
  apply bind_Done in H as ([s1 size1] & _ & H). by injection H as _ <- _.
Qed.

Lemma elem_of_filter_nonempty {A} (P : A → Prop) `{!∀ x, Decision (P x)}
    (l : list A) :
  filter P l ≠ [] ↔ ∃ a, a ∈ l ∧ P a.
Proof.
  split.
  - destruct (filter P l) as [|a k] eqn:E; [done|]. intros _.
    assert (a ∈ filter P l) as Hin by (rewrite E; left).
    apply list_elem_of_filter in Hin as [? ?]. by exists a.
  - intros (a & Ha & HP) E.
    assert (a ∈ filter P l) as Hin by (by apply list_elem_of_filter).
    rewrite E in Hin. by apply elem_of_nil in Hin.
Qed.

(** X12: the glue is the number of decision levels of the first UIP
    clause.  On a well-formed conflict the list of levels that the walk
    collects holds exactly the levels of the literals of the first UIP
    clause, each once; the glue that [analyze] reads off that list, and
    that the learned clause carries even when minimization has removed
    literals, is their number. *)
Theorem glue_counts_levels (M : Minimizer) (s : Internal) (cl : list Z)
    (uip glue : Z) :
  well_formed s → scratch_clean s →
  learned_clause s = Some (cl, uip, glue) →
  ∃ s1, analyze_derive s = Done (s1, uip)
    ∧ levels s1 ≡ₚ remove_dups (lvl s <$> clause s1)
    ∧ glue = Z.of_nat (length (remove_dups (lvl s <$> clause s1))).
Proof.
  intros Hwf Hclean Hlearned.
  destruct (analyze_derive_spec s Hwf Hclean)
    as (sw & u & j & Hderive & Hinv & Hju & Hlu & Hua & _).
  set (s1 := set_clause (clause sw ++ [- u]) sw) in *.
  unfold learned_clause in Hlearned. rewrite Hderive in Hlearned.
  cbn [mbind outcome_bind] in Hlearned.
  destruct (bump_resolved_clauses s1) as [s2|] eqn:E2; [|done].
  cbn [mbind outcome_bind] in Hlearned.
  destruct (analyze_update s2) as [[[s3 g] size]|] eqn:E3; [|done].
  cbn in Hlearned. injection Hlearned as _ <- <-.
  apply analyze_update_glue in E3.
  apply bump_resolved_clauses_frame in E2.
  assert (levels s2 = levels s1) as Hl2 by (by rewrite E2).
  exists s1. split; [done|].
  assert (levels s1 ≡ₚ remove_dups (lvl s <$> clause s1)) as Hperm.
  { pose proof (analyze_derive_keeps_level_records s s1 u
                  (scratch_clean_level_records s Hclean) Hderive)
      as [Hnd Hrec].
    apply NoDup_Permutation; [done|apply NoDup_remove_dups|].
    intros l. rewrite elem_of_remove_dups, list_elem_of_fmap.
    destruct (Hrec l) as (_ & _ & ->). rewrite elem_of_filter_nonempty.
    assert (∀ a, lvl s1 a = lvl s a) as Hlvl.
    { intros a. by apply (walk_core_var sw s a), (inv_core _ _ _ Hinv). }
    assert (clause s1 = filter (λ a, lvl s a < level s) (analyzed sw) ++ [- u])
      as Hcl by (subst s1; cbn; by rewrite (inv_clause _ _ _ Hinv)).
    assert (lvl s (- u) = level s) as Hlu'.
    { unfold lvl, var. by rewrite vidx_opp. }
    rewrite Hcl. change (analyzed s1) with (analyzed sw). split.
    - intros (a & Ha & <-). rewrite Hlvl.
      destruct (decide (lvl s a < level s)) as [Hlow|Hcur].
      + exists a. split; [done|]. apply elem_of_app. left.
        by apply list_elem_of_filter.
      + exists (- u). split; [|apply elem_of_app; right; left].
        rewrite Hlu'.
        destruct (inv_analyzed _ _ _ Hinv a Ha) as (_ & _ & _ & Htr).
        apply list_elem_of_lookup in Htr as [k Hk].
        destruct (wf_trail_entry _ Hwf k _ Hk) as (_ & _ & _ & Hr).
        unfold lvl, var in Hr. rewrite vidx_opp in Hr.
        unfold lvl, var in Hcur |- *. lia.
    - intros (a & -> & Ha). apply elem_of_app in Ha as [Ha|Ha].
      + apply list_elem_of_filter in Ha as [_ Ha]. exists a.
        by rewrite Hlvl.
      + apply list_elem_of_singleton in Ha as ->. exists (- u).
        by rewrite Hlvl. }
  split; [done|]. by rewrite E3, Hl2, Hperm.
Qed.

Lemma glue_counts_levels_witness :
  ∃ s1, analyze_derive Scenario.conflict_on_level_two = Done (s1, 2)
    ∧ levels s1
      ≡ₚ remove_dups (lvl Scenario.conflict_on_level_two <$> clause s1)
    ∧ 2 = Z.of_nat (length (remove_dups
                              (lvl Scenario.conflict_on_level_two
                                 <$> clause s1))).
Proof.
  apply (glue_counts_levels Scenario.identity_minimizer
           Scenario.conflict_on_level_two [-1; -2] 2 2).
  - exact conflict_on_level_two_well_formed.
  - exact conflict_on_level_two_clean.
  - by vm_compute.
Defined.

(** ** Literals are analyzed once *)

Lemma vidx_eq_nonzero (a b : Z) : vidx a = vidx b → b ≠ 0 → a ≠ 0.
Proof. unfold vidx. lia. Qed.

Lemma flags_vidx (s : Internal) (a b : Z) :
  vidx a = vidx b → flags s a = flags s b.
Proof. unfold flags. by intros ->. Qed.

Lemma var_vidx (s : Internal) (a b : Z) :
  vidx a = vidx b → var s a = var s b.
Proof. unfold var. by intros ->. Qed.

(** X13: a variable is analyzed at most once.  After [analyze_literal]
    has completed for a literal, a further call for that literal or for
    its negation changes neither the state nor the count of open
    literals: the variable is seen, or fixed at level 0. *)
Theorem analyze_literal_once (lit lit' open open' : Z) (s s1 : Internal)
    (open1 : Z) :
  analyze_literal lit open s = Done (s1, open1) → vidx lit' = vidx lit →
  analyze_literal lit' open' s1 = Done (s1, open').
Proof.
  intros H Hv. apply analyze_literal_Done in H as (Hl & H).
  rewrite analyze_literal_cases by (by eapply vidx_eq_nonzero).
  rewrite (flags_vidx s1 _ _ Hv), (var_vidx s1 _ _ Hv).
  destruct H as [(-> & _ & [Hs|H0])|(-> & _)].
  - by rewrite Hs.
  - rewrite H0. by destruct (Flags.seen (flags s lit)).
  - assert (Flags.seen (flags (mark_analyzed lit s) lit) = true) as ->; [|done].
    unfold flags, mark_analyzed. cbn. by rewrite lookup_total_insert_eq.
Qed.

Lemma analyze_literal_once_witness :
  ∃ s1 open1,
    analyze_literal (-3) 0 Scenario.conflict_on_level_two = Done (s1, open1)
    ∧ analyze_literal 3 open1 s1 = Done (s1, open1).
Proof.
  destruct (analyze_literal (-3) 0 Scenario.conflict_on_level_two)
    as [[s1 open1]|] eqn:E; [|by vm_compute in E].
  exists s1, open1. split; [done|].
  by apply (analyze_literal_once (-3) 3 0 open1
              Scenario.conflict_on_level_two s1 open1).
Defined.

(** ** What a reason contributes *)

Lemma seen_mark_analyzed (a : Z) (s : Internal) (x : Z) :
  Flags.seen (ftab (mark_analyzed a s) !!! x) = true
  ↔ Flags.seen (ftab s !!! x) = true ∨ x = vidx a.
Proof.
  unfold mark_analyzed. cbn.
  destruct (decide (vidx a = x)) as [<-|Hne].
  - rewrite lookup_total_insert_eq. cbn. split; [by right|done].
  - rewrite lookup_total_insert_ne by done. split; [by left|].
    by intros [?|?].
Qed.

Lemma analyze_literals_counts (lit : Z) (lits : list Z) :
  ∀ (s : Internal) (open : Z) (s' : Internal) (open' : Z),
  for_each (λ other '(s, open),
              if negb (other =? lit) then analyze_literal other open s
              else Done (s, open)) lits (s, open) = Done (s', open') →
  ∃ added : list Z,
    analyzed s' = analyzed s ++ added
    ∧ clause s' = clause s ++ filter (λ a, lvl s a < level s) added
    ∧ open' = open
              + Z.of_nat (length (filter (λ a, lvl s a = level s) added))
    ∧ NoDup (vidx <$> added)
    ∧ (∀ a, a ∈ added →
         a ∈ lits ∧ a ≠ lit
         ∧ Flags.seen (flags s a) = false ∧ lvl s a ≠ 0 ∧ val s a < 0)
    ∧ (∀ a, a ∈ lits → a ≠ lit →
         Flags.seen (flags s' a) = true ∨ lvl s a = 0)
    ∧ vtab s' = vtab s ∧ vals s' = vals s ∧ level s' = level s
    ∧ (∀ x, Flags.seen (ftab s' !!! x) = true
            ↔ Flags.seen (ftab s !!! x) = true ∨ x ∈ vidx <$> added).
Proof.
  induction lits as [|a lits IH]; intros s open s' open' H;
    cbn [for_each] in H.
  - injection H as <- <-. exists []. rewrite !app_nil_r. cbn.
    split_and!; try done; try lia.
    + constructor.
    + by intros a ?%elem_of_nil.
    + by intros a ?%elem_of_nil.
    + intros x. split; [by left|]. by intros [?|?%elem_of_nil].
  - apply bind_Done in H as ([s1 open1] & H1 & H).
    destruct (IH s1 open1 s' open' H)
      as (added & Han & Hcl & Hop & Hnd & Hadd & Hall & Hvt & Hva & Hle & Hse).
    assert (s1 = s ∧ open1 = open
            ∧ (a ≠ lit → Flags.seen (flags s a) = true ∨ lvl s a = 0)
            ∨ a ≠ lit ∧ s1 = mark_analyzed a s
              ∧ open1 = (if lvl s a =? level s then open + 1 else open)
              ∧ Flags.seen (flags s a) = false ∧ lvl s a ≠ 0 ∧ val s a < 0)
      as [(-> & -> & Hskip)|(Hne & -> & -> & Hns & Hl0 & Hfalse)].
    { destruct (Z.eqb_spec a lit) as [->|Hne]; cbn [negb] in H1.
      - injection H1 as <- <-. left. by split_and!.
      - apply analyze_literal_Done in H1 as (_ & [(-> & -> & Hs)|Hm]).
        + left. by split_and!.
        + right. destruct Hm as (-> & -> & ? & ? & ?). by split_and!. }
    + exists added. split_and!; try done.
      * intros b Hb. destruct (Hadd b Hb) as (? & ?). split; [by right|done].
      * intros b Hb Hbl. apply elem_of_cons in Hb as [->|Hb]; [|by apply Hall].
        destruct (Hskip Hbl) as [Hs|?]; [|by right]. left.
        unfold flags. apply Hse. by left.
    + assert (∀ b, lvl (mark_analyzed a s) b = lvl s b) as Hlvl by done.
      assert (∀ b, val (mark_analyzed a s) b = val s b) as Hval by done.
      assert (level (mark_analyzed a s) = level s) as Hlev by done.
      exists (a :: added). split_and!.
      * rewrite Han. unfold mark_analyzed. cbn. by rewrite <- app_assoc.
      * rewrite Hcl, Hlev.
        rewrite (list_filter_iff (λ b, lvl (mark_analyzed a s) b < level s)
                                 (λ b, lvl s b < level s)) by done.
        unfold mark_analyzed. cbn [clause set_analyzed set_ftab set_control
          set_levels set_clause]. fold (lvl s a).
        destruct (Z.ltb_spec (lvl s a) (level s)) as [Hlow|Hlow].
        -- rewrite filter_cons_True by done. by rewrite <- app_assoc.
        -- rewrite filter_cons_False by lia. done.
      * rewrite Hop, Hlev.
        rewrite (list_filter_iff (λ b, lvl (mark_analyzed a s) b = level s)
                                 (λ b, lvl s b = level s)) by done.
        destruct (Z.eqb_spec (lvl s a) (level s)) as [Hcur|Hcur].
        -- rewrite filter_cons_True by done. cbn [length]. lia.
        -- rewrite filter_cons_False by done. lia.
      * rewrite fmap_cons. apply NoDup_cons. split; [|done].
        intros Hin. apply list_elem_of_fmap in Hin as (b & Hb & Hin).
        destruct (Hadd b Hin) as (_ & _ & Hsb & _).
        unfold flags in Hsb. rewrite <- Hb in Hsb.
        assert (Flags.seen (ftab (mark_analyzed a s) !!! vidx a) = true)
          as Hsa by (apply seen_mark_analyzed; by right).
        congruence.
      * intros b Hb. apply elem_of_cons in Hb as [->|Hb].
        { split_and!; try done. left. }
        destruct (Hadd b Hb) as (? & ? & Hsb & ? & ?).
        split_and!; [by right|done| |by rewrite <- Hlvl|by rewrite <- Hval].
        destruct (Flags.seen (flags s b)) eqn:E; [|done].
        assert (Flags.seen (ftab (mark_analyzed a s) !!! vidx b) = true)
          as Hsb' by (apply seen_mark_analyzed; by left).
        unfold flags in Hsb. congruence.
      * intros b Hb Hbl. apply elem_of_cons in Hb as [->|Hb].
        -- left. unfold flags. apply Hse. left.
           apply seen_mark_analyzed. by right.
        -- destruct (Hall b Hb Hbl) as [?|?]; [by left|right].
           by rewrite <- Hlvl.
      * by rewrite Hvt.
      * by rewrite Hva.
      * by rewrite Hle.
      * intros x. rewrite Hse, seen_mark_analyzed, fmap_cons, elem_of_cons.
        tauto.
Qed.

Lemma save_as_resolved_clause_scratch (c : Z) (s : Internal) :
  analyzed (save_as_resolved_clause c s) = analyzed s
  ∧ clause (save_as_resolved_clause c s) = clause s
  ∧ ftab (save_as_resolved_clause c s) = ftab s
  ∧ vtab (save_as_resolved_clause c s) = vtab s
  ∧ vals (save_as_resolved_clause c s) = vals s
  ∧ level (save_as_resolved_clause c s) = level s
  ∧ (∀ c', Clause.literals (clauses (save_as_resolved_clause c s) !!! c')
           = Clause.literals (clauses s !!! c')).
Proof.
  split_and!; try (unfold save_as_resolved_clause; repeat case_match; done).
  intros c'. destruct (walk_frame_save c s) as (_ & H & _).
  specialize (H c').
  destruct (clauses (save_as_resolved_clause c s) !!! c'), (clauses s !!! c').
  cbn in *. by injection H.
Qed.

(** X14: what a reason contributes.  When [analyze_reason] completes,
    the literals it has added to the analyzed batch are those literals of
    the reason, other than the resolved literal, that were not seen and
    are not fixed at level 0; each was false and is added once.  Those
    below the current level were appended to the clause buffer in the
    same order, and the count of open literals went up by the number of
    those on the current level.  Afterwards every other literal of the
    reason is seen or fixed. *)
Theorem analyze_reason_counts (lit c open : Z) (s s' : Internal)
    (open' : Z) :
  analyze_reason lit (Some c) open s = Done (s', open') →
  ∃ added : list Z,
    analyzed s' = analyzed s ++ added
    ∧ clause s' = clause s ++ filter (λ a, lvl s a < level s) added
    ∧ open' = open
              + Z.of_nat (length (filter (λ a, lvl s a = level s) added))
    ∧ NoDup (vidx <$> added)
    ∧ (∀ a, a ∈ added →
         a ∈ Clause.literals (clauses s !!! c) ∧ a ≠ lit
         ∧ Flags.seen (flags s a) = false ∧ lvl s a ≠ 0 ∧ val s a < 0)
    ∧ (∀ a, a ∈ Clause.literals (clauses s !!! c) → a ≠ lit →
         Flags.seen (flags s' a) = true ∨ lvl s a = 0).
Proof.
  unfold analyze_reason. intros H.
  destruct (save_as_resolved_clause_scratch c s)
    as (Han & Hcl & Hft & Hvt & Hva & Hle & Hlits).
  rewrite Hlits in H.
  apply analyze_literals_counts in H
    as (added & Han' & Hcl' & Hop & Hnd & Hadd & Hall & _).
  assert (∀ a, lvl (save_as_resolved_clause c s) a = lvl s a) as Hlvl
    by (intros a; unfold lvl, var; by rewrite Hvt).
  assert (∀ a, val (save_as_resolved_clause c s) a = val s a) as Hval
    by (intros a; unfold val; by rewrite Hva).
  assert (∀ a, flags (save_as_resolved_clause c s) a = flags s a) as Hfl
    by (intros a; unfold flags; by rewrite Hft).
  rewrite Han in Han'. rewrite Hcl, Hle in Hcl'. rewrite Hle in Hop.
  rewrite (list_filter_iff _ (λ a, lvl s a < level s)) in Hcl'
    by (intros a; by rewrite Hlvl).
  rewrite (list_filter_iff _ (λ a, lvl s a = level s)) in Hop
    by (intros a; by rewrite Hlvl).
  exists added. split_and!; try done.
  - intros a Ha. specialize (Hadd a Ha).
    by rewrite Hfl, Hlvl, Hval in Hadd.
  - intros a Ha Hne. specialize (Hall a Ha Hne). by rewrite Hlvl in Hall.
Qed.

Lemma analyze_reason_counts_witness :
  ∃ s' open' added,
    analyze_reason 0 (Some 11) 0 Scenario.conflict_on_level_two
    = Done (s', open')
    ∧ analyzed s' = analyzed Scenario.conflict_on_level_two ++ added
    ∧ open' = 0 + Z.of_nat (length
        (filter (λ a, lvl Scenario.conflict_on_level_two a
                      = level Scenario.conflict_on_level_two) added)).
Proof.
  destruct (analyze_reason 0 (Some 11) 0 Scenario.conflict_on_level_two)
    as [[s' open']|] eqn:E; [|by vm_compute in E].
  destruct (analyze_reason_counts 0 11 0 Scenario.conflict_on_level_two
              s' open' E) as (added & Han & _ & Hop & _).
  by exists s', open', added.
Defined.

(** ** When the seen flags can be cleared *)

Lemma for_each_clear_seen_flag_NoDup (l : list Z) :
  ∀ s s', for_each clear_seen_flag l s = Done s' → NoDup (vidx <$> l).
Proof.
  induction l as [|a l IH]; intros s s' Hrun; [constructor|].
  cbn [for_each] in Hrun. apply bind_Done in Hrun as (s1 & Ha & Hrun).
  apply clear_seen_flag_Done in Ha as [_ ->].
  rewrite fmap_cons. apply NoDup_cons. split; [|by eapply IH].
  intros Hin. apply list_elem_of_fmap in Hin as (b & Hb & Hin).
  destruct (for_each_clear_seen_flag_asserted _ _ _ Hrun b Hin) as (Hs & _).
  rewrite flags_update_flags, decide_True in Hs by done. done.
Qed.

Lemma for_each_clear_seen_flag_Abort (l : list Z) :
  ∀ s why, for_each clear_seen_flag l s = Abort why → why = AssertionFailed.
Proof.
  induction l as [|a l IH]; intros s why Hrun; [done|].
  cbn [for_each] in Hrun.
  destruct (clear_seen_flag a s) as [s1|w] eqn:E; cbn in Hrun.
  - by eapply IH.
  - injection Hrun as <-. unfold clear_seen_flag, assert_ in E.
    repeat case_match; cbn in E; congruence.
Qed.

(** X15: [clear_seen] completes exactly when the analyzed batch names no
    variable twice and each of its literals has the seen flag and none of
    the flags keep, poison and removable.  It then clears the seen flags
    of the batch, leaves all other flags as they are and empties the
    batch.  Otherwise one of its assertions fails; a variable that occurs
    twice fails the assertion of the seen flag at its second
    occurrence. *)
Theorem clear_seen_asserts (s : Internal) :
  match clear_seen s with
  | Done s' =>
      NoDup (vidx <$> analyzed s)
      ∧ (∀ lit, lit ∈ analyzed s → flags_as_asserted s lit)
      ∧ analyzed s' = []
      ∧ (∀ x, ftab s' !!! x =
              if decide (x ∈ vidx <$> analyzed s)
              then Flags.set_seen false (ftab s !!! x) else ftab s !!! x)
  | Abort why =>
      why = AssertionFailed
      ∧ ¬ (NoDup (vidx <$> analyzed s)
           ∧ ∀ lit, lit ∈ analyzed s → flags_as_asserted s lit)
  end.
Proof.
  destruct (clear_seen s) as [s'|why] eqn:E.
  - assert (NoDup (vidx <$> analyzed s)) as Hnd.
    { unfold clear_seen in E. apply bind_Done in E as (s1 & E & _).
      by eapply for_each_clear_seen_flag_NoDup. }
    pose proof (clear_seen_asserted s s' E) as Hall.
    destruct (clear_seen_Done s Hnd Hall) as (ft & Hrun & Hft).
    rewrite Hrun in E. injection E as <-. by split_and!.
  - split.
    + unfold clear_seen in E.
      destruct (for_each clear_seen_flag (analyzed s) s) as [s1|w] eqn:E1;
        [done|].
      injection E as <-. by eapply for_each_clear_seen_flag_Abort.
    + intros [Hnd Hall].
      destruct (clear_seen_Done s Hnd Hall) as (ft & Hrun & _). congruence.
Qed.

(** ** Minimization is not always asked for *)

Lemma analyze_update_without_minimizer (M1 M2 : Minimizer) (s : Internal) :
  (length (clause s) ≤ 1)%nat ∨ Opts.minimize (opts s) = false →
  analyze_update (M := M1) s = analyze_update (M := M2) s.
Proof.
  intros H. unfold analyze_update. cbn zeta.
  cbn [clause opts set_stats set_averages].
  destruct (Z.ltb_spec 1 (Z.of_nat (length (clause s)))) as [Hlen|Hlen];
    [|done].
  destruct H as [H|H]; [lia|]. by rewrite H.
Qed.

(** X16: the minimizer is not called for a unit, nor when the option
    [minimize] is off.  When the first UIP clause is a unit, or the
    option is off, [analyze] has the same outcome with any two
    minimizers. *)
Theorem analyze_skips_minimizer (M1 M2 : Minimizer) (s s1 : Internal)
    (uip : Z) :
  analyze_derive s = Done (s1, uip) →
  (length (clause s1) ≤ 1)%nat ∨ Opts.minimize (opts s) = false →
  analyze (M := M1) s = analyze (M := M2) s.
Proof.
  intros Hderive Hskip. unfold analyze.
  destruct (assert_ _); [|done]. cbn [mbind outcome_bind].
  destruct (level s =? 0); [done|].
  rewrite Hderive. cbn [mbind outcome_bind].
  destruct (bump_resolved_clauses s1) as [s2|] eqn:E2; [|done].
  cbn [mbind outcome_bind].
  rewrite (analyze_update_without_minimizer M1 M2 s2); [done|].
  apply bump_resolved_clauses_frame in E2.
  assert (opts s1 = opts s) as Hopts.
  { apply (analyze_derive_invariant (λ s', opts s' = opts s))
      with (s := s) (uip := uip); try done.
    intros c s0 <-. unfold save_as_resolved_clause. repeat case_match; done. }
  rewrite E2. cbn [clause opts set_resolved set_clauses set_stats].
  by rewrite Hopts.
Qed.


Lemma analyze_skips_minimizer_witness :
  analyze (M := Scenario.identity_minimizer) Scenario.unit_conflict
  = analyze (M := failing_minimizer) Scenario.unit_conflict.
Proof.
  eapply (analyze_skips_minimizer Scenario.identity_minimizer
            failing_minimizer Scenario.unit_conflict).
  - vm_compute. reflexivity.
  - left. cbn. lia.
Defined.

(** ** The statistics of an analysis *)


Lemma bump_variable_statistics (lit : Z) (s : Internal) :
  learned_statistics (bump_variable lit s) = learned_statistics s.
Proof.
  unfold bump_variable, update_queue_unassigned.
  repeat case_match; done.
Qed.

Lemma bump_variables_statistics (s : Internal) :
  learned_statistics (bump_variables s) = learned_statistics s.
Proof.
  unfold bump_variables.
  assert (∀ l s0, learned_statistics
                    (foldl (λ s lit, bump_variable lit s) s0 l)
                  = learned_statistics s0) as Hfold.
  { induction l as [|x l IH]; intros s0; cbn; [done|].
    by rewrite IH, bump_variable_statistics. }
  rewrite Hfold. by destruct (trail_bump_policy s).
Qed.

Lemma analyze_update_statistics (M : Minimizer) (s s' : Internal)
    (glue size : Z) :
  minimizer_contract M →
  analyze_update s = Done (s', glue, size) →
  size = Z.of_nat (length (clause s'))
  ∧ learned_statistics s'
    = (Stats.learned (stats s) + Z.of_nat (length (clause s)),
       Stats.units (stats s) + (if size =? 1 then 1 else 0),
       Stats.binaries (stats s) + (if size =? 2 then 1 else 0),
       Averages.fast_glue_avg (averages s) ++ [glue],
       Averages.slow_glue_avg (averages s) ++ [glue],
       Averages.size_avg (averages s) ++ [size]).
Proof.
  intros HM H. pose proof (analyze_update_glue M _ _ _ _ H) as ->.
  unfold analyze_update in H. cbn zeta in H.
  cbn [clause opts levels set_stats set_averages] in H.
  apply bind_Done in H as ([sm size'] & Hm & H).
  injection H as <- <-.
  match goal with
  | |- context [bump_variables ?x] =>
      rewrite (bump_variables_statistics x);
      destruct (bump_variables_untouched x) as (_ & -> & _)
  end.
  cbn [clause set_stats set_averages].
  match type of Hm with
  | context [minimize_clause ?x] => set (sa := x) in *
  end.
  assert (size' = Z.of_nat (length (clause sm))
          ∧ stats sm = stats sa ∧ averages sm = averages sa) as (-> & Hst & Hav).
  { destruct (1 <? _).
    - apply bind_Done in Hm as (s1 & Hm & [= <- <-]).
      destruct (Opts.minimize (opts s)).
      + destruct (HM sa) as (s1' & Hrun & Hs1 & _).
        rewrite Hrun in Hm. injection Hm as <-.
        split_and!; [done|by rewrite Hs1..].
      + by injection Hm as <-.
    - by injection Hm as <- <-. }
  split; [done|].
  unfold learned_statistics. cbn. rewrite Hst, Hav. by subst sa.
Qed.

Lemma analyze_backjump_statistics (uip glue : Z) (s s4 : Internal) :
  Flags.status (flags s (- uip)) = ACTIVE →
  analyze_backjump uip glue (Z.of_nat (length (clause s))) s = Done s4 →
  learned_statistics s4 = learned_statistics s.
Proof.
  intros Hact H.
  destruct (decide (1 < Z.of_nat (length (clause s)))) as [Hsize|Hsize].
  - assert (1 < length (clause s))%nat as Hlen by lia.
    destruct (analyze_backjump_driving uip glue _ s Hsize Hlen)
      as (second & kept & removed & vs' & _ & _ & _ & _ & _ & Hrun).
    rewrite Hrun in H. by injection H as <-.
  - destruct (analyze_backjump_unit uip glue _ s Hsize Hact)
      as (kept & removed & vs' & _ & _ & _ & _ & Hrun).
    rewrite Hrun in H. by injection H as <-.
Qed.

(** X17: the statistics of an analysis.  On a well-formed conflict
    [analyze] adds the size of the first UIP clause, as it is before
    minimization, to the counter of learned literals; it counts the
    learned clause as a unit or as a binary clause by its size after
    minimization; and it feeds the glue to both averages of the glue and
    the size after minimization to the average of the size. *)
Theorem analyze_statistics (M : Minimizer) (s : Internal) :
  minimizer_contract M → well_formed s → scratch_clean s →
  ∃ (s1 : Internal) (uip : Z) (cl : list Z) (glue : Z) (s' : Internal),
    analyze_derive s = Done (s1, uip)
    ∧ learned_clause s = Some (cl, uip, glue)
    ∧ analyze s = Done s'
    ∧ learned_statistics s'
      = (Stats.learned (stats s) + Z.of_nat (length (clause s1)),
         Stats.units (stats s)
         + (if Z.of_nat (length cl) =? 1 then 1 else 0),
         Stats.binaries (stats s)
         + (if Z.of_nat (length cl) =? 2 then 1 else 0),
         Averages.fast_glue_avg (averages s) ++ [glue],
         Averages.slow_glue_avg (averages s) ++ [glue],
         Averages.size_avg (averages s) ++ [Z.of_nat (length cl)]).
Proof.
  intros HM Hwf Hclean.
  destruct (analyze_pipeline M s HM Hwf Hclean)
    as (sw & uip & j & s2 & s3 & Hinv & _ & _ & _ & _ & _ & Hderive & _ & _
        & Hcommit & Hupdate & _ & _ & _ & _ & _ & Hready & Hact & Hanalyze).
  set (s1 := set_clause (clause sw ++ [- uip]) sw) in *.
  destruct (analyze_backjump_ready uip (Z.of_nat (length (levels sw))) s3
              Hready Hact) as (s4 & Hjump & Hready4 & _).
  destruct (analyze_cleanup_spec s4 Hready4) as (s' & Hclean' & Hcl).
  exists s1, uip, (clause s3), (Z.of_nat (length (levels sw))), s'.
  split_and!.
  - done.
  - by eapply learned_clause_pipeline.
  - rewrite Hanalyze, Hjump. exact Hclean'.
  - destruct Hcl as (_ & _ & _ & _ & _ & _ & Hun).
    assert (learned_statistics s' = learned_statistics s4) as ->.
    { unfold untouched_by_cleanup in Hun. unfold learned_statistics.
      injection Hun as. congruence. }
    rewrite (analyze_backjump_statistics _ _ _ _ Hact Hjump).
    destruct (analyze_update_statistics M _ _ _ _ HM Hupdate) as (_ & ->).
    apply bump_resolved_clauses_frame in Hcommit.
    pose proof (inv_core _ _ _ Hinv) as Hcore.
    assert (stats sw = stats s ∧ averages sw = averages s) as [Hst Hav]
      by (unfold untouched_by_walk in Hcore; by injection Hcore).
    rewrite Hcommit. cbn. by rewrite Hst, Hav.
Qed.

Lemma analyze_statistics_witness :
  ∃ (s1 : Internal) (uip : Z) (cl : list Z) (glue : Z) (s' : Internal),
    analyze_derive Scenario.conflict_on_level_two = Done (s1, uip)
    ∧ learned_clause (M := Scenario.identity_minimizer)
        Scenario.conflict_on_level_two = Some (cl, uip, glue)
    ∧ analyze (M := Scenario.identity_minimizer)
        Scenario.conflict_on_level_two = Done s'
    ∧ learned_statistics s'
      = (Stats.learned (stats Scenario.conflict_on_level_two)
         + Z.of_nat (length (clause s1)),
         Stats.units (stats Scenario.conflict_on_level_two)
         + (if Z.of_nat (length cl) =? 1 then 1 else 0),
         Stats.binaries (stats Scenario.conflict_on_level_two)
         + (if Z.of_nat (length cl) =? 2 then 1 else 0),
         Averages.fast_glue_avg (averages Scenario.conflict_on_level_two)
           ++ [glue],
         Averages.slow_glue_avg (averages Scenario.conflict_on_level_two)
           ++ [glue],
         Averages.size_avg (averages Scenario.conflict_on_level_two)
           ++ [Z.of_nat (length cl)]).
Proof.
  apply (analyze_statistics Scenario.identity_minimizer
           Scenario.conflict_on_level_two).
  - exact identity_minimizer_contract.
  - exact conflict_on_level_two_well_formed.
  - exact conflict_on_level_two_clean.
Defined.

(** ** The scan of the trail *)

Lemma previous_seen_nearest (s : Internal) (i : nat) (uip : Z) (j : nat) :
  previous_seen s i = Done (uip, j) →
  (j < i)%nat ∧ trail s !! j = Some uip
  ∧ Flags.seen (flags s uip) = true
  ∧ ∀ k b, (j < k < i)%nat → trail s !! k = Some b →
           Flags.seen (flags s b) = false.
Proof.
  induction i as [|i IH]; cbn [previous_seen]; [done|].
  destruct (trail s !! i) as [a|] eqn:Ha; [|done].
  destruct (Flags.seen (flags s a)) eqn:Hs.
  - intros [= <- <-]. split_and!; [lia|done|done|]. intros k b Hk. lia.
  - intros H. destruct (IH H) as (Hj & Hu & Hsu & Hbetween).
    split_and!; [lia|done|done|].
    intros k b Hk Hb. destruct (decide (k = i)) as [->|Hne].
    + rewrite Ha in Hb. by injection Hb as <-.
    + apply (Hbetween k b); [lia|done].
Qed.

Lemma previous_seen_none (s : Internal) (i : nat) (why : failure) :
  (i ≤ length (trail s))%nat → previous_seen s i = Abort why →
  why = OutOfBounds
  ∧ ∀ k b, (k < i)%nat → trail s !! k = Some b →
           Flags.seen (flags s b) = false.
Proof.
  induction i as [|i IH]; intros Hi; cbn [previous_seen].
  - intros [= <-]. split; [done|]. intros k b Hk. lia.
  - destruct (lookup_lt_is_Some_2 (trail s) i) as [a Ha]; [lia|].
    rewrite Ha. destruct (Flags.seen (flags s a)) eqn:Hs; [done|].
    intros H. destruct (IH ltac:(lia) H) as (-> & Hnone). split; [done|].
    intros k b Hk Hb. destruct (decide (k = i)) as [->|Hne].
    + rewrite Ha in Hb. by injection Hb as <-.
    + apply (Hnone k b); [lia|done].
Qed.

(** X18: the scan for the next literal to resolve.  Started with the
    cursor inside the trail, the loop [while (!flags (uip = *--i).seen)]
    stops at the nearest seen literal below the cursor: the literal it
    returns is on the trail at the returned position and seen, and no
    literal between that position and the cursor is seen.  When no
    literal below the cursor is seen, the scan steps below the begin of
    the trail. *)
Theorem previous_seen_scan (s : Internal) (i : nat) :
  (i ≤ length (trail s))%nat →
  match previous_seen s i with
  | Done (uip, j) =>
      (j < i)%nat ∧ trail s !! j = Some uip
      ∧ Flags.seen (flags s uip) = true
      ∧ ∀ k b, (j < k < i)%nat → trail s !! k = Some b →
               Flags.seen (flags s b) = false
  | Abort why =>
      why = OutOfBounds
      ∧ ∀ k b, (k < i)%nat → trail s !! k = Some b →
               Flags.seen (flags s b) = false
  end.
Proof.
  intros Hi. destruct (previous_seen s i) as [[uip j]|why] eqn:E.
  - by apply previous_seen_nearest.
  - by apply previous_seen_none.
Qed.

Lemma previous_seen_scan_witness :
  match previous_seen Scenario.conflict_on_level_two 3 with
  | Done (uip, j) =>
      (j < 3)%nat ∧ trail Scenario.conflict_on_level_two !! j = Some uip
      ∧ Flags.seen (flags Scenario.conflict_on_level_two uip) = true
      ∧ ∀ k b, (j < k < 3)%nat →
               trail Scenario.conflict_on_level_two !! k = Some b →
               Flags.seen (flags Scenario.conflict_on_level_two b) = false
  | Abort why =>
      why = OutOfBounds
      ∧ ∀ k b, (k < 3)%nat →
               trail Scenario.conflict_on_level_two !! k = Some b →
               Flags.seen (flags Scenario.conflict_on_level_two b) = false
  end.
Proof.
  apply (previous_seen_scan Scenario.conflict_on_level_two 3). cbn. lia.
Defined.

(** ** Resetting the level records *)

(** X19: [clear_levels] resets the records of the listed levels and of
    no other level, empties the list and leaves the rest of the state as
    it is.  A level that is listed twice does no harm, and a second
    [clear_levels] changes nothing. *)
Theorem clear_levels_resets (s : Internal) :
  levels (clear_levels s) = []
  ∧ (∀ l, control (clear_levels s) !!! l =
          if decide (l ∈ levels s) then Level.reset else control s !!! l)
  ∧ clear_levels s = set_levels [] (set_control (control (clear_levels s)) s)
  ∧ clear_levels (clear_levels s) = clear_levels s.
Proof.
  destruct (clear_levels_spec s) as [Heq Hl].
  split_and!; [by rewrite Heq|done|done|].
  assert (levels (clear_levels s) = []) as E0 by (by rewrite Heq).
  unfold clear_levels at 1. rewrite E0. cbn [foldl].
  by rewrite Heq.
Qed.

(** ** The clauses that are bumped *)

Lemma save_as_resolved_clause_effect (c : Z) (s : Internal) :
  resolved (save_as_resolved_clause c s)
  = resolved s
    ++ (if Clause.redundant (clauses s !!! c)
           && Clause.have_analyzed (clauses s !!! c)
        then [c] else [])
  ∧ ∀ c', Clause.used (clauses (save_as_resolved_clause c s) !!! c')
          = Clause.used (clauses s !!! c')
            || (bool_decide (c' = c) && Clause.redundant (clauses s !!! c)
                && Clause.hbr (clauses s !!! c)).
Proof.
  unfold save_as_resolved_clause.
  destruct (Clause.redundant (clauses s !!! c)) eqn:Er; cbn [negb andb].
  2: { rewrite app_nil_r. split; [done|]. intros c'.
       by rewrite andb_false_r, orb_false_r. }
  destruct (Clause.hbr (clauses s !!! c)) eqn:Eh; cbn [clauses set_clauses].
  - rewrite lookup_total_insert_eq. cbn [Clause.have_analyzed Clause.set_used].
    destruct (Clause.have_analyzed (clauses s !!! c)); cbn [negb];
      (split; [by rewrite ?app_nil_r|]); intros c'; cbn;
      (destruct (decide (c' = c)) as [->|Hne];
       [ rewrite lookup_total_insert_eq, bool_decide_eq_true_2 by done;
         cbn; by rewrite orb_true_r
       | rewrite lookup_total_insert_ne, bool_decide_eq_false_2 by done;
         cbn; by rewrite orb_false_r ]).
  - destruct (Clause.have_analyzed (clauses s !!! c)); cbn [negb];
      (split; [by rewrite ?app_nil_r|]); intros c'; cbn;
      by rewrite andb_false_r, orb_false_r.
Qed.

Lemma analyze_literals_keep_clauses (lit : Z) (lits : list Z)
    (s : Internal) (open : Z) (s' : Internal) (open' : Z) :
  for_each (λ other '(s, open),
              if negb (other =? lit) then analyze_literal other open s
              else Done (s, open)) lits (s, open) = Done (s', open') →
  resolved s' = resolved s ∧ clauses s' = clauses s.
Proof.
  apply (analyze_literals_invariant
           (λ s', resolved s' = resolved s ∧ clauses s' = clauses s));
    [|done].
  by intros a s1 _ _ _ _ [<- <-].
Qed.

(** What resolving with a reason does to the batch, to the used marks
    and to the seen flags of the trail entries at or above the
    cursor. *)
Lemma analyze_reason_processed (s0 s : Internal) (i : nat)
    (uip open r : Z) (s1 : Internal) (open1 : Z) :
  well_formed s0 → walk_invariant s0 s i →
  Forall (λ other, other ≠ uip →
            other ≠ 0
            ∧ ∃ p : nat, (p < i)%nat ∧ trail s0 !! p = Some (- other))
         (Clause.literals (clauses s0 !!! r)) →
  analyze_reason uip (Some r) open s = Done (s1, open1) →
  resolved s1
  = resolved s
    ++ (if Clause.redundant (clauses s0 !!! r)
           && Clause.have_analyzed (clauses s0 !!! r)
        then [r] else [])
  ∧ (∀ c, Clause.used (clauses s1 !!! c)
          = Clause.used (clauses s !!! c)
            || (bool_decide (c = r) && Clause.redundant (clauses s0 !!! r)
                && Clause.hbr (clauses s0 !!! r)))
  ∧ (∀ (k : nat) (a : Z), (i ≤ k)%nat → trail s0 !! k = Some a →
       Flags.seen (flags s1 a) = Flags.seen (flags s a)).
Proof.
  intros Hwf Hinv Hall Hrun. unfold analyze_reason in Hrun.
  destruct (clause_fields_but_used _ _ (inv_clauses _ _ _ Hinv r))
    as (Hred & Hhbr & Hha & _ & _ & Hlits).
  destruct (save_as_resolved_clause_effect r s) as [Hres Hused].
  destruct (save_as_resolved_clause_scratch r s)
    as (_ & _ & Hft & _ & _ & _ & Hlits').
  rewrite Hlits', Hlits in Hrun.
  destruct (analyze_literals_keep_clauses _ _ _ _ _ _ Hrun) as [Hres1 Hcl1].
  apply analyze_literals_counts in Hrun
    as (added & _ & _ & _ & _ & Hadd & _ & _ & _ & _ & Hseen).
  rewrite Hred, Hha in Hres. rewrite Hred, Hhbr in Hused.
  split_and!.
  - by rewrite Hres1.
  - intros c. by rewrite Hcl1.
  - intros k a Hk Ha.
    destruct (Flags.seen (flags s a)) eqn:Es.
    + unfold flags. apply Hseen. left. by rewrite Hft.
    + destruct (Flags.seen (flags s1 a)) eqn:Es1; [|done]. exfalso.
      unfold flags in Es1. apply Hseen in Es1 as [Es1|Hin].
      * rewrite Hft in Es1. unfold flags in Es. congruence.
      * apply list_elem_of_fmap in Hin as (b & Hb & Hin).
        destruct (Hadd b Hin) as (Hbl & Hbu & _).
        rewrite Forall_forall in Hall.
        destruct (Hall b Hbl Hbu) as (_ & p & Hp & Hpb).
        assert (p = k) as ->; [|lia].
        eapply (NoDup_lookup (vidx <$> trail s0)).
        -- apply (wf_trail_nodup _ Hwf).
        -- rewrite list_lookup_fmap, Hpb. cbn. by rewrite vidx_opp.
        -- rewrite list_lookup_fmap, Ha. cbn. by rewrite Hb.
Qed.

Lemma processed_ext (s0 s : Internal) (P P' : Z → Prop) :
  (∀ c, P c ↔ P' c) → processed s0 s P → processed s0 s P'.
Proof.
  intros HP [Hres Hused]. split; intros c.
  - by rewrite Hres, HP.
  - by rewrite Hused, HP.
Qed.

Lemma analyze_loop_antecedents (s0 : Internal) :
  well_formed s0 →
  ∀ (fuel : nat) (r uip open : Z) (i : nat) (s : Internal),
  (i < fuel)%nat →
  walk_invariant s0 s i →
  open = Z.of_nat (length (pending s i)) →
  NoDup (resolved s) → r ∉ resolved s →
  (∀ c, c ∈ resolved s → consulted s0 i c) →
  consulted s0 i r →
  Forall (λ other, other ≠ uip →
            other ≠ 0
            ∧ ∃ p : nat, (p < i)%nat ∧ trail s0 !! p = Some (- other))
         (Clause.literals (clauses s0 !!! r)) →
  pending s i ≠ []
  ∨ Exists (λ other, other ≠ uip ∧ lvl s0 other = level s0)
           (Clause.literals (clauses s0 !!! r)) →
  conflict s0 = Some r
  ∨ (∃ a, trail s0 !! i = Some a ∧ Flags.seen (flags s a) = true
          ∧ Var.reason (var s0 a) = Some r) →
  processed s0 s (resolved_so_far s0 s i r) →
  ∃ (s' : Internal) (uip' : Z) (j : nat),
    analyze_loop fuel (Some r) uip open i s = Done (s', uip')
    ∧ trail s0 !! j = Some uip'
    ∧ processed s0 s' (antecedent s0 s' j).
Proof.
  intros Hwf.
  induction fuel as [|fuel IH];
    intros r uip open i s Hfuel Hinv Hopen Hnd Hr Hcons Hconsr Hall Hne
      Hrin Hproc;
    [lia|].
  cbn [analyze_loop].
  destruct (analyze_reason_step s0 s i uip open r Hwf Hinv Hopen Hall)
    as (s1 & open1 & Hrun & Hinv1 & Hopen1 & Hres1 & Hseen1 & Hmono1).
  destruct (analyze_reason_processed s0 s i uip open r s1 open1
              Hwf Hinv Hall Hrun) as (Hbatch & Hused & Hsame).
  rewrite Hrun. cbn.
  assert (NoDup (resolved s1)) as Hnd1.
  { destruct Hres1 as [->| ->]; [done|]. apply NoDup_app. split_and!; [done| |].
    - intros c Hc Hc'. apply list_elem_of_singleton in Hc' as ->. done.
    - apply NoDup_singleton. }
  assert (∀ c, c ∈ resolved s1 → consulted s0 i c) as Hcons1.
  { intros c Hc. destruct Hres1 as [E|E]; rewrite E in Hc; [by auto|].
    apply elem_of_app in Hc as [Hc|Hc]; [by auto|].
    by apply list_elem_of_singleton in Hc as ->. }
  assert (pending s1 i ≠ []) as Hne1.
  { destruct Hne as [Hne|Hex].
    - destruct (pending s i) as [|b t] eqn:E; [done|].
      assert (b ∈ pending s i) as Hb by (rewrite E; apply list_elem_of_here).
      apply (pending_elem_of s0) in Hb as (Hsb & Hlb & Hp); [|done].
      assert (b ∈ pending s1 i) as Hb1.
      { apply (pending_elem_of s0); [done|]. split_and!; auto. }
      intros E1. rewrite E1 in Hb1. by apply elem_of_nil in Hb1.
    - apply Exists_exists in Hex as (other & Hin & Hou & Hlo).
      rewrite Forall_forall in Hall.
      destruct (Hall other Hin Hou) as (Ho0 & p & Hpi & Hp).
      pose proof (wf_level _ Hwf) as HL.
      assert (- other ∈ pending s1 i) as Hb1.
      { apply (pending_elem_of s0); [done|]. split_and!.
        - unfold flags. rewrite vidx_opp. apply (Hseen1 other Hin Hou). lia.
        - unfold lvl, var. rewrite vidx_opp. exact Hlo.
        - exists p. split; [done|done]. }
      intros E1. rewrite E1 in Hb1. by apply elem_of_nil in Hb1. }
  (* the clauses processed once [r] is done *)
  set (Q := λ c, conflict s0 = Some c
                 ∨ ∃ (k : nat) (a : Z), (i ≤ k)%nat ∧ trail s0 !! k = Some a
                     ∧ Flags.seen (flags s1 a) = true
                     ∧ Var.reason (var s0 a) = Some c).
  assert (Q r) as HQr.
  { destruct Hrin as [?|(a & Ha & Hsa & Hra)]; [by left|right].
    exists i, a. split_and!; try done. by rewrite (Hsame i a). }
  assert (∀ c, Q c ↔ c = r ∨ resolved_so_far s0 s i r c) as HQ.
  { intros c. split.
    - intros Hc. destruct (decide (c = r)) as [->|Hcr]; [by left|right].
      split; [done|]. destruct Hc as [?|(k & a & Hk & Ha & Hsa & Hra)];
        [by left|right].
      exists k, a. split_and!; try done. by rewrite <- (Hsame k a).
    - intros [->|[_ Hc]]; [done|].
      destruct Hc as [?|(k & a & Hk & Ha & Hsa & Hra)]; [by left|right].
      exists k, a. split_and!; try done. by rewrite (Hsame k a). }
  assert (processed s0 s1 Q) as Hproc1.
  { destruct Hproc as [Hpres Hpused]. split; intros c.
    - rewrite Hbatch, elem_of_app, Hpres, HQ.
      destruct (Clause.redundant (clauses s0 !!! r)) eqn:Er,
        (Clause.have_analyzed (clauses s0 !!! r)) eqn:Ea; cbn [andb];
        rewrite ?list_elem_of_singleton, ?elem_of_nil; split.
      + intros [(? & ? & ?) | -> ]; split_and!; auto.
      + intros ([->|?] & ? & ?); [by right|left; by split_and!].
      + intros [(? & ? & ?) | [] ]; split_and!; auto.
      + intros ([->|?] & ? & ?); [congruence|left; by split_and!].
      + intros [(? & ? & ?) | [] ]; split_and!; auto.
      + intros ([->|?] & ? & ?); [congruence|left; by split_and!].
      + intros [(? & ? & ?) | [] ]; split_and!; auto.
      + intros ([->|?] & ? & ?); [congruence|left; by split_and!].
    - rewrite Hused, orb_true_iff, Hpused, HQ, !andb_true_iff,
        bool_decide_eq_true. split.
      + intros [[?|(? & ? & ?)]|[ [-> ?] ?]]; [by left|right|right];
          split_and!; auto.
      + intros [?|([->|?] & ? & ?)]; [by left; left|by right|left; right];
          by split_and!. }
  destruct (previous_seen_spec s0 s1 Hwf i Hinv1 Hne1)
    as (uip' & j & Hscan & Hji & Hju & Hsu & Hlu & Hlen).
  destruct (previous_seen_nearest s1 i uip' j Hscan) as (_ & _ & _ & Hgap).
  destruct (walk_core s1 s0 (inv_core _ _ _ Hinv1)) as (_ & _ & _ & Htr & _).
  rewrite Htr in Hgap.
  rewrite Hscan. cbn.
  assert (walk_invariant s0 s1 j) as Hinvj.
  { eapply walk_invariant_cursor; [done|].
    pose proof (inv_cursor _ _ _ Hinv1). lia. }
  destruct (Z.eqb_spec (open1 - 1) 0) as [Hz|Hnz].
  { exists s1, uip', j. split_and!; try done.
    eapply processed_ext; [|exact Hproc1]. intros c. unfold Q, antecedent.
    split; (intros [?|(k & a & Hk & Ha & Hsa & Hra)]; [by left|right]);
      exists k, a; split_and!; try done; [lia|].
    destruct (decide (i ≤ k)%nat) as [?|Hlt]; [done|].
    rewrite (Hgap k a) in Hsa by (done || lia). done. }
  destruct (walk_core_var s1 s0 uip' (inv_core _ _ _ Hinv1)) as (-> & _ & _).
  pose proof (wf_reasons _ Hwf j uip' Hju Hlu) as Hreason.
  assert (pending s1 j ≠ []) as Hnej.
  { intros E. rewrite E in Hlen. cbn in Hlen. lia. }
  destruct (Var.reason (var s0 uip')) as [r'|] eqn:Er'.
  - apply (IH r' uip' (open1 - 1) j s1); try done; try lia.
    + intros Hin. destruct (Hcons1 r' Hin) as [Hc|(k & a & Hk & Ha & Hra)].
      * by apply (wf_conflict_no_reason _ Hwf j uip' Hju); rewrite Er'.
      * pose proof (wf_reason_inj _ Hwf j k uip' a r' Hju Ha Er' Hra). lia.
    + intros c Hc. eapply consulted_mono; [|by apply Hcons1]. lia.
    + right. exists j, uip'. done.
    + by left.
    + right. by exists uip'.
    + eapply processed_ext; [|exact Hproc1]. intros c.
      unfold Q, resolved_so_far. split.
      * intros Hc. split.
        -- intros ->. destruct Hc as [Hc|(k & a & Hk & Ha & Hsa & Hra)].
           ++ by apply (wf_conflict_no_reason _ Hwf j uip' Hju); rewrite Er'.
           ++ pose proof (wf_reason_inj _ Hwf j k uip' a r' Hju Ha Er' Hra).
              lia.
        -- destruct Hc as [?|(k & a & Hk & Ha & Hsa & Hra)]; [by left|right].
           exists k, a. split_and!; try done. lia.
      * intros [Hcr [?|(k & a & Hk & Ha & Hsa & Hra)]]; [by left|right].
        exists k, a. split_and!; try done.
        destruct (decide (i ≤ k)%nat) as [?|Hlt]; [done|].
        destruct (decide (k = j)) as [->|Hkj].
        -- rewrite Hju in Ha. injection Ha as <-. congruence.
        -- rewrite (Hgap k a) in Hsa by (done || lia). done.
  - exfalso. destruct (pending s1 j) as [|b t] eqn:E; [done|].
    assert (b ∈ pending s1 j) as Hb by (rewrite E; apply list_elem_of_here).
    apply (pending_elem_of s0) in Hb as (_ & Hlb & p & Hp & Hpb); [|done].
    pose proof (Hreason p b Hp Hpb). lia.
Qed.

(** X20: the clauses that are bumped are the antecedents of the learned
    clause.  On a well-formed conflict the batch of resolved clauses
    that the walk hands over holds, each once, exactly those redundant
    clauses with a slot for the stamp that are the conflicting clause or
    the reason of a literal resolved away (a seen literal above the
    first UIP on the trail); and the used mark is newly set on exactly
    those redundant clauses among these antecedents that took part in
    hyper binary resolution. *)
Theorem resolved_antecedents (s : Internal) :
  well_formed s → scratch_clean s →
  ∃ (s1 : Internal) (uip : Z) (j : nat),
    analyze_derive s = Done (s1, uip)
    ∧ trail s !! j = Some uip
    ∧ NoDup (resolved s1)
    ∧ processed s s1 (antecedent s s1 j).
Proof.
  intros Hwf Hclean.
  destruct (analyze_derive_spec s Hwf Hclean)
    as (sw & uip & j0 & Hderive & _ & _ & _ & _ & _ & Hnd & _).
  pose proof (walk_invariant_initial s Hclean) as Hinv0.
  destruct (wf_conflict _ Hwf) as (c & Hc & Hfalse & Hex).
  rewrite Forall_forall in Hfalse.
  assert (pending s (length (trail s)) = []) as Hpend0.
  { destruct (pending s (length (trail s))) as [|b t] eqn:E; [done|].
    assert (b ∈ pending s (length (trail s))) as Hb
      by (rewrite E; apply list_elem_of_here).
    apply (pending_elem_of s) in Hb as (Hsb & _); [|done].
    unfold flags in Hsb. destruct (clean_flags _ Hclean (vidx b)). congruence. }
  destruct (analyze_loop_antecedents s Hwf (S (length (trail s))) c 0 0
              (length (trail s)) s)
    as (s' & uip' & j & Hrun & Hju & Hproc); try done.
  - lia.
  - by rewrite Hpend0.
  - rewrite (clean_resolved _ Hclean). constructor.
  - rewrite (clean_resolved _ Hclean). apply not_elem_of_nil.
  - rewrite (clean_resolved _ Hclean). intros ? Hin.
    by apply elem_of_nil in Hin.
  - by left.
  - apply Forall_forall. intros other Hin _.
    destruct (Hfalse other Hin) as [Ho0 Hov]. split; [done|].
    apply list_elem_of_lookup in Hov as [p Hp]. exists p. split; [|done].
    by apply lookup_lt_Some in Hp.
  - right. apply Exists_exists in Hex as (other & Hin & Hlo).
    apply Exists_exists. exists other. split; [done|].
    split; [|done]. by destruct (Hfalse other Hin).
  - by left.
  - split; intros c'.
    + rewrite (clean_resolved _ Hclean), elem_of_nil. split; [done|].
      intros ([Hne [Hc'|(k & a & Hk & Ha & _)]] & _).
      * congruence.
      * apply lookup_lt_Some in Ha. lia.
    + split; [by left|]. intros [?|([Hne [Hc'|(k & a & Hk & Ha & _)]] & _)].
      * done.
      * congruence.
      * apply lookup_lt_Some in Ha. lia.
  - pose proof Hderive as Hderive0.
    unfold analyze_derive in Hderive. rewrite Hc, Hrun in Hderive.
    cbn [mbind outcome_bind] in Hderive.
    apply bind_Done in Hderive as (s2 & Hcheck & [= Hs2 <-]).
    unfold check_learned_clause in Hcheck.
    apply bind_Done in Hcheck as ([] & _ & Hcheck).
    apply bind_Done in Hcheck as ([] & _ & [= Hs2']).
    assert (resolved sw = resolved s' ∧ clauses sw = clauses s'
            ∧ ftab sw = ftab s') as (Hr & Hcl & Hft).
    { rewrite <- Hs2' in Hs2.
      apply (f_equal (λ x, (resolved x, clauses x, ftab x))) in Hs2.
      cbn in Hs2. by injection Hs2 as -> -> ->. }
    exists (set_clause (clause sw ++ [- uip']) sw), uip', j.
    split_and!; try done.
    destruct Hproc as [Hpres Hpused]. split; intros c'; cbn.
    + rewrite Hr, Hpres. unfold antecedent, flags. cbn. by rewrite Hft.
    + rewrite Hcl, Hpused. unfold antecedent, flags. cbn. by rewrite Hft.
Qed.

Lemma resolved_antecedents_witness :
  ∃ (s1 : Internal) (uip : Z) (j : nat),
    analyze_derive Scenario.conflict_on_level_two = Done (s1, uip)
    ∧ trail Scenario.conflict_on_level_two !! j = Some uip
    ∧ NoDup (resolved s1)
    ∧ processed Scenario.conflict_on_level_two s1
        (antecedent Scenario.conflict_on_level_two s1 j).
Proof.
  apply (resolved_antecedents Scenario.conflict_on_level_two).
  - exact conflict_on_level_two_well_formed.
  - exact conflict_on_level_two_clean.
Defined.

(** ** The driving clause after the back jump *)

Lemma sorted_head_rest {A} (R : relation A) (l : list A) (x y : A)
    (rest : list A) :
  StronglySorted R l → l = x :: y :: rest →
  ∀ a, a ∈ y :: rest → a = y ∨ R y a.
Proof.
  intros Hs -> a Ha. apply StronglySorted_inv in Hs as [Hs _].
  apply StronglySorted_inv in Hs as [_ Hy].
  apply elem_of_cons in Ha as [->|Ha]; [by left|right].
  rewrite Forall_forall in Hy. by apply Hy.
Qed.

(** X21: the learned clause drives the search after the back jump.  When
    the learned clause has more than one literal and the minimizer has
    kept the negated first UIP, [analyze] leaves the clause as the reason
    of the negated first UIP with that literal in the first place; the
    literal is true, every other literal of the clause is still false
    and assigned at or below the new level, and the literal in the second
    place is assigned on the new level. *)
Theorem driving_clause_asserts (M : Minimizer) (s : Internal)
    (cl : list Z) (uip glue : Z) :
  minimizer_contract M → well_formed s → scratch_clean s →
  learned_clause s = Some (cl, uip, glue) → (1 < length cl)%nat →
  - uip ∈ cl →
  ∃ (s' : Internal) (c second : Z) (rest : list Z),
    analyze s = Done s'
    ∧ Var.reason (var s' (- uip)) = Some c
    ∧ Clause.literals (clauses s' !!! c) = - uip :: second :: rest
    ∧ - uip :: second :: rest ≡ₚ cl
    ∧ val s' (- uip) = 1
    ∧ lvl s' second = level s'
    ∧ (∀ lit, lit ∈ second :: rest → lit ≠ - uip →
         val s' lit < 0 ∧ lvl s' lit ≤ level s').
Proof.
  intros HM Hwf Hclean Hlearned Hlen Hin.
  destruct (analyze_pipeline M s HM Hwf Hclean)
    as (sw & uip' & j & s2 & s3 & Hinv & Hju & Hlu & _ & Hfalse & Hnodup
        & Hderive & _ & _ & Hcommit & Hupdate & Hu3 & Hfr & _ & _ & Hsub
        & Hready & Hact & Hanalyze).
  rewrite (learned_clause_pipeline M s _ _ _ _ _ _ Hderive Hcommit Hupdate)
    in Hlearned.
  injection Hlearned as <- <- <-.
  destruct (wf_trail_entry _ Hwf j uip' Hju) as (Hu0 & _).
  assert (1 < Z.of_nat (length (clause s3))) as Hsize by lia.
  destruct (analyze_backjump_driving uip' (Z.of_nat (length (levels sw)))
              _ s3 Hsize Hlen)
    as (second & kept & removed & vs' & Hsecond & Htr & Hrem & Hkept & Hvs
        & Hjump).
  destruct (analyze_backjump_ready uip' (Z.of_nat (length (levels sw))) s3
              Hready Hact) as (s4 & Hjump' & Hready4 & _).
  rewrite Hjump in Hjump'. injection Hjump' as Hs4.
  destruct (analyze_cleanup_spec s4 Hready4)
    as (s' & Hcleanup & _ & _ & _ & _ & _ & _ & Hun).
  unfold untouched_before_backjump in Hfr. injection Hfr as.
  unfold untouched_by_cleanup in Hun. injection Hun as.
  assert (vtab s3 = vtab s) as Hvtab by done.
  assert (vals s3 = vals s) as Hvals by done.
  assert (trail s3 = trail s) as Htrail by done.
  rewrite (trail_larger_vtab s3 s Hvtab) in *.
  rewrite (lvl_vtab s3 s Hvtab) in *.
  set (sorted := sort (trail_larger s) (clause s3)) in *.
  pose proof (sort_Permutation (trail_larger s) (clause s3)) as Hperm.
  pose proof (sort_trail_larger s (clause s3)) as Hsorted.
  fold sorted in Hperm, Hsorted.
  (* the literals of the clause other than the negated first UIP *)
  assert (lvl s (- uip') = level s) as Hlu'.
  { unfold lvl, var. by rewrite vidx_opp. }
  assert (∀ lit, lit ∈ sorted → lit ≠ - uip' →
            lvl s lit < level s ∧ val s lit < 0 ∧ vidx lit ≠ vidx (- uip'))
    as Hlower.
  { intros lit Hl Hne. rewrite Hperm in Hl. apply Hsub in Hl.
    apply elem_of_app in Hl as [Hl|Hl];
      [|by apply list_elem_of_singleton in Hl].
    split_and!.
    - rewrite (inv_clause _ _ _ Hinv) in Hl.
      by apply list_elem_of_filter in Hl as [? _].
    - rewrite Forall_forall in Hfalse. apply Hfalse.
      apply elem_of_app. by left.
    - intros Hv. rewrite fmap_app in Hnodup.
      apply NoDup_app in Hnodup as (_ & Hnd & _).
      apply (Hnd (vidx lit)); [by apply list_elem_of_fmap_2|].
      rewrite Hv. cbn. left. }
  (* the negated first UIP comes first *)
  destruct sorted as [|x [|y rest]] eqn:Es; [done|done|].
  cbn in Hsecond. injection Hsecond as <-.
  assert (x = - uip') as ->.
  { destruct (decide (x = - uip')) as [?|Hne]; [done|exfalso].
    destruct (Hlower x (list_elem_of_here _ _) Hne) as (Hx & _).
    assert (- uip' ∈ y :: rest) as Hu.
    { rewrite <- Hperm in Hin. by apply elem_of_cons in Hin as [?|?]. }
    apply StronglySorted_inv in Hsorted as [_ Hall].
    rewrite Forall_forall in Hall. specialize (Hall _ Hu). cbn in Hall. lia. }
  assert (∀ lit, lit ∈ y :: rest → lvl s lit ≤ lvl s y) as Hjumplevel.
  { intros lit Hl.
    destruct (sorted_head_rest _ _ _ _ _ Hsorted eq_refl lit Hl) as [->|Hyl];
      [done|]. cbn in Hyl. lia. }
  assert (clauses s' = clauses s4 ∧ vtab s' = vtab s4 ∧ vals s' = vals s4
          ∧ level s' = level s4) as (Hc' & Hvt' & Hva' & Hle') by done.
  assert (level s' = lvl s y) as Hlevel.
  { rewrite Hle', <- Hs4. done. }
  assert (∀ lit, lvl s' lit
                 = if decide (vidx lit = vidx (- uip')) then lvl s y
                   else lvl s lit) as Hlvl'.
  { intros lit. unfold lvl, var. rewrite Hvt', <- Hs4. cbn.
    case_decide as E.
    - rewrite E. by rewrite lookup_total_insert_eq.
    - rewrite lookup_total_insert_ne by done. by rewrite Hvtab. }
  exists s', (fresh (dom (clauses s3))), y, rest.
  split_and!.
  - rewrite Hanalyze, Hjump. cbn [mbind outcome_bind]. by rewrite Hs4.
  - unfold var. rewrite Hvt', <- Hs4. cbn.
    by rewrite lookup_total_insert_eq.
  - rewrite Hc', <- Hs4. cbn. by rewrite lookup_total_insert_eq.
  - done.
  - eapply val_assigned; [lia|]. rewrite Hva', <- Hs4. reflexivity.
  - rewrite Hlvl', Hlevel. by case_decide.
  - intros lit Hl Hne.
    destruct (Hlower lit) as (Hlow & Hval & Hv); [by right|done|].
    split.
    + unfold val. rewrite Hva', <- Hs4. cbn.
      rewrite lookup_total_insert_ne by done.
      rewrite Hvs, decide_False.
      * rewrite Hvals. exact Hval.
      * intros Hr. apply list_elem_of_fmap in Hr as (r & Hr & Hrin).
        specialize (Hrem r Hrin). specialize (Hjumplevel lit Hl).
        unfold lvl, var in Hrem, Hjumplevel. rewrite <- Hr in Hrem. lia.
    + rewrite Hlvl', Hlevel, decide_False by done. by apply Hjumplevel.
Qed.

Lemma driving_clause_asserts_witness :
  ∃ (s' : Internal) (c second : Z) (rest : list Z),
    analyze (M := Scenario.identity_minimizer)
      Scenario.conflict_on_level_two = Done s'
    ∧ Var.reason (var s' (- 2)) = Some c
    ∧ Clause.literals (clauses s' !!! c) = - 2 :: second :: rest
    ∧ - 2 :: second :: rest ≡ₚ [-1; -2]
    ∧ val s' (- 2) = 1
    ∧ lvl s' second = level s'
    ∧ (∀ lit, lit ∈ second :: rest → lit ≠ - 2 →
         val s' lit < 0 ∧ lvl s' lit ≤ level s').
Proof.
  apply (driving_clause_asserts Scenario.identity_minimizer
           Scenario.conflict_on_level_two [-1; -2] 2 2).
  - exact identity_minimizer_contract.
  - exact conflict_on_level_two_well_formed.
  - exact conflict_on_level_two_clean.
  - by vm_compute.
  - cbn. lia.
  - apply (bool_decide_unpack _). by vm_compute.
Defined.

(** ** The first UIP clause is implied *)

Lemma sat_lit_opp (σ : Z → bool) (lit : Z) :
  lit ≠ 0 → sat_lit σ (- lit) = negb (sat_lit σ lit).
Proof.
  intros Hl. unfold sat_lit. rewrite vidx_opp.
  destruct (Z.ltb_spec lit 0), (Z.ltb_spec (- lit) 0); try lia;
    by destruct (σ (vidx lit)).
Qed.

(** Resolving with a clause that is true keeps the resolvent true. *)
Lemma analyze_reason_sound (s0 s : Internal) (i : nat) (uip r : Z)
    (s1 : Internal) (σ : Z → bool) :
  well_formed s0 → walk_invariant s0 s i → walk_invariant s0 s1 i →
  Forall (λ other, other ≠ uip →
            other ≠ 0
            ∧ ∃ p : nat, (p < i)%nat ∧ trail s0 !! p = Some (- other))
         (Clause.literals (clauses s0 !!! r)) →
  (∀ other, other ∈ Clause.literals (clauses s0 !!! r) → other ≠ uip →
     0 < lvl s0 other → Flags.seen (flags s1 other) = true) →
  (∀ a, Flags.seen (flags s a) = true → Flags.seen (flags s1 a) = true) →
  (∃ added, clause s1 = clause s ++ added) →
  respects σ s0 →
  sat_clause σ (Clause.literals (clauses s0 !!! r)) →
  resolvent_true σ s i
  ∨ (∀ other, other ≠ 0 → sat_lit σ other = true → other ≠ uip) →
  resolvent_true σ s1 i.
Proof.
  intros Hwf Hinv Hinv1 Hall Hseen1 Hmono [added Hcl] Hσ Hr Hbefore.
  destruct Hbefore as [[(lit & Hl & Hl0 & Hs)|(b & Hb & Hs)]|Hnot].
  - left. exists lit. split_and!; try done. rewrite Hcl.
    apply elem_of_app. by left.
  - right. exists b. split; [|done].
    apply (pending_elem_of s0) in Hb as (Hsb & Hlb & Hp); [|done].
    apply (pending_elem_of s0); [done|]. split_and!; auto.
  - destruct Hr as (other & Hin & Ho0 & Hs).
    pose proof (Hnot other Ho0 Hs) as Hou.
    rewrite Forall_forall in Hall.
    destruct (Hall other Hin Hou) as (_ & p & Hp & Hpo).
    destruct (wf_trail_entry _ Hwf p _ Hpo) as (_ & Hval & _ & Hlv).
    assert (lvl s0 (- other) = lvl s0 other) as Hlo
      by (unfold lvl, var; by rewrite vidx_opp).
    rewrite Hlo in Hlv.
    destruct (decide (lvl s0 other = 0)) as [H0|H0].
    { destruct Hσ as (_ & _ & Hfixed).
      pose proof (Hfixed p (- other) Hpo ltac:(lia)) as Hneg.
      rewrite sat_lit_opp, Hs in Hneg by done. done. }
    pose proof (Hseen1 other Hin Hou ltac:(lia)) as Hso.
    destruct (decide (lvl s0 other = level s0)) as [Hcur|Hlow].
    + right. exists (- other). split.
      * apply (pending_elem_of s0); [done|]. split_and!.
        -- unfold flags in *. by rewrite vidx_opp.
        -- lia.
        -- by exists p.
      * by rewrite Z.opp_involutive.
    + left. exists other. split_and!; try done.
      rewrite (inv_clause _ _ _ Hinv1). apply list_elem_of_filter.
      split; [lia|].
      unfold flags in Hso. apply (inv_seen _ _ _ Hinv1) in Hso.
      apply list_elem_of_fmap in Hso as (a & Ha & Hain).
      destruct (inv_analyzed _ _ _ Hinv1 a Hain) as (Ha0 & Hav & _ & _).
      assert (a = other) as ->; [|done].
      assert (val s0 other = -1) as Hvo.
      { rewrite val_opp in Hval by done. lia. }
      unfold vidx in Ha. destruct (decide (a = other)) as [?|Hne]; [done|].
      assert (a = - other) as -> by lia. rewrite Hval in Hav. lia.
Qed.

Lemma analyze_reason_clause_grows (uip r open : Z) (s s1 : Internal)
    (open1 : Z) :
  analyze_reason uip (Some r) open s = Done (s1, open1) →
  ∃ added, clause s1 = clause s ++ added.
Proof.
  unfold analyze_reason. intros H.
  destruct (save_as_resolved_clause_scratch r s) as (_ & Hcl & _).
  apply analyze_literals_counts in H as (added & _ & Hcl1 & _).
  rewrite Hcl in Hcl1. eauto.
Qed.

Lemma pending_at_cursor (s0 s : Internal) (i j : nat) (uip b : Z) :
  well_formed s0 → walk_invariant s0 s i →
  (j < i)%nat → trail s0 !! j = Some uip →
  (∀ k a, (j < k < i)%nat → trail s0 !! k = Some a →
          Flags.seen (flags s a) = false) →
  b ∈ pending s i → b = uip ∨ b ∈ pending s j.
Proof.
  intros Hwf Hinv Hji Hju Hgap Hb.
  apply (pending_elem_of s0) in Hb as (Hsb & Hlb & p & Hp & Hpb); [|done].
  destruct (decide (p = j)) as [->|Hne].
  - left. congruence.
  - right. destruct (decide (p < j)%nat) as [Hlt|Hge].
    + apply (pending_elem_of s0).
      * eapply walk_invariant_cursor; [done|].
        pose proof (inv_cursor _ _ _ Hinv). lia.
      * split_and!; try done. by exists p.
    + rewrite (Hgap p b) in Hsb by (done || lia). done.
Qed.

Lemma analyze_loop_sound (s0 : Internal) :
  well_formed s0 →
  ∀ (fuel : nat) (r uip open : Z) (i : nat) (s : Internal),
  (i < fuel)%nat →
  walk_invariant s0 s i →
  open = Z.of_nat (length (pending s i)) →
  NoDup (resolved s) → r ∉ resolved s →
  (∀ c, c ∈ resolved s → consulted s0 i c) →
  consulted s0 i r →
  Forall (λ other, other ≠ uip →
            other ≠ 0
            ∧ ∃ p : nat, (p < i)%nat ∧ trail s0 !! p = Some (- other))
         (Clause.literals (clauses s0 !!! r)) →
  pending s i ≠ []
  ∨ Exists (λ other, other ≠ uip ∧ lvl s0 other = level s0)
           (Clause.literals (clauses s0 !!! r)) →
  ∃ (s' : Internal) (uip' : Z),
    analyze_loop fuel (Some r) uip open i s = Done (s', uip')
    ∧ ∀ σ, respects σ s0 →
        resolvent_true σ s i
        ∨ (∀ other, other ≠ 0 → sat_lit σ other = true → other ≠ uip) →
        sat_clause σ (clause s' ++ [- uip']).
Proof.
  intros Hwf.
  induction fuel as [|fuel IH];
    intros r uip open i s Hfuel Hinv Hopen Hnd Hr Hcons Hconsr Hall Hne;
    [lia|].
  cbn [analyze_loop].
  destruct (analyze_reason_step s0 s i uip open r Hwf Hinv Hopen Hall)
    as (s1 & open1 & Hrun & Hinv1 & Hopen1 & Hres1 & Hseen1 & Hmono1).
  pose proof (analyze_reason_clause_grows _ _ _ _ _ _ Hrun) as Hgrow.
  rewrite Hrun. cbn.
  assert (NoDup (resolved s1)) as Hnd1.
  { destruct Hres1 as [->| ->]; [done|]. apply NoDup_app. split_and!; [done| |].
    - intros c Hc Hc'. apply list_elem_of_singleton in Hc' as ->. done.
    - apply NoDup_singleton. }
  assert (∀ c, c ∈ resolved s1 → consulted s0 i c) as Hcons1.
  { intros c Hc. destruct Hres1 as [E|E]; rewrite E in Hc; [by auto|].
    apply elem_of_app in Hc as [Hc|Hc]; [by auto|].
    by apply list_elem_of_singleton in Hc as ->. }
  assert (pending s1 i ≠ []) as Hne1.
  { destruct Hne as [Hne|Hex].
    - destruct (pending s i) as [|b t] eqn:E; [done|].
      assert (b ∈ pending s i) as Hb by (rewrite E; apply list_elem_of_here).
      apply (pending_elem_of s0) in Hb as (Hsb & Hlb & Hp); [|done].
      assert (b ∈ pending s1 i) as Hb1.
      { apply (pending_elem_of s0); [done|]. split_and!; auto. }
      intros E1. rewrite E1 in Hb1. by apply elem_of_nil in Hb1.
    - apply Exists_exists in Hex as (other & Hin & Hou & Hlo).
      rewrite Forall_forall in Hall.
      destruct (Hall other Hin Hou) as (Ho0 & p & Hpi & Hp).
      pose proof (wf_level _ Hwf) as HL.
      assert (- other ∈ pending s1 i) as Hb1.
      { apply (pending_elem_of s0); [done|]. split_and!.
        - unfold flags. rewrite vidx_opp. apply (Hseen1 other Hin Hou). lia.
        - unfold lvl, var. rewrite vidx_opp. exact Hlo.
        - exists p. split; [done|done]. }
      intros E1. rewrite E1 in Hb1. by apply elem_of_nil in Hb1. }
  (* the resolvent stays true *)
  assert (∀ σ, respects σ s0 →
            resolvent_true σ s i
            ∨ (∀ other, other ≠ 0 → sat_lit σ other = true → other ≠ uip) →
            resolvent_true σ s1 i) as Hsound.
  { intros σ Hσ Hbefore.
    apply (analyze_reason_sound s0 s i uip r s1 σ); try done.
    destruct Hσ as (Hconf & Hreas & _).
    destruct Hconsr as [Hc|(k & a & _ & Ha & Hra)]; [by apply Hconf|].
    by apply (Hreas k a). }
  destruct (previous_seen_spec s0 s1 Hwf i Hinv1 Hne1)
    as (uip' & j & Hscan & Hji & Hju & Hsu & Hlu & Hlen).
  destruct (previous_seen_nearest s1 i uip' j Hscan) as (_ & _ & _ & Hgap).
  destruct (walk_core s1 s0 (inv_core _ _ _ Hinv1)) as (_ & _ & _ & Htr & _).
  rewrite Htr in Hgap.
  destruct (wf_trail_entry _ Hwf j uip' Hju) as (Hu0 & _).
  rewrite Hscan. cbn.
  assert (walk_invariant s0 s1 j) as Hinvj.
  { eapply walk_invariant_cursor; [done|].
    pose proof (inv_cursor _ _ _ Hinv1). lia. }
  destruct (Z.eqb_spec (open1 - 1) 0) as [Hz|Hnz].
  { exists s1, uip'. split; [done|]. intros σ Hσ Hbefore.
    assert (pending s1 j = []) as Hpj by (apply length_zero_iff_nil; lia).
    destruct (Hsound σ Hσ Hbefore) as [(lit & Hl & Hl0 & Hs)|(b & Hb & Hs)].
    - exists lit. split_and!; try done. apply elem_of_app. by left.
    - destruct (pending_at_cursor s0 s1 i j uip' b Hwf Hinv1 Hji Hju Hgap Hb)
        as [->|Hbj].
      + exists (- uip'). split_and!; [|lia|done].
        apply elem_of_app. right. left.
      + rewrite Hpj in Hbj. by apply elem_of_nil in Hbj. }
  destruct (walk_core_var s1 s0 uip' (inv_core _ _ _ Hinv1)) as (-> & _ & _).
  pose proof (wf_reasons _ Hwf j uip' Hju Hlu) as Hreason.
  assert (pending s1 j ≠ []) as Hnej.
  { intros E. rewrite E in Hlen. cbn in Hlen. lia. }
  destruct (Var.reason (var s0 uip')) as [r'|] eqn:Er'.
  - destruct (IH r' uip' (open1 - 1) j s1) as (s' & u & Hrun' & Hsound');
      try done; try lia.
    + intros Hin. destruct (Hcons1 r' Hin) as [Hc|(k & a & Hk & Ha & Hra)].
      * by apply (wf_conflict_no_reason _ Hwf j uip' Hju); rewrite Er'.
      * pose proof (wf_reason_inj _ Hwf j k uip' a r' Hju Ha Er' Hra). lia.
    + intros c Hc. eapply consulted_mono; [|by apply Hcons1]. lia.
    + right. exists j, uip'. done.
    + by left.
    + exists s', u. split; [done|]. intros σ Hσ Hbefore.
      apply (Hsound' σ Hσ).
      destruct (Hsound σ Hσ Hbefore) as [Hcl|(b & Hb & Hs)];
        [by left; left|].
      destruct (pending_at_cursor s0 s1 i j uip' b Hwf Hinv1 Hji Hju Hgap Hb)
        as [->|Hbj].
      * right. intros other Ho0 Hso ->.
        rewrite sat_lit_opp, Hso in Hs by done. done.
      * left. right. by exists b.
  - exfalso. destruct (pending s1 j) as [|b t] eqn:E; [done|].
    assert (b ∈ pending s1 j) as Hb by (rewrite E; apply list_elem_of_here).
    apply (pending_elem_of s0) in Hb as (_ & Hlb & p & Hp & Hpb); [|done].
    pose proof (Hreason p b Hp Hpb). lia.
Qed.

(** X22: the first UIP clause is implied.  On a well-formed conflict,
    every assignment that makes the conflicting clause true, and the
    reason of every trail entry, and every trail entry of level 0, makes
    the first UIP clause true: the clause follows from the clauses it
    was derived from by resolution, and from the fixed literals. *)
Theorem first_uip_clause_implied (s : Internal) :
  well_formed s → scratch_clean s →
  ∃ (s1 : Internal) (uip : Z),
    analyze_derive s = Done (s1, uip)
    ∧ ∀ σ, respects σ s → sat_clause σ (clause s1).
Proof.
  intros Hwf Hclean.
  destruct (analyze_derive_spec s Hwf Hclean)
    as (sw & uip & j0 & Hderive & _).
  pose proof (walk_invariant_initial s Hclean) as Hinv0.
  destruct (wf_conflict _ Hwf) as (c & Hc & Hfalse & Hex).
  rewrite Forall_forall in Hfalse.
  assert (pending s (length (trail s)) = []) as Hpend0.
  { destruct (pending s (length (trail s))) as [|b t] eqn:E; [done|].
    assert (b ∈ pending s (length (trail s))) as Hb
      by (rewrite E; apply list_elem_of_here).
    apply (pending_elem_of s) in Hb as (Hsb & _); [|done].
    unfold flags in Hsb. destruct (clean_flags _ Hclean (vidx b)). congruence. }
  destruct (analyze_loop_sound s Hwf (S (length (trail s))) c 0 0
              (length (trail s)) s)
    as (s' & uip' & Hrun & Hsound); try done.
  - lia.
  - by rewrite Hpend0.
  - rewrite (clean_resolved _ Hclean). constructor.
  - rewrite (clean_resolved _ Hclean). apply not_elem_of_nil.
  - rewrite (clean_resolved _ Hclean). intros ? Hin.
    by apply elem_of_nil in Hin.
  - by left.
  - apply Forall_forall. intros other Hin _.
    destruct (Hfalse other Hin) as [Ho0 Hov]. split; [done|].
    apply list_elem_of_lookup in Hov as [p Hp]. exists p. split; [|done].
    by apply lookup_lt_Some in Hp.
  - right. apply Exists_exists in Hex as (other & Hin & Hlo).
    apply Exists_exists. exists other. split; [done|].
    split; [|done]. by destruct (Hfalse other Hin).
  - pose proof Hderive as Hderive0.
    unfold analyze_derive in Hderive. rewrite Hc, Hrun in Hderive.
    cbn [mbind outcome_bind] in Hderive.
    apply bind_Done in Hderive as (s2 & Hcheck & [= Hs2 <-]).
    unfold check_learned_clause in Hcheck.
    apply bind_Done in Hcheck as ([] & _ & Hcheck).
    apply bind_Done in Hcheck as ([] & _ & [= Hs2']).
    eexists _, _. split; [exact Hderive0|].
    intros σ Hσ. rewrite <- Hs2, <- Hs2'. cbn.
    apply (Hsound σ Hσ). right. by intros other Ho0 _.
Qed.


Lemma first_only_respects : respects first_only Scenario.conflict_on_level_two.
Proof.
  split_and!.
  - intros c [= <-]. exists (-2). split_and!; [|done|done].
    apply (bool_decide_unpack _). by vm_compute.
  - intros k a c Hk Hr. cbn in Hk.
    trail_entries; try (by vm_compute in Hr).
    vm_compute in Hr. injection Hr as <-.
    exists (-2). split_and!; [|done|done].
    apply (bool_decide_unpack _). by vm_compute.
  - intros k a Hk Hl. cbn in Hk. trail_entries; by vm_compute in Hl.
Qed.

Lemma first_uip_clause_implied_witness :
  ∃ (s1 : Internal) (uip : Z),
    analyze_derive Scenario.conflict_on_level_two = Done (s1, uip)
    ∧ sat_clause first_only (clause s1).
Proof.
  destruct (first_uip_clause_implied Scenario.conflict_on_level_two
              conflict_on_level_two_well_formed conflict_on_level_two_clean)
    as (s1 & uip & Hderive & Himplied).
  exists s1, uip. split; [done|]. apply Himplied, first_only_respects.
Defined.

(** ** The walk resolves up to the first UIP *)

Lemma reached_mono (s : Internal) (i j : nat) (lit : Z) :
  (j ≤ i)%nat → reached s i lit → reached s j lit.
Proof.
  intros Hji. induction 1 as [c lit Hc Hl H0|b k r lit _ IH Hk Hb Hr Hl Hne H0].
  - by eapply reached_conflict.
  - eapply reached_reason; [exact IH| |done..]. lia.
Qed.

(** Lowering the cursor over positions that hold no reached literal does
    not reach more. *)
Lemma reached_gap (s : Internal) (A : Z → Prop) (i j : nat) :
  (∀ lit, reached s i lit → A lit) →
  (∀ b k, A b → trail s !! k = Some (- b) → (j ≤ k)%nat → (i ≤ k)%nat) →
  ∀ lit, reached s j lit → reached s i lit.
Proof.
  intros HA Hgap lit.
  induction 1 as [c lit Hc Hl H0|b k r lit _ IH Hk Hb Hr Hl Hne H0].
  - by eapply reached_conflict.
  - eapply reached_reason; [exact IH| |done..].
    apply (Hgap b k); [by apply HA|done|done].
Qed.

(** A seen literal that the trail falsifies is in the analyzed batch. *)
Lemma seen_analyzed (s0 s : Internal) (i p : nat) (lit : Z) :
  well_formed s0 → walk_invariant s0 s i →
  lit ≠ 0 → trail s0 !! p = Some (- lit) →
  Flags.seen (flags s lit) = true → lit ∈ analyzed s.
Proof.
  intros Hwf Hinv Hl0 Hp Hs.
  destruct (wf_trail_entry _ Hwf p _ Hp) as (_ & Hval & _).
  unfold flags in Hs. apply (inv_seen _ _ _ Hinv) in Hs.
  apply list_elem_of_fmap in Hs as (a & Ha & Hain).
  destruct (inv_analyzed _ _ _ Hinv a Hain) as (Ha0 & Hav & _ & _).
  assert (a = lit) as ->; [|done].
  unfold vidx in Ha. destruct (decide (a = lit)) as [?|Hne]; [done|].
  assert (a = - lit) as -> by lia. rewrite Hval in Hav. lia.
Qed.

Lemma analyzed_seen (s0 s : Internal) (i : nat) (lit : Z) :
  walk_invariant s0 s i → lit ∈ analyzed s →
  Flags.seen (flags s (- lit)) = true.
Proof.
  intros Hinv Hin. unfold flags. rewrite vidx_opp.
  apply (inv_seen _ _ _ Hinv). by apply list_elem_of_fmap_2.
Qed.

(** The analyzed batch after a reason is resolved. *)
Lemma analyze_reason_analyzed (s0 s : Internal) (i : nat)
    (uip open r : Z) (s1 : Internal) (open1 : Z) :
  well_formed s0 → walk_invariant s0 s i → walk_invariant s0 s1 i →
  Forall (λ other, other ≠ uip →
            other ≠ 0
            ∧ ∃ p : nat, (p < i)%nat ∧ trail s0 !! p = Some (- other))
         (Clause.literals (clauses s0 !!! r)) →
  analyze_reason uip (Some r) open s = Done (s1, open1) →
  ∀ lit, lit ∈ analyzed s1 ↔
         lit ∈ analyzed s
         ∨ (lit ∈ Clause.literals (clauses s0 !!! r) ∧ lit ≠ uip
            ∧ lvl s0 lit ≠ 0).
Proof.
  intros Hwf Hinv Hinv1 Hall Hrun lit. unfold analyze_reason in Hrun.
  destruct (clause_fields_but_used _ _ (inv_clauses _ _ _ Hinv r))
    as (_ & _ & _ & _ & _ & Hlits).
  destruct (save_as_resolved_clause_scratch r s)
    as (Han & _ & _ & Hvt & _ & _ & Hlits').
  rewrite Hlits', Hlits in Hrun.
  apply analyze_literals_counts in Hrun
    as (added & Han1 & _ & _ & _ & Hadd & Hall1 & _).
  assert (∀ a, lvl (save_as_resolved_clause r s) a = lvl s0 a) as Hlvl.
  { intros a. unfold lvl, var. rewrite Hvt.
    by destruct (walk_core s s0 (inv_core _ _ _ Hinv)) as (_ & _ & -> & _). }
  rewrite Han1, Han, elem_of_app. split.
  - intros [?|Hin]; [by left|right].
    destruct (Hadd lit Hin) as (? & ? & _ & ? & _).
    by rewrite Hlvl in *.
  - intros [?|(Hin & Hne & Hl0)]; [by left|].
    rewrite Forall_forall in Hall.
    destruct (Hall lit Hin Hne) as (Hlit0 & p & _ & Hp).
    destruct (Hall1 lit Hin Hne) as [Hs|Hz]; [|by rewrite Hlvl in Hz].
    pose proof (seen_analyzed s0 s1 i p lit Hwf Hinv1 Hlit0 Hp Hs) as Hin1.
    by rewrite Han1, Han, elem_of_app in Hin1.
Qed.

(** The loop stops at the first trail entry, walking backwards, at which
    a single reached literal of the current level is left. *)
Lemma analyze_loop_reached (s0 : Internal) :
  well_formed s0 →
  ∀ (fuel : nat) (r uip open : Z) (i : nat) (s : Internal),
  (i < fuel)%nat →
  walk_invariant s0 s i →
  open = Z.of_nat (length (pending s i)) →
  Forall (λ other, other ≠ uip →
            other ≠ 0
            ∧ ∃ p : nat, (p < i)%nat ∧ trail s0 !! p = Some (- other))
         (Clause.literals (clauses s0 !!! r)) →
  pending s i ≠ []
  ∨ Exists (λ other, other ≠ uip ∧ lvl s0 other = level s0)
           (Clause.literals (clauses s0 !!! r)) →
  (∀ lit, lit ∈ analyzed s
          ∨ (lit ∈ Clause.literals (clauses s0 !!! r) ∧ lit ≠ uip
             ∧ lvl s0 lit ≠ 0)
          ↔ reached s0 i lit) →
  ∃ (s' : Internal) (uip' : Z) (j : nat),
    analyze_loop fuel (Some r) uip open i s = Done (s', uip')
    ∧ (j < i)%nat
    ∧ trail s0 !! j = Some uip'
    ∧ (∀ lit, lit ∈ analyzed s' ↔ reached s0 (S j) lit)
    ∧ (∀ (k : nat) (a : Z),
         (j < k < i)%nat → trail s0 !! k = Some a →
         reached s0 (S k) (- a) →
         ∃ (b : Z) (p : nat),
           reached s0 (S k) b ∧ lvl s0 b = level s0
           ∧ (p < k)%nat ∧ trail s0 !! p = Some (- b)).
Proof.
  intros Hwf.
  induction fuel as [|fuel IH];
    intros r uip open i s Hfuel Hinv Hopen Hall Hne Hentry; [lia|].
  cbn [analyze_loop].
  destruct (analyze_reason_step s0 s i uip open r Hwf Hinv Hopen Hall)
    as (s1 & open1 & Hrun & Hinv1 & Hopen1 & Hres1 & Hseen1 & Hmono1).
  pose proof (analyze_reason_analyzed s0 s i uip open r s1 open1
                Hwf Hinv Hinv1 Hall Hrun) as Hbatch.
  rewrite Hrun. cbn.
  assert (pending s1 i ≠ []) as Hne1.
  { destruct Hne as [Hne|Hex].
    - destruct (pending s i) as [|b t] eqn:E; [done|].
      assert (b ∈ pending s i) as Hb by (rewrite E; apply list_elem_of_here).
      apply (pending_elem_of s0) in Hb as (Hsb & Hlb & Hp); [|done].
      assert (b ∈ pending s1 i) as Hb1.
      { apply (pending_elem_of s0); [done|]. split_and!; auto. }
      intros E1. rewrite E1 in Hb1. by apply elem_of_nil in Hb1.
    - apply Exists_exists in Hex as (other & Hin & Hou & Hlo).
      rewrite Forall_forall in Hall.
      destruct (Hall other Hin Hou) as (Ho0 & p & Hpi & Hp).
      pose proof (wf_level _ Hwf) as HL.
      assert (- other ∈ pending s1 i) as Hb1.
      { apply (pending_elem_of s0); [done|]. split_and!.
        - unfold flags. rewrite vidx_opp. apply (Hseen1 other Hin Hou). lia.
        - unfold lvl, var. rewrite vidx_opp. exact Hlo.
        - exists p. split; [done|done]. }
      intros E1. rewrite E1 in Hb1. by apply elem_of_nil in Hb1. }
  (* the batch is what is reached from the cursor on *)
  assert (∀ lit, lit ∈ analyzed s1 ↔ reached s0 i lit) as Hmem.
  { intros lit. by rewrite Hbatch, Hentry. }
  destruct (previous_seen_spec s0 s1 Hwf i Hinv1 Hne1)
    as (uip' & j & Hscan & Hji & Hju & Hsu & Hlu & Hlen).
  destruct (previous_seen_nearest s1 i uip' j Hscan) as (_ & _ & _ & Hgap).
  destruct (walk_core s1 s0 (inv_core _ _ _ Hinv1)) as (_ & _ & _ & Htr & _).
  rewrite Htr in Hgap.
  destruct (wf_trail_entry _ Hwf j uip' Hju) as (Hu0 & _).
  rewrite Hscan. cbn.
  assert (walk_invariant s0 s1 j) as Hinvj.
  { eapply walk_invariant_cursor; [done|].
    pose proof (inv_cursor _ _ _ Hinv1). lia. }
  (* no analyzed literal between the two cursors *)
  assert (∀ b k, b ∈ analyzed s1 → trail s0 !! k = Some (- b) →
                 (S j ≤ k)%nat → (i ≤ k)%nat) as Hskip.
  { intros b k Hb Hk Hjk.
    destruct (decide (i ≤ k)%nat) as [?|Hki]; [done|exfalso].
    pose proof (analyzed_seen s0 s1 i b Hinv1 Hb) as Hs.
    rewrite (Hgap k (- b)) in Hs; [done|lia|done]. }
  assert (∀ lit, reached s0 (S j) lit ↔ reached s0 i lit) as Hsame.
  { intros lit. split.
    - apply (reached_gap s0 (λ b, b ∈ analyzed s1)); [|done].
      intros b Hb. by apply Hmem.
    - apply reached_mono. lia. }
  assert (∀ (k : nat) (a : Z),
            (j < k < i)%nat → trail s0 !! k = Some a →
            ¬ reached s0 (S k) (- a)) as Hnone.
  { intros k a Hk Ha Hra.
    apply (reached_mono s0 (S k) (S j)) in Hra; [|lia].
    apply Hsame, Hmem in Hra.
    pose proof (analyzed_seen s0 s1 i _ Hinv1 Hra) as Hs.
    rewrite Z.opp_involutive in Hs.
    rewrite (Hgap k a) in Hs; [done|lia|done]. }
  assert (- uip' ∈ analyzed s1) as Hua.
  { apply (seen_analyzed s0 s1 i j); [done|done|lia| |].
    - by rewrite Z.opp_involutive.
    - unfold flags. by rewrite vidx_opp. }
  destruct (Z.eqb_spec (open1 - 1) 0) as [Hz|Hnz].
  { exists s1, uip', j. split_and!; [done|done|done| |].
    - intros lit. by rewrite Hsame.
    - intros k a Hk Ha Hra. by destruct (Hnone k a Hk Ha). }
  destruct (walk_core_var s1 s0 uip' (inv_core _ _ _ Hinv1)) as (-> & _ & _).
  pose proof (wf_reasons _ Hwf j uip' Hju Hlu) as Hreason.
  assert (pending s1 j ≠ []) as Hnej.
  { intros E. rewrite E in Hlen. cbn in Hlen. lia. }
  destruct (Var.reason (var s0 uip')) as [r'|] eqn:Er'.
  - pose proof Hreason as Hall'.
    destruct (IH r' uip' (open1 - 1) j s1)
      as (s' & u & j' & Hrun' & Hj' & Hju' & Hmem' & Hfirst');
      try done; try lia.
    + by left.
    + (* the entry condition at the new cursor *)
      intros lit. split.
      * intros [Hin|(Hin & Hne' & Hl0)].
        -- apply (reached_mono s0 i j); [lia|]. by apply Hmem.
        -- apply (reached_reason s0 j (- uip') j r' lit);
             rewrite ?Z.opp_involutive; try done.
           apply (reached_mono s0 i j); [lia|]. by apply Hmem.
      * induction 1 as [c lit Hc Hl H0|b k rb lit _ IHb Hk Hb Hr Hl Hneb H0].
        -- left. apply Hmem. by eapply reached_conflict.
        -- destruct IHb as [Hban|(Hbin & Hbne & _)].
           ++ destruct (decide (k = j)) as [->|Hkj].
              ** rewrite Hju in Hb. injection Hb as Hb.
                 rewrite <- Hb, Er' in Hr. injection Hr as <-.
                 right. split_and!; [done|lia|done].
              ** left. apply Hmem.
                 apply (reached_reason s0 i b k rb lit); try done.
                 --- by apply Hmem.
                 --- apply (Hskip b k); [done|done|lia].
           ++ exfalso. rewrite Forall_forall in Hall'.
              destruct (Hall' b Hbin Hbne) as (_ & p & Hp & Hpb).
              assert (p = k) as ->; [|lia].
              eapply (NoDup_lookup (vidx <$> trail s0)).
              ** apply (wf_trail_nodup _ Hwf).
              ** by rewrite list_lookup_fmap, Hpb.
              ** by rewrite list_lookup_fmap, Hb.
    + exists s', u, j'. split_and!; [done|lia|done|done|].
      intros k a Hk Ha Hra.
      destruct (decide (k < j)%nat) as [Hkj|Hkj];
        [apply (Hfirst' k a); [lia|done|done]|].
      destruct (decide (k = j)) as [->|Hne'];
        [|destruct (Hnone k a); [lia|done|done]].
      destruct (pending s1 j) as [|b t] eqn:E; [done|].
      assert (b ∈ pending s1 j) as Hb by (rewrite E; apply list_elem_of_here).
      apply (pending_elem_of s0) in Hb as (Hsb & Hlb & p & Hp & Hpb); [|done].
      destruct (wf_trail_entry _ Hwf p b Hpb) as (Hb0 & _).
      exists (- b), p. rewrite Z.opp_involutive. split_and!; [| |done|done].
      * apply Hsame, Hmem.
        apply (seen_analyzed s0 s1 i p); [done|done|lia| |].
        -- by rewrite Z.opp_involutive.
        -- unfold flags. by rewrite vidx_opp.
      * unfold lvl, var. by rewrite vidx_opp.
  - exfalso. destruct (pending s1 j) as [|b t] eqn:E; [done|].
    assert (b ∈ pending s1 j) as Hb by (rewrite E; apply list_elem_of_here).
    apply (pending_elem_of s0) in Hb as (_ & Hlb & p & Hp & Hpb); [|done].
    pose proof (Hreason p b Hp Hpb). lia.
Qed.

(** The conditions that single out the first UIP hold at one trail
    position at most: at a position [j2] where no reached literal of the
    current level stands earlier on the trail, no position before it can
    claim that another such literal was still to be resolved there. *)
Lemma first_uip_determined (s : Internal) (j1 j2 : nat) (u2 : Z) :
  trail s !! j2 = Some u2 →
  reached s (S j2) (- u2) →
  (∀ (lit : Z) (p : nat),
     reached s (S j2) lit → lvl s lit = level s →
     trail s !! p = Some (- lit) → (j2 ≤ p)%nat) →
  (∀ (k : nat) (a : Z),
     (j1 < k)%nat → trail s !! k = Some a → reached s (S k) (- a) →
     ∃ (b : Z) (p : nat),
       reached s (S k) b ∧ lvl s b = level s
       ∧ (p < k)%nat ∧ trail s !! p = Some (- b)) →
  (j2 ≤ j1)%nat.
Proof.
  intros Hj2 Hr2 Hlate Hfirst.
  destruct (decide (j2 ≤ j1)%nat) as [?|Hlt]; [done|exfalso].
  destruct (Hfirst j2 u2) as (b & p & Hb & Hlb & Hp & Hpb); [lia|done|done|].
  pose proof (Hlate b p Hb Hlb Hpb). lia.
Qed.

(** C1: on a well-formed conflict above level 0 the resolution walk
    completes, and the clause it leaves in the buffer consists of the
    analyzed literals below the current level followed by the negation of
    the first UIP.  The trail is as it was on entry and falsifies every
    literal of the clause; no literal occurs twice and none together with
    its negation; the negated UIP is on the current level, and every other
    literal on a level that is lower and not 0.  The UIP is the earliest
    trail entry among the analyzed literals of the current level.

    The clause is tied to the conflict by [reached]: with the UIP at
    trail position [j], the analyzed literals are the literals met when
    the conflicting clause is resolved with the reasons of the trail
    entries after [j], and the clause holds those of them that are below
    the current level, and the negated UIP.  The UIP is the first one,
    counted from the conflict: its negation is the only literal of the
    current level that is met and not resolved, and at every later trail
    entry that the resolution meets, another met literal of the current
    level was still to be resolved. *)
Theorem first_uip_clause (s : Internal) :
  well_formed s → scratch_clean s →
  ∃ (s1 : Internal) (uip : Z) (lower : list Z) (j : nat),
    analyze_derive s = Done (s1, uip)
    ∧ lower = filter (λ lit, lvl s lit < level s) (analyzed s1)
    ∧ clause s1 = lower ++ [- uip]
    ∧ trail s1 = trail s ∧ vals s1 = vals s ∧ level s1 = level s
    ∧ (∀ lit, lit ∈ clause s1 → val s1 lit < 0 ∧ - lit ∈ trail s1)
    ∧ NoDup (clause s1)
    ∧ (∀ lit, lit ∈ clause s1 → - lit ∉ clause s1)
    ∧ uip ∈ trail s
    ∧ lvl s (- uip) = level s
    ∧ (∀ lit, lit ∈ lower → 0 < lvl s lit < level s)
    ∧ (∀ lit, lit ∈ analyzed s1 → lvl s lit = level s →
         Var.trail (var s uip) ≤ Var.trail (var s lit))
    ∧ trail s !! j = Some uip
    ∧ (∀ lit, lit ∈ analyzed s1 ↔ reached s (S j) lit)
    ∧ (∀ lit, lit ∈ clause s1 ↔
              reached s (S j) lit ∧ (lvl s lit < level s ∨ lit = - uip))
    ∧ (∀ (lit : Z) (p : nat),
         reached s (S j) lit → lvl s lit = level s →
         trail s !! p = Some (- lit) → (j ≤ p)%nat)
    ∧ (∀ (k : nat) (a : Z),
         (j < k)%nat → trail s !! k = Some a → reached s (S k) (- a) →
         ∃ (b : Z) (p : nat),
           reached s (S k) b ∧ lvl s b = level s
           ∧ (p < k)%nat ∧ trail s !! p = Some (- b)).
Proof.
  intros Hwf Hclean.
  destruct (analyze_derive_spec s Hwf Hclean)
    as (sw & uip & j & Hderive & Hinv & Hju & Hlu & Hua & Hpend & _ & Hfalse
        & Hnodup).
  destruct (walk_core sw s (inv_core _ _ _ Hinv)) as (Hlevel & Hvals & Hvtab & Htr & _).
  destruct (wf_trail_entry _ Hwf j uip Hju) as (Hu0 & Huv & _ & _).
  assert (∀ lit, lit ∈ clause sw ++ [- uip] → lit ≠ 0 ∧ - lit ∈ trail s) as Hon.
  { intros lit Hin. apply elem_of_app in Hin as [Hin|Hin].
    - rewrite (inv_clause _ _ _ Hinv) in Hin.
      apply list_elem_of_filter in Hin as [_ Hin].
      by destruct (inv_analyzed _ _ _ Hinv lit Hin) as (? & _ & _ & ?).
    - apply list_elem_of_singleton in Hin as ->. split; [lia|].
      rewrite Z.opp_involutive. by eapply list_elem_of_lookup_2. }
  assert (∀ (lit : Z) (p : nat),
            lit ∈ analyzed sw → lvl s lit = level s →
            trail s !! p = Some (- lit) → (j ≤ p)%nat) as Hlate.
  { intros lit p Hin Hll Hp.
    destruct (decide (p < j)%nat) as [Hpj|Hpj]; [|lia].
    assert (- lit ∈ pending sw j) as Hin'.
    { apply (pending_elem_of s); [done|]. split_and!.
      - unfold flags. rewrite vidx_opp. apply (inv_seen _ _ _ Hinv).
        by apply list_elem_of_fmap_2.
      - unfold lvl, var. rewrite vidx_opp. exact Hll.
      - by exists p. }
    rewrite Hpend in Hin'. by apply elem_of_nil in Hin'. }
  (* the walk as a resolution from the conflicting clause *)
  assert ((∀ lit, lit ∈ analyzed sw ↔ reached s (S j) lit)
          ∧ (∀ (k : nat) (a : Z),
               (j < k)%nat → trail s !! k = Some a → reached s (S k) (- a) →
               ∃ (b : Z) (p : nat),
                 reached s (S k) b ∧ lvl s b = level s
                 ∧ (p < k)%nat ∧ trail s !! p = Some (- b)))
    as (Hmem & Hfirst).
  { pose proof (walk_invariant_initial s Hclean) as Hinv0.
    destruct (wf_conflict _ Hwf) as (c & Hc & Hcfalse & Hex).
    rewrite Forall_forall in Hcfalse.
    assert (pending s (length (trail s)) = []) as Hpend0.
    { destruct (pending s (length (trail s))) as [|b t] eqn:E; [done|].
      assert (b ∈ pending s (length (trail s))) as Hb
        by (rewrite E; apply list_elem_of_here).
      apply (pending_elem_of s) in Hb as (Hsb & _); [|done].
      unfold flags in Hsb.
      destruct (clean_flags _ Hclean (vidx b)). congruence. }
    destruct (analyze_loop_reached s Hwf (S (length (trail s))) c 0 0
                (length (trail s)) s)
      as (s' & uip' & j' & Hrun & Hj' & Hju' & Hmem' & Hfirst'); try done.
    - lia.
    - by rewrite Hpend0.
    - apply Forall_forall. intros other Hin _.
      destruct (Hcfalse other Hin) as [Ho0 Hov]. split; [done|].
      apply list_elem_of_lookup in Hov as [p Hp]. exists p. split; [|done].
      by apply lookup_lt_Some in Hp.
    - right. apply Exists_exists in Hex as (other & Hin & Hlo).
      apply Exists_exists. exists other. split; [done|].
      split; [|done]. by destruct (Hcfalse other Hin).
    - intros lit. rewrite (clean_analyzed _ Hclean). split.
      + intros [Hin|(Hin & _ & Hl0)]; [by apply elem_of_nil in Hin|].
        by eapply reached_conflict.
      + induction 1 as [c' lit Hc' Hl H0|b k rb lit _ _ Hk Hb Hr Hl Hneb H0].
        * right. rewrite Hc in Hc'. injection Hc' as <-.
          split_and!; [done| |done]. by destruct (Hcfalse lit Hl).
        * apply lookup_lt_Some in Hb. lia.
    - unfold analyze_derive in Hderive. rewrite Hc, Hrun in Hderive.
      cbn [mbind outcome_bind] in Hderive.
      apply bind_Done in Hderive as (s2 & Hcheck & [= Hs2 <-]).
      unfold check_learned_clause in Hcheck.
      apply bind_Done in Hcheck as ([] & _ & Hcheck).
      apply bind_Done in Hcheck as ([] & _ & [= Hs2']).
      assert (analyzed s' = analyzed sw) as Han.
      { apply (f_equal analyzed) in Hs2. rewrite <- Hs2' in Hs2.
        exact Hs2. }
      assert (j' = j) as ->.
      { eapply (NoDup_lookup (vidx <$> trail s)).
        - apply (wf_trail_nodup _ Hwf).
        - by rewrite list_lookup_fmap, Hju'.
        - by rewrite list_lookup_fmap, Hju. }
      split.
      + intros lit. by rewrite <- Han.
      + intros k a Hk Ha Hra. apply (Hfirst' k a); [|done|done].
        apply lookup_lt_Some in Ha. lia. }
  exists (set_clause (clause sw ++ [- uip]) sw), uip, (clause sw), j.
  cbn [clause analyzed trail vals level set_clause].
  split_and!; try done.
  - apply (inv_clause _ _ _ Hinv).
  - intros lit Hin. split.
    + rewrite Forall_forall in Hfalse.
      destruct (walk_core_var sw s lit (inv_core _ _ _ Hinv)) as (_ & Hval & _).
      unfold val in *. cbn. rewrite Hval. by apply Hfalse.
    + rewrite Htr. by apply Hon.
  - by eapply NoDup_fmap_1.
  - intros lit Hin Hin'. destruct (Hon lit Hin) as [Hl0 _].
    pose proof (NoDup_fmap_eq vidx _ lit (- lit) Hnodup Hin Hin'
                  (eq_sym (vidx_opp lit))). lia.
  - by eapply list_elem_of_lookup_2.
  - unfold lvl, var. by rewrite vidx_opp.
  - intros lit Hin. rewrite (inv_clause _ _ _ Hinv) in Hin.
    apply list_elem_of_filter in Hin as [Hlt Hin].
    destruct (inv_analyzed _ _ _ Hinv lit Hin) as (_ & _ & ? & _). lia.
  - intros lit Hin Hll.
    destruct (inv_analyzed _ _ _ Hinv lit Hin) as (Hl0 & _ & _ & Hon').
    apply list_elem_of_lookup in Hon' as [p Hp].
    destruct (trail_falsifies s lit p Hwf Hl0 Hp) as (_ & -> & _).
    destruct (wf_trail_entry _ Hwf j uip Hju) as (_ & _ & -> & _).
    pose proof (Hlate lit p Hin Hll Hp). lia.
  - intros lit. rewrite elem_of_app, list_elem_of_singleton,
      (inv_clause _ _ _ Hinv), list_elem_of_filter, <- Hmem.
    split.
    + intros [[Hlt Hin]| ->]; [by split; [|left]|]. split; [done|by right].
    + intros [Hin [Hlt| ->]]; [by left|by right].
  - intros lit p Hr. apply Hlate. by apply Hmem.
Qed.

Lemma first_uip_clause_witness :
  ∃ (s1 : Internal) (uip : Z) (lower : list Z) (j : nat),
    analyze_derive Scenario.conflict_on_level_two = Done (s1, uip)
    ∧ lower = filter (λ lit, lvl Scenario.conflict_on_level_two lit
                             < level Scenario.conflict_on_level_two)
                     (analyzed s1)
    ∧ clause s1 = lower ++ [- uip]
    ∧ trail s1 = trail Scenario.conflict_on_level_two
    ∧ vals s1 = vals Scenario.conflict_on_level_two
    ∧ level s1 = level Scenario.conflict_on_level_two
    ∧ (∀ lit, lit ∈ clause s1 → val s1 lit < 0 ∧ - lit ∈ trail s1)
    ∧ NoDup (clause s1)
    ∧ (∀ lit, lit ∈ clause s1 → - lit ∉ clause s1)
    ∧ uip ∈ trail Scenario.conflict_on_level_two
    ∧ lvl Scenario.conflict_on_level_two (- uip)
      = level Scenario.conflict_on_level_two
    ∧ (∀ lit, lit ∈ lower →
         0 < lvl Scenario.conflict_on_level_two lit
           < level Scenario.conflict_on_level_two)
    ∧ (∀ lit, lit ∈ analyzed s1 →
         lvl Scenario.conflict_on_level_two lit
         = level Scenario.conflict_on_level_two →
         Var.trail (var Scenario.conflict_on_level_two uip)
         ≤ Var.trail (var Scenario.conflict_on_level_two lit))
    ∧ trail Scenario.conflict_on_level_two !! j = Some uip
    ∧ (∀ lit, lit ∈ analyzed s1 ↔
              reached Scenario.conflict_on_level_two (S j) lit)
    ∧ (∀ lit, lit ∈ clause s1 ↔
              reached Scenario.conflict_on_level_two (S j) lit
              ∧ (lvl Scenario.conflict_on_level_two lit
                 < level Scenario.conflict_on_level_two
                 ∨ lit = - uip))
    ∧ (∀ (lit : Z) (p : nat),
         reached Scenario.conflict_on_level_two (S j) lit →
         lvl Scenario.conflict_on_level_two lit
         = level Scenario.conflict_on_level_two →
         trail Scenario.conflict_on_level_two !! p = Some (- lit) →
         (j ≤ p)%nat)
    ∧ (∀ (k : nat) (a : Z),
         (j < k)%nat →
         trail Scenario.conflict_on_level_two !! k = Some a →
         reached Scenario.conflict_on_level_two (S k) (- a) →
         ∃ (b : Z) (p : nat),
           reached Scenario.conflict_on_level_two (S k) b
           ∧ lvl Scenario.conflict_on_level_two b
             = level Scenario.conflict_on_level_two
           ∧ (p < k)%nat
           ∧ trail Scenario.conflict_on_level_two !! p = Some (- b)).
Proof.
  apply (first_uip_clause Scenario.conflict_on_level_two).
  - exact conflict_on_level_two_well_formed.
  - exact conflict_on_level_two_clean.
Defined.
